(** * QLogger: an asynchronous logger draining a message queue to a stream

    A shallow embedding of [qlogger.cpp] / [qlogger.h]:
    - [QString]: the part of Qt's string formatting the logger relies on;
    - [QLoggerFileStream]: the file stream with its periodic flush;
    - [QLogger]: the queue, the producer entry points and the worker [run];
    - [Interleaving]: the same code at the granularity of its atomic steps,
      scheduled thread by thread. *)

From Stdlib Require Import String Ascii List ZArith Lia Bool.
Import ListNotations.

Open Scope string_scope.
Open Scope Z_scope.

(** ** Machine integers *)

(** A C++ [int] is 32 bits wide; the wrap-around of an addition is written
    out.  [%] on [int] truncates towards zero, which is [Z.rem]. *)
Definition INT_MIN : Z := - 2 ^ 31.
Definition INT_MAX : Z := 2 ^ 31 - 1.

Definition in_int (z : Z) : Prop := INT_MIN <= z <= INT_MAX.

Definition wrap_int (z : Z) : Z := (z + 2 ^ 31) mod 2 ^ 32 - 2 ^ 31.

Definition int_add (a b : Z) : Z := wrap_int (a + b).
Definition int_rem (a b : Z) : Z := Z.rem a b.

(** ** Qt strings *)

Module QString.

(** [QChar::digitValue] on the decimal digits. *)
Definition digitValue (c : ascii) : option nat :=
  let n := nat_of_ascii c in
  if andb (Nat.leb 48 n) (Nat.leb n 57) then Some (n - 48)%nat else None.

(** A place marker at the head of [s]: ['%'], an optional ['L'], one
    digit and, when the next character is a digit too, that second digit.
    The result is the marker's number and its length in characters. *)
Definition marker (s : string) : option (nat * nat) :=
  match s with
  | String "%" r =>
      let '(r, l) := match r with
                     | String "L" t => (t, 2%nat)
                     | _ => (r, 1%nat)
                     end in
      match r with
      | String d1 t1 =>
          match digitValue d1 with
          | None => None
          | Some n1 =>
              match t1 with
              | String d2 _ =>
                  match digitValue d2 with
                  | Some n2 => Some (10 * n1 + n2, l + 2)%nat
                  | None => Some (n1, l + 1)%nat
                  end
              | EmptyString => Some (n1, l + 1)%nat
              end
          end
      | EmptyString => None
      end
  | _ => None
  end.

(** The numbers of the place markers of [s], from left to right.  [skip]
    counts the characters of a marker that are still to be passed over. *)
Fixpoint escapes (skip : nat) (s : string) : list nat :=
  match s with
  | EmptyString => []
  | String _ r =>
      match skip with
      | S k => escapes k r
      | O =>
          match marker s with
          | Some (n, len) => n :: escapes (len - 1) r
          | None => escapes 0 r
          end
      end
  end.

(** [findArgEscapes]: the lowest marker number, if there is a marker. *)
Definition min_escape (s : string) : option nat :=
  match escapes 0 s with
  | [] => None
  | n :: ns => Some (fold_left Nat.min ns n)
  end.

(** [replaceArgEscapes]: every marker numbered [n] becomes [a]; all
    other text, the other markers included, is copied. *)
Fixpoint replaceArgEscapes (n : nat) (a : string) (skip : nat) (s : string)
  : string :=
  match s with
  | EmptyString => EmptyString
  | String c r =>
      match skip with
      | S k => replaceArgEscapes n a k r
      | O =>
          match marker s with
          | Some (m, len) =>
              if Nat.eqb m n
              then a ++ replaceArgEscapes n a (len - 1) r
              else String c (replaceArgEscapes n a 0 r)
          | None => String c (replaceArgEscapes n a 0 r)
          end
      end
  end.

(** [QString::arg(const QString &a)]: a copy of the string in which the
    lowest numbered place marker is replaced by [a]; without any marker
    the string is returned as it is ("Argument missing"). *)
Definition arg (s a : string) : string :=
  match min_escape s with
  | Some n => replaceArgEscapes n a 0 s
  | None => s
  end.

(** [QString::toUtf8]: strings are kept as their UTF-8 bytes. *)
Definition toUtf8 (s : string) : string := s.

(** A text without any ['%'] holds no place marker. *)
Fixpoint no_percent (s : string) : bool :=
  match s with
  | EmptyString => true
  | String c r => andb (negb (Ascii.eqb c "%")) (no_percent r)
  end.

End QString.

(** ** Streams *)

(** [QLoggerStream]: the interface a stream implements.  An object of
    class [S] is a value; a member function that changes it returns the
    new value next to its result. *)
Class QLoggerStream (S : Type) : Type := {
  open : S -> bool * S;
  isOpen : S -> bool;
  write : string -> S -> Z * S;
  close : S -> S;
  errorString : S -> string
}.

(** [QLoggerDebugStream]: the lines handed to [qDebug()]. *)
Record QLoggerDebugStream : Type := { debug_output : list string }.

#[export] Instance QLoggerDebugStream_stream : QLoggerStream QLoggerDebugStream := {
  open d := (true, d);
  isOpen _ := true;
  write s d := (42, {| debug_output := debug_output d ++ [s] |});
  close d := d;
  errorString _ := ""
}.

(** *** The file behind a file stream *)

(** [QFile] belongs to Qt.  It is taken as an arbitrary device [F] that
    answers the calls the stream makes; what it answers is up to the
    device. *)
Class QIODevice (F : Type) : Type := {
  dev_new : string -> F;
  dev_open : F -> bool * F;
  dev_isOpen : F -> bool;
  dev_write : string -> F -> Z * F;
  dev_flush : F -> bool * F;
  dev_close : F -> F;
  dev_errorString : F -> string;
  dev_setFileName : string -> F -> F;
  dev_fileName : F -> string
}.

(** The calls a [QFile] received, with what it answered. *)
Inductive FileCall : Type :=
| FileOpen (ok : bool)
| FileWrite (data : string) (ret : Z)
| FileFlush (ok : bool)
| FileClose.

(** A [QFile] is its device together with the journal of the calls made
    on it, oldest first. *)
Record QFile (F : Type) : Type := {
  device : F;
  journal : list FileCall
}.
Arguments device {F} _.
Arguments journal {F} _.

Section File.
Context {F : Type} `{QIODevice F}.

Definition file_new (filename : string) : QFile F :=
  {| device := dev_new filename; journal := [] |}.

Definition file_open (f : QFile F) : bool * QFile F :=
  let '(ok, d) := dev_open (device f) in
  (ok, {| device := d; journal := journal f ++ [FileOpen ok] |}).

Definition file_write (data : string) (f : QFile F) : Z * QFile F :=
  let '(ret, d) := dev_write data (device f) in
  (ret, {| device := d; journal := journal f ++ [FileWrite data ret] |}).

Definition file_flush (f : QFile F) : bool * QFile F :=
  let '(ok, d) := dev_flush (device f) in
  (ok, {| device := d; journal := journal f ++ [FileFlush ok] |}).

Definition file_close (f : QFile F) : QFile F :=
  {| device := dev_close (device f); journal := journal f ++ [FileClose] |}.

End File.

(** *** QLoggerFileStream *)

Record QLoggerFileStream (F : Type) : Type := {
  _file : QFile F;
  _flush_rate : Z;
  _flush_count : Z
}.
Arguments _file {F} _.
Arguments _flush_rate {F} _.
Arguments _flush_count {F} _.

Module FileStream.
Section FileStream.
Context {F : Type} `{QIODevice F}.

(** [QLoggerFileStream::QLoggerFileStream(filename)] *)
Definition new (filename : string) : QLoggerFileStream F :=
  {| _file := file_new filename; _flush_rate := 4; _flush_count := 0 |}.

(** [QLoggerFileStream::open] *)
Definition open (fs : QLoggerFileStream F) : bool * QLoggerFileStream F :=
  let '(ok, f) := file_open (_file fs) in
  (ok, {| _file := f;
          _flush_rate := _flush_rate fs;
          _flush_count := _flush_count fs |}).

(** [QLoggerFileStream::isOpen] *)
Definition isOpen (fs : QLoggerFileStream F) : bool :=
  dev_isOpen (device (_file fs)).

(** [QLoggerFileStream::write] *)
Definition write (s : string) (fs : QLoggerFileStream F)
  : Z * QLoggerFileStream F :=
  let '(bytes, f) := file_write (QString.toUtf8 s) (_file fs) in
  if negb (bytes =? -1) && (_flush_rate fs >? 0) then
    let count := int_rem (int_add (_flush_count fs) 1) (_flush_rate fs) in
    if count =? 0 then
      let '(_, f) := file_flush f in
      (bytes, {| _file := f;
                 _flush_rate := _flush_rate fs;
                 _flush_count := count |})
    else
      (bytes, {| _file := f;
                 _flush_rate := _flush_rate fs;
                 _flush_count := count |})
  else
    (bytes, {| _file := f;
               _flush_rate := _flush_rate fs;
               _flush_count := _flush_count fs |}).

(** [QLoggerFileStream::flush] *)
Definition flush (fs : QLoggerFileStream F) : bool * QLoggerFileStream F :=
  let '(ok, f) := file_flush (_file fs) in
  (ok, {| _file := f;
          _flush_rate := _flush_rate fs;
          _flush_count := _flush_count fs |}).

(** [QLoggerFileStream::close] *)
Definition close (fs : QLoggerFileStream F) : QLoggerFileStream F :=
  {| _file := file_close (_file fs);
     _flush_rate := _flush_rate fs;
     _flush_count := _flush_count fs |}.

(** [QLoggerFileStream::errorString] *)
Definition errorString (fs : QLoggerFileStream F) : string :=
  dev_errorString (device (_file fs)).

(** [QLoggerFileStream::setFilename] and [QLoggerFileStream::filename];
    [QFile::setFileName] and [QFile::fileName] are no input or output and
    stay out of the journal. *)
Definition setFilename (filename : string) (fs : QLoggerFileStream F)
  : QLoggerFileStream F :=
  {| _file := {| device := dev_setFileName filename (device (_file fs));
                 journal := journal (_file fs) |};
     _flush_rate := _flush_rate fs;
     _flush_count := _flush_count fs |}.

Definition filename (fs : QLoggerFileStream F) : string :=
  dev_fileName (device (_file fs)).

(** [QLoggerFileStream::setFlushRate] *)
Definition setFlushRate (rate : Z) (fs : QLoggerFileStream F)
  : QLoggerFileStream F :=
  {| _file := _file fs; _flush_rate := rate; _flush_count := 0 |}.

(** [QLoggerFileStream::flushRate] *)
Definition flushRate (fs : QLoggerFileStream F) : Z := _flush_rate fs.

(** Writing the lines [ls] one after the other; the results of the
    calls are dropped, as the worker drops them. *)
Fixpoint write_all (ls : list string) (fs : QLoggerFileStream F)
  : QLoggerFileStream F :=
  match ls with
  | [] => fs
  | l :: ls => write_all ls (snd (write l fs))
  end.

End FileStream.
End FileStream.

#[export] Instance QLoggerFileStream_stream {F : Type} `{QIODevice F}
  : QLoggerStream (QLoggerFileStream F) := {
  open := FileStream.open;
  isOpen := FileStream.isOpen;
  write := FileStream.write;
  close := FileStream.close;
  errorString := FileStream.errorString
}.

(** *** QLoggerSocketStream *)

(** [QAbstractSocket] belongs to Qt.  It is taken as an arbitrary socket
    [K] that answers the calls the stream makes.  [sock_isSsl] tells
    whether [qobject_cast<QSslSocket*>] finds an SSL socket. *)
Class QAbstractSocket (K : Type) : Type := {
  sock_isSsl : K -> bool;
  sock_connectToHostEncrypted : string -> Z -> K -> K;
  sock_connectToHost : string -> Z -> K -> K;
  sock_waitForConnected : K -> bool * K;
  sock_isOpen : K -> bool;
  sock_write : string -> K -> Z * K;
  sock_waitForBytesWritten : K -> bool * K;
  sock_disconnectFromHost : K -> K;
  sock_errorString : K -> string
}.

(** The calls a socket received, with what it answered; both ways to
    connect are called with [QIODevice::WriteOnly]. *)
Inductive SocketCall : Type :=
| ConnectToHostEncrypted (hostname : string) (port : Z)
| ConnectToHost (hostname : string) (port : Z)
| WaitForConnected (ok : bool)
| SocketWrite (data : string) (ret : Z)
| WaitForBytesWritten (ok : bool)
| DisconnectFromHost.

(** The socket the stream owns, with the journal of the calls made on it,
    oldest first. *)
Record OwnedSocket (K : Type) : Type := {
  socket_impl : K;
  socket_journal : list SocketCall
}.
Arguments socket_impl {K} _.
Arguments socket_journal {K} _.

(** [_port] is a [quint16]. *)
Record QLoggerSocketStream (K : Type) : Type := {
  _socket : OwnedSocket K;
  _hostname : string;
  _port : Z
}.
Arguments _socket {K} _.
Arguments _hostname {K} _.
Arguments _port {K} _.

Module SocketStream.
Section SocketStream.
Context {K : Type} `{QAbstractSocket K}.

(** [QLoggerSocketStream::QLoggerSocketStream(socketImpl, hostname, port)] *)
Definition new (socketImpl : K) (hostname : string) (port : Z)
  : QLoggerSocketStream K :=
  {| _socket := {| socket_impl := socketImpl; socket_journal := [] |};
     _hostname := hostname;
     _port := port |}.

(** [QLoggerSocketStream::setHostname] and [QLoggerSocketStream::hostname] *)
Definition setHostname (hostname : string) (ss : QLoggerSocketStream K)
  : QLoggerSocketStream K :=
  {| _socket := _socket ss; _hostname := hostname; _port := _port ss |}.

Definition hostname (ss : QLoggerSocketStream K) : string := _hostname ss.

(** [QLoggerSocketStream::setPort] and [QLoggerSocketStream::port] *)
Definition setPort (port : Z) (ss : QLoggerSocketStream K)
  : QLoggerSocketStream K :=
  {| _socket := _socket ss; _hostname := _hostname ss; _port := port |}.

Definition port (ss : QLoggerSocketStream K) : Z := _port ss.

(** [QLoggerSocketStream::socket] *)
Definition socket (ss : QLoggerSocketStream K) : K :=
  socket_impl (_socket ss).

(** [QLoggerSocketStream::open] *)
Definition open (ss : QLoggerSocketStream K) : bool * QLoggerSocketStream K :=
  let k := socket_impl (_socket ss) in
  let j := socket_journal (_socket ss) in
  let '(k, j) :=
    if sock_isSsl k then
      (sock_connectToHostEncrypted (_hostname ss) (_port ss) k,
       (j ++ [ConnectToHostEncrypted (_hostname ss) (_port ss)])%list)
    else
      (sock_connectToHost (_hostname ss) (_port ss) k,
       (j ++ [ConnectToHost (_hostname ss) (_port ss)])%list) in
  let '(ok, k) := sock_waitForConnected k in
  (ok,
   {| _socket := {| socket_impl := k;
                    socket_journal := j ++ [WaitForConnected ok] |};
      _hostname := _hostname ss;
      _port := _port ss |}).

(** [QLoggerSocketStream::isOpen] *)
Definition isOpen (ss : QLoggerSocketStream K) : bool :=
  sock_isOpen (socket_impl (_socket ss)).

(** [QLoggerSocketStream::write] *)
Definition write (s : string) (ss : QLoggerSocketStream K)
  : Z * QLoggerSocketStream K :=
  let '(bytes, k) := sock_write (QString.toUtf8 s) (socket_impl (_socket ss)) in
  let '(ok, k) := sock_waitForBytesWritten k in
  (bytes,
   {| _socket :=
        {| socket_impl := k;
           socket_journal :=
             socket_journal (_socket ss)
               ++ [SocketWrite (QString.toUtf8 s) bytes;
                   WaitForBytesWritten ok] |};
      _hostname := _hostname ss;
      _port := _port ss |}).

(** [QLoggerSocketStream::close] *)
Definition close (ss : QLoggerSocketStream K) : QLoggerSocketStream K :=
  {| _socket :=
       {| socket_impl := sock_disconnectFromHost (socket_impl (_socket ss));
          socket_journal :=
            socket_journal (_socket ss) ++ [DisconnectFromHost] |};
     _hostname := _hostname ss;
     _port := _port ss |}.

(** [QLoggerSocketStream::errorString] *)
Definition errorString (ss : QLoggerSocketStream K) : string :=
  sock_errorString (socket_impl (_socket ss)).

End SocketStream.
End SocketStream.

#[export] Instance QLoggerSocketStream_stream {K : Type} `{QAbstractSocket K}
  : QLoggerStream (QLoggerSocketStream K) := {
  open := SocketStream.open;
  isOpen := SocketStream.isOpen;
  write := SocketStream.write;
  close := SocketStream.close;
  errorString := SocketStream.errorString
}.

(** A journal read as writes each followed by its wait: the data of the
    writes, or [None] when the journal is of another shape. *)
Fixpoint waited_writes (j : list SocketCall) : option (list string) :=
  match j with
  | [] => Some []
  | SocketWrite data _ :: WaitForBytesWritten _ :: j =>
      option_map (cons data) (waited_writes j)
  | _ => None
  end.

(** *** A socket in memory

    A socket to run the stream on: it connects when [ms_reachable], keeps
    what was sent, and its waits for the bytes time out. *)
Record MemSocket : Type := {
  ms_ssl : bool;
  ms_reachable : bool;
  ms_peer : option (string * Z * bool);
  ms_connected : bool;
  ms_sent : list string
}.

#[export] Instance MemSocket_socket : QAbstractSocket MemSocket := {
  sock_isSsl := ms_ssl;
  sock_connectToHostEncrypted hostname port k :=
    {| ms_ssl := ms_ssl k; ms_reachable := ms_reachable k;
       ms_peer := Some (hostname, port, true);
       ms_connected := ms_reachable k; ms_sent := ms_sent k |};
  sock_connectToHost hostname port k :=
    {| ms_ssl := ms_ssl k; ms_reachable := ms_reachable k;
       ms_peer := Some (hostname, port, false);
       ms_connected := ms_reachable k; ms_sent := ms_sent k |};
  sock_waitForConnected k := (ms_connected k, k);
  sock_isOpen := ms_connected;
  sock_write data k :=
    (Z.of_nat (String.length data),
     {| ms_ssl := ms_ssl k; ms_reachable := ms_reachable k;
        ms_peer := ms_peer k; ms_connected := ms_connected k;
        ms_sent := ms_sent k ++ [data] |});
  sock_waitForBytesWritten k := (false, k);
  sock_disconnectFromHost k :=
    {| ms_ssl := ms_ssl k; ms_reachable := ms_reachable k;
       ms_peer := ms_peer k; ms_connected := false; ms_sent := ms_sent k |};
  sock_errorString k :=
    if ms_reachable k then "Unknown error" else "Connection refused"
}.

(** How many flushes, and how many writes that did not fail, a journal
    holds. *)
Definition is_flush (c : FileCall) : bool :=
  match c with FileFlush _ => true | _ => false end.

Definition is_good_write (c : FileCall) : bool :=
  match c with FileWrite _ ret => negb (ret =? -1) | _ => false end.

Definition flushes (j : list FileCall) : Z :=
  Z.of_nat (List.length (filter is_flush j)).

Definition good_writes (j : list FileCall) : Z :=
  Z.of_nat (List.length (filter is_good_write j)).

(** *** A file in memory

    A device to run the streams on: [mf_script] tells for the coming
    [write] calls whether they fail; once the script is used up every
    write goes through. *)
Record MemFile : Type := {
  mf_name : string;
  mf_openable : bool;
  mf_opened : bool;
  mf_script : list bool;
  mf_content : string
}.

Definition mem_write (data : string) (m : MemFile) : Z * MemFile :=
  match mf_script m with
  | true :: script =>
      (-1, {| mf_name := mf_name m; mf_openable := mf_openable m;
              mf_opened := mf_opened m; mf_script := script;
              mf_content := mf_content m |})
  | _ =>
      (Z.of_nat (String.length data),
       {| mf_name := mf_name m; mf_openable := mf_openable m;
          mf_opened := mf_opened m; mf_script := tl (mf_script m);
          mf_content := mf_content m ++ data |})
  end.

#[export] Instance MemFile_device : QIODevice MemFile := {
  dev_new name :=
    {| mf_name := name; mf_openable := true; mf_opened := false;
       mf_script := []; mf_content := "" |};
  dev_open m :=
    (mf_openable m,
     {| mf_name := mf_name m; mf_openable := mf_openable m;
        mf_opened := mf_openable m; mf_script := mf_script m;
        mf_content := mf_content m |});
  dev_isOpen := mf_opened;
  dev_write := mem_write;
  dev_flush m := (true, m);
  dev_close m :=
    {| mf_name := mf_name m; mf_openable := mf_openable m;
       mf_opened := false; mf_script := mf_script m;
       mf_content := mf_content m |};
  dev_errorString m := if mf_openable m then "" else "No such file or directory";
  dev_setFileName name m :=
    {| mf_name := name; mf_openable := mf_openable m;
       mf_opened := mf_opened m; mf_script := mf_script m;
       mf_content := mf_content m |};
  dev_fileName := mf_name
}.


(** ** QLogger *)

(** [enum class LogLevel]: a value of the enumeration is its underlying
    [int]; a cast can produce values beside the four enumerators. *)
Module LogLevel.
Definition t : Type := Z.
Definition Info : t := 0.
Definition Debug : t := 1.
Definition Warning : t := 2.
Definition Fatal : t := 3.
Definition is_enumerator (level : t) : Prop :=
  level = Info \/ level = Debug \/ level = Warning \/ level = Fatal.
End LogLevel.

(** [QDateTime::currentDateTime().toString(format)] reads the clock of the
    machine: a call of [addMessage] receives it as the function from the
    pattern to the text of the current time. *)
Definition Clock : Type := string -> string.

(** What a member function of the logger does besides changing the
    fields, in program order. *)
Inductive Event : Type :=
| QDebug (text : string)
| WakeOne
| Wait
| Lock
| Unlock
| Append (line : string)
| PopFront (line : string)
| StoreSize (n : Z)
| StoreFinish (v : Z)
| StreamOpen (ok : bool)
| StreamWrite (line : string) (ret : Z)
| StreamClose.

Record QLogger (S : Type) : Type := {
  _stream : S;
  _messages : list string;
  _finish : Z;
  _messages_size : Z;
  _error_string : string;
  _format_string : string;
  _datetime_format : string
}.
Arguments _stream {S} _.
Arguments _messages {S} _.
Arguments _finish {S} _.
Arguments _messages_size {S} _.
Arguments _error_string {S} _.
Arguments _format_string {S} _.
Arguments _datetime_format {S} _.

(** How a call of [run] ends.  [Blocked]: the thread sits in
    [_empty.wait] and nobody is there to wake it.  [Undefined]: [front()]
    was asked of an empty list.  [OutOfFuel]: the bound on the number of
    passes through the loop was reached. *)
Inductive Outcome : Type := Done | Blocked | Undefined | OutOfFuel.

(** A member function: from the object to its result, the object
    afterwards and the events of the call. *)
Definition Op (S A : Type) : Type := QLogger S -> A * QLogger S * list Event.

Definition ret {S A : Type} (a : A) : Op S A := fun l => (a, l, []).

Definition bind {S A B : Type} (m : Op S A) (k : A -> Op S B) : Op S B :=
  fun l =>
    let '(a, l1, t1) := m l in
    let '(b, l2, t2) := k a l1 in
    (b, l2, (t1 ++ t2)%list).

Declare Scope op_scope.
Delimit Scope op_scope with op.
Notation "x <- m ;; k" := (bind m (fun x => k))
  (at level 61, m at next level, right associativity) : op_scope.
Notation "m ;; k" := (bind m (fun _ => k))
  (at level 61, right associativity) : op_scope.
Open Scope op_scope.

Definition result {S A : Type} (r : A * QLogger S * list Event) : A :=
  fst (fst r).
Definition object {S A : Type} (r : A * QLogger S * list Event) : QLogger S :=
  snd (fst r).
Definition events {S A : Type} (r : A * QLogger S * list Event) : list Event :=
  snd r.

Section Logger.
Context {S : Type} `{QLoggerStream S}.

Definition load {A : Type} (field : QLogger S -> A) : Op S A :=
  fun l => (field l, l, []).

Definition emit (e : Event) : Op S unit := fun l => (tt, l, [e]).

(** [qDebug() << text] *)
Definition qDebug (text : string) : Op S unit := emit (QDebug text).

(** [_empty.wakeOne()], [_mutex.lock()] and [_mutex.unlock()] *)
Definition wakeOne : Op S unit := emit WakeOne.
Definition lock : Op S unit := emit Lock.
Definition unlock : Op S unit := emit Unlock.

(** [_empty.wait(&_mutex)] *)
Definition wait : Op S unit := emit Wait.

(** [_messages.append(line)] *)
Definition append (line : string) : Op S unit :=
  fun l =>
    (tt,
     {| _stream := _stream l;
        _messages := _messages l ++ [line];
        _finish := _finish l;
        _messages_size := _messages_size l;
        _error_string := _error_string l;
        _format_string := _format_string l;
        _datetime_format := _datetime_format l |},
     [Append line]).

(** [_messages.front()] followed by [_messages.pop_front()] *)
Definition pop_front : Op S (option string) :=
  fun l =>
    match _messages l with
    | [] => (None, l, [])
    | message :: rest =>
        (Some message,
         {| _stream := _stream l;
            _messages := rest;
            _finish := _finish l;
            _messages_size := _messages_size l;
            _error_string := _error_string l;
            _format_string := _format_string l;
            _datetime_format := _datetime_format l |},
         [PopFront message])
    end.

(** [_messages_size.store(_messages.size())]; the size of a [QStringList]
    is an [int] and the list cannot outgrow it. *)
Definition store_size : Op S unit :=
  fun l =>
    let n := Z.of_nat (List.length (_messages l)) in
    (tt,
     {| _stream := _stream l;
        _messages := _messages l;
        _finish := _finish l;
        _messages_size := n;
        _error_string := _error_string l;
        _format_string := _format_string l;
        _datetime_format := _datetime_format l |},
     [StoreSize n]).

(** [_finish = v] *)
Definition store_finish (v : Z) : Op S unit :=
  fun l =>
    (tt,
     {| _stream := _stream l;
        _messages := _messages l;
        _finish := v;
        _messages_size := _messages_size l;
        _error_string := _error_string l;
        _format_string := _format_string l;
        _datetime_format := _datetime_format l |},
     [StoreFinish v]).

Definition set_stream (s : S) (l : QLogger S) : QLogger S :=
  {| _stream := s;
     _messages := _messages l;
     _finish := _finish l;
     _messages_size := _messages_size l;
     _error_string := _error_string l;
     _format_string := _format_string l;
     _datetime_format := _datetime_format l |}.

(** [_stream->open()], [_stream->write(line)] and [_stream->close()] *)
Definition stream_open : Op S bool :=
  fun l =>
    let '(ok, s) := open (_stream l) in
    (ok, set_stream s l, [StreamOpen ok]).

Definition stream_write (line : string) : Op S Z :=
  fun l =>
    let '(bytes, s) := write line (_stream l) in
    (bytes, set_stream s l, [StreamWrite line bytes]).

Definition stream_close : Op S unit :=
  fun l => (tt, set_stream (close (_stream l)) l, [StreamClose]).

(** [_error_string = e] *)
Definition store_error_string (e : string) : Op S unit :=
  fun l =>
    (tt,
     {| _stream := _stream l;
        _messages := _messages l;
        _finish := _finish l;
        _messages_size := _messages_size l;
        _error_string := e;
        _format_string := _format_string l;
        _datetime_format := _datetime_format l |},
     []).

(** [QLogger::QLogger(stream)] *)
Definition new (stream : S) : QLogger S :=
  {| _stream := stream;
     _messages := [];
     _finish := 0;
     _messages_size := 0;
     _error_string := "";
     _format_string := "[%1] %2 %3";
     _datetime_format := "dd.MM.yyyy hh:mm:ss" |}.

(** [QLogger::~QLogger] *)
Definition delete : Op S unit :=
  is_open <- load (fun l => isOpen (_stream l)) ;;
  if (is_open : bool) then stream_close else ret tt.

(** [QLogger::logLevelToString] *)
Definition logLevelToString (level : LogLevel.t) : string :=
  if level =? LogLevel.Info then "INFO"
  else if level =? LogLevel.Debug then "DEBUG"
  else if level =? LogLevel.Warning then "WARNING"
  else if level =? LogLevel.Fatal then "FATAL"
  else "".

(** The line [addMessage] builds:
    [_format_string.arg(datetime).arg(levelString).arg(message) + "\n"] *)
Definition newline : string := String (ascii_of_nat 10) EmptyString.

Definition format_line (format_string datetime levelString message : string)
  : string :=
  QString.arg (QString.arg (QString.arg format_string datetime) levelString)
    message ++ newline.

(** [QLogger::addMessage] *)
Definition addMessage (now : Clock) (message : string) (level : LogLevel.t)
  : Op S unit :=
  qDebug "QLogger::addMessage()" ;;
  wakeOne ;;
  lock ;;
  let levelString := logLevelToString level in
  datetime_format <- load _datetime_format ;;
  let datetime := now datetime_format in
  format_string <- load _format_string ;;
  append (format_line format_string datetime levelString message) ;;
  store_size ;;
  unlock ;;
  qDebug "QLogger::addMessage----->Wake one".

(** [QLogger::finishWriting] *)
Definition finishWriting : Op S unit :=
  wakeOne ;;
  lock ;;
  store_finish 1 ;;
  qDebug "QLogger::finishWriting()----->Wake one" ;;
  unlock.

(** The condition of the loop of [run]:
    [!_finish.load() || _messages_size.load() != 0] *)
Definition loop_cond : Op S bool :=
  finish <- load _finish ;;
  size <- load _messages_size ;;
  ret ((finish =? 0) || negb (size =? 0)).

(** One pass through the body of the loop; [None] when the pass comes
    back to the condition. *)
Definition loop_body : Op S (option Outcome) :=
  size <- load _messages_size ;;
  if negb (size =? 0) then
    qDebug "QLogger::run()----->Mutex lock" ;;
    lock ;;
    front <- pop_front ;;
    match front with
    | None => ret (Some Undefined)
    | Some message =>
        store_size ;;
        unlock ;;
        qDebug "QLogger::run()----->Mutex unlock" ;;
        qDebug "QLogger::run()----->Stream writing" ;;
        _ <- stream_write message ;;
        ret None
    end
  else
    finish <- load _finish ;;
    if finish =? 0 then
      qDebug "QLogger::run()----->Must wait" ;;
      lock ;;
      wait ;;
      ret (Some Blocked)
    else ret None.

(** The loop of [run], for at most [fuel] passes. *)
Fixpoint drain (fuel : nat) : Op S Outcome :=
  match fuel with
  | O => ret OutOfFuel
  | Datatypes.S fuel =>
      again <- loop_cond ;;
      if (again : bool) then
        r <- loop_body ;;
        match r with
        | None => drain fuel
        | Some o => ret o
        end
      else ret Done
  end.

(** [QLogger::run] *)
Definition run (fuel : nat) : Op S Outcome :=
  ok <- stream_open ;;
  if negb ok then
    e <- load (fun l => errorString (_stream l)) ;;
    store_error_string e ;;
    stream_close ;;
    ret Done
  else
    o <- drain fuel ;;
    match o with
    | Done =>
        stream_close ;;
        qDebug "QLogger::run()----->End run" ;;
        ret Done
    | _ => ret o
    end.

(** [QLogger::messages], [errorString], [formatString], [datetimeFormat] *)
Definition messages (l : QLogger S) : list string := _messages l.
Definition loggerErrorString (l : QLogger S) : string := _error_string l.
Definition formatString (l : QLogger S) : string := _format_string l.
Definition datetimeFormat (l : QLogger S) : string := _datetime_format l.

(** [QLogger::setFormatString] and [QLogger::setDatetimeFormat] *)
Definition setFormatString (formatString : string) : Op S unit :=
  lock ;;
  (fun l =>
     (tt,
      {| _stream := _stream l;
         _messages := _messages l;
         _finish := _finish l;
         _messages_size := _messages_size l;
         _error_string := _error_string l;
         _format_string := formatString;
         _datetime_format := _datetime_format l |},
      [])) ;;
  unlock.

Definition setDatetimeFormat (datetimeFormat : string) : Op S unit :=
  lock ;;
  (fun l =>
     (tt,
      {| _stream := _stream l;
         _messages := _messages l;
         _finish := _finish l;
         _messages_size := _messages_size l;
         _error_string := _error_string l;
         _format_string := _format_string l;
         _datetime_format := datetimeFormat |},
      [])) ;;
  unlock.

End Logger.

(** The calls the worker made on its stream, without what they returned. *)
Inductive StreamCall : Type :=
| CallOpen
| CallWrite (line : string)
| CallClose.

Fixpoint stream_calls (t : list Event) : list StreamCall :=
  match t with
  | [] => []
  | StreamOpen _ :: t => CallOpen :: stream_calls t
  | StreamWrite line _ :: t => CallWrite line :: stream_calls t
  | StreamClose :: t => CallClose :: stream_calls t
  | _ :: t => stream_calls t
  end.

(** The lines written to the stream, oldest first. *)
Fixpoint written (t : list Event) : list string :=
  match t with
  | [] => []
  | StreamWrite line _ :: t => line :: written t
  | _ :: t => written t
  end.

(** The events of a call but for the diagnostic printing. *)
Definition is_qdebug (e : Event) : bool :=
  match e with QDebug _ => true | _ => false end.

Definition steps_of (t : list Event) : list Event :=
  filter (fun e => negb (is_qdebug e)) t.

(** The place of the first event satisfying [p]. *)
Fixpoint position (p : Event -> bool) (t : list Event) : option nat :=
  match t with
  | [] => None
  | e :: t => if p e then Some O else option_map Datatypes.S (position p t)
  end.

Definition is_wake (e : Event) : bool :=
  match e with WakeOne => true | _ => false end.
Definition is_lock (e : Event) : bool :=
  match e with Lock => true | _ => false end.
Definition is_unlock (e : Event) : bool :=
  match e with Unlock => true | _ => false end.
Definition is_append (e : Event) : bool :=
  match e with Append _ => true | _ => false end.
Definition is_store_size (e : Event) : bool :=
  match e with StoreSize _ => true | _ => false end.

(** [before p q t]: the first [p] event of [t] comes before the first [q]
    event, and both are there. *)
Definition before (p q : Event -> bool) (t : list Event) : Prop :=
  match position p t, position q t with
  | Some i, Some j => (i < j)%nat
  | _, _ => False
  end.

(** A producer's request: the clock it meets, the message and the level. *)
Record Entry : Type := {
  entry_clock : Clock;
  entry_message : string;
  entry_level : LogLevel.t
}.

Section Producers.
Context {S : Type} `{QLoggerStream S}.

(** The calls of [addMessage] for the entries [es], one after the other. *)
Fixpoint addMessages (es : list Entry) : Op S unit :=
  match es with
  | [] => ret tt
  | e :: es =>
      addMessage (entry_clock e) (entry_message e) (entry_level e) ;;
      addMessages es
  end.

(** The line [addMessage] queues for [e] on the logger [l]. *)
Definition line_of (l : QLogger S) (e : Entry) : string :=
  format_line (_format_string l)
    (entry_clock e (_datetime_format l))
    (logLevelToString (entry_level e))
    (entry_message e).

(** What a client or the worker can do to a logger, call by call; the
    worker comes in by single passes through its loop. *)
Inductive Action : Type :=
| DoAddMessage (e : Entry)
| DoFinishWriting
| DoSetFormatString (f : string)
| DoSetDatetimeFormat (f : string)
| DoLoopPass
| DoRun (fuel : nat).

Definition perform (a : Action) (l : QLogger S) : QLogger S :=
  match a with
  | DoAddMessage e =>
      object (addMessage (entry_clock e) (entry_message e) (entry_level e) l)
  | DoFinishWriting => object (finishWriting l)
  | DoSetFormatString f => object (setFormatString f l)
  | DoSetDatetimeFormat f => object (setDatetimeFormat f l)
  | DoLoopPass =>
      if result (loop_cond l) then object (loop_body l) else l
  | DoRun fuel => object (run fuel l)
  end.

Definition perform_all (acts : list Action) (l : QLogger S) : QLogger S :=
  fold_left (fun l a => perform a l) acts l.

(** The logger after the pass of the loop that takes [message] off a queue
    whose rest is [rest], and the events of that pass when the stream
    answered [ret]. *)
Definition after_pass (message : string) (rest : list string) (l : QLogger S)
  : QLogger S :=
  {| _stream := snd (write message (_stream l));
     _messages := rest;
     _finish := _finish l;
     _messages_size := Z.of_nat (List.length rest);
     _error_string := _error_string l;
     _format_string := _format_string l;
     _datetime_format := _datetime_format l |}.

Definition pass_events (message : string) (rest : list string) (ret : Z)
  : list Event :=
  [QDebug "QLogger::run()----->Mutex lock"; Lock; PopFront message;
   StoreSize (Z.of_nat (List.length rest)); Unlock;
   QDebug "QLogger::run()----->Mutex unlock";
   QDebug "QLogger::run()----->Stream writing";
   StreamWrite message ret].

(** The stream after the lines [q] were written to it in turn. *)
Definition stream_after (q : list string) (s : S) : S :=
  fold_left (fun s line => snd (write line s)) q s.

(** The size counter mirrors the queue. *)
Definition size_mirrors_queue (l : QLogger S) : Prop :=
  _messages_size l = Z.of_nat (List.length (_messages l)).

End Producers.

(** A stream that refuses to open, for running the worker on. *)
Record FailingStream : Type := {
  fs_error : string;
  fs_closed : bool;
  fs_lines : list string
}.

#[export] Instance FailingStream_stream : QLoggerStream FailingStream := {
  open s := (false, s);
  isOpen _ := false;
  write line s :=
    (-1, {| fs_error := fs_error s; fs_closed := fs_closed s;
            fs_lines := fs_lines s ++ [line] |});
  close s :=
    {| fs_error := fs_error s; fs_closed := true; fs_lines := fs_lines s |};
  errorString := fs_error
}.

(** A stream whose writes go wrong: the first fails, the others are cut
    short. *)
Record FlakyStream : Type := { flaky_calls : nat }.

#[export] Instance FlakyStream_stream : QLoggerStream FlakyStream := {
  open s := (true, s);
  isOpen _ := true;
  write line s :=
    (match flaky_calls s with O => -1 | _ => 1 end,
     {| flaky_calls := Datatypes.S (flaky_calls s) |});
  close s := s;
  errorString _ := "write failed"
}.

(** ** The threads, step by step

    The worker and the clients of one logger as threads that take turns.
    A turn is one step of the source that touches what the threads share:
    a load or a store of an atomic, an operation on the mutex or on the
    wait condition, an operation on the queue or on the stream. *)
Module Interleaving.

Inductive Tid : Type :=
| Worker
| Client (i : nat).

(** The steps of the two entry points of a client, in program order. *)
Inductive Atomic : Type :=
| AWakeOne
| ALock
| AAppend (e : Entry)
| AStoreSize
| AStoreFinish (v : Z)
| AUnlock.

(** [QLogger::addMessage], lines 163 to 172 *)
Definition addMessage_steps (e : Entry) : list Atomic :=
  [AWakeOne; ALock; AAppend e; AStoreSize; AUnlock].

(** [QLogger::finishWriting], lines 213 to 217 *)
Definition finishWriting_steps : list Atomic :=
  [AWakeOne; ALock; AStoreFinish 1; AUnlock].

(** Where the worker stands in [QLogger::run]. *)
Inductive WorkerPc : Type :=
| WOpen                        (* 178 *)
| WCondFinish                  (* 184, [!_finish.load()] *)
| WCondSize                    (* 184, [_messages_size.load() != 0] *)
| WIfSize                      (* 185 *)
| WLockPop                     (* 187 *)
| WPop                         (* 188, 189 *)
| WStoreSize (message : string)   (* 190 *)
| WUnlockPop (message : string)   (* 192 *)
| WWrite (message : string)       (* 197 *)
| WElseFinish                  (* 199 *)
| WLockWait                    (* 201 *)
| WWait                        (* 202, gives the mutex back and sleeps *)
| WAsleep                      (* 202, asleep *)
| WWoken                       (* 202, woken, takes the mutex again *)
| WUnlockWait                  (* 203 *)
| WClose                       (* 207 *)
| WDone
| WUndefined.

Record State (S : Type) : Type := {
  logger : QLogger S;
  mutex : option Tid;
  worker : WorkerPc;
  clients : list (list Atomic)
}.
Arguments logger {S} _.
Arguments mutex {S} _.
Arguments worker {S} _.
Arguments clients {S} _.

Section Steps.
Context {S : Type} `{QLoggerStream S}.

Definition with_logger (l : QLogger S) (st : State S) : State S :=
  {| logger := l; mutex := mutex st; worker := worker st;
     clients := clients st |}.

Definition with_mutex (m : option Tid) (st : State S) : State S :=
  {| logger := logger st; mutex := m; worker := worker st;
     clients := clients st |}.

Definition with_worker (pc : WorkerPc) (st : State S) : State S :=
  {| logger := logger st; mutex := mutex st; worker := pc;
     clients := clients st |}.

Definition with_clients (cs : list (list Atomic)) (st : State S) : State S :=
  {| logger := logger st; mutex := mutex st; worker := worker st;
     clients := cs |}.

Fixpoint update_nth {A : Type} (i : nat) (x : A) (xs : list A) : list A :=
  match xs, i with
  | [], _ => []
  | _ :: xs, O => x :: xs
  | y :: xs, Datatypes.S i => y :: update_nth i x xs
  end.

(** [_mutex.lock()] by [tid]: possible once the mutex is free. *)
Definition acquire (tid : Tid) (st : State S) : option (State S) :=
  match mutex st with
  | None => Some (with_mutex (Some tid) st)
  | Some _ => None
  end.

(** [_empty.wakeOne()]: the worker is the one thread that ever waits. *)
Definition wake (st : State S) : State S :=
  match worker st with
  | WAsleep => with_worker WWoken st
  | _ => st
  end.

Definition step_worker (st : State S) : option (State S) :=
  let l := logger st in
  match worker st with
  | WOpen =>
      let '(ok, l1, _) := stream_open l in
      if negb ok then
        let l2 :=
          object ((e <- load (fun l => errorString (_stream l)) ;;
                   store_error_string e ;;
                   stream_close) l1) in
        Some (with_worker WDone (with_logger l2 st))
      else Some (with_worker WCondFinish (with_logger l1 st))
  | WCondFinish =>
      if _finish l =? 0 then Some (with_worker WIfSize st)
      else Some (with_worker WCondSize st)
  | WCondSize =>
      if negb (_messages_size l =? 0) then Some (with_worker WIfSize st)
      else Some (with_worker WClose st)
  | WIfSize =>
      if negb (_messages_size l =? 0) then Some (with_worker WLockPop st)
      else Some (with_worker WElseFinish st)
  | WLockPop => option_map (with_worker WPop) (acquire Worker st)
  | WPop =>
      match pop_front l with
      | (Some message, l1, _) =>
          Some (with_worker (WStoreSize message) (with_logger l1 st))
      | (None, _, _) => Some (with_worker WUndefined st)
      end
  | WStoreSize message =>
      Some (with_worker (WUnlockPop message)
              (with_logger (object (store_size l)) st))
  | WUnlockPop message =>
      Some (with_worker (WWrite message) (with_mutex None st))
  | WWrite message =>
      Some (with_worker WCondFinish
              (with_logger (object (stream_write message l)) st))
  | WElseFinish =>
      if _finish l =? 0 then Some (with_worker WLockWait st)
      else Some (with_worker WCondFinish st)
  | WLockWait => option_map (with_worker WWait) (acquire Worker st)
  | WWait => Some (with_worker WAsleep (with_mutex None st))
  | WAsleep => None
  | WWoken => option_map (with_worker WUnlockWait) (acquire Worker st)
  | WUnlockWait => Some (with_worker WCondFinish (with_mutex None st))
  | WClose =>
      Some (with_worker WDone (with_logger (object (stream_close l)) st))
  | WDone => None
  | WUndefined => None
  end.

Definition step_client (i : nat) (st : State S) : option (State S) :=
  match nth_error (clients st) i with
  | Some (a :: rest) =>
      let st1 := with_clients (update_nth i rest (clients st)) st in
      let l := logger st in
      match a with
      | AWakeOne => Some (wake st1)
      | ALock => acquire (Client i) st1
      | AAppend e =>
          Some (with_logger (object (append (line_of l e) l)) st1)
      | AStoreSize => Some (with_logger (object (store_size l)) st1)
      | AStoreFinish v => Some (with_logger (object (store_finish v l)) st1)
      | AUnlock => Some (with_mutex None st1)
      end
  | _ => None
  end.

Definition step (tid : Tid) (st : State S) : option (State S) :=
  match tid with
  | Worker => step_worker st
  | Client i => step_client i st
  end.

(** The threads take their turns as the schedule says; [None] when a
    thread is given a turn it cannot take. *)
Fixpoint exec (schedule : list Tid) (st : State S) : option (State S) :=
  match schedule with
  | [] => Some st
  | tid :: schedule =>
      match step tid st with
      | Some st1 => exec schedule st1
      | None => None
      end
  end.

(** A logger just built on [stream], its thread started, and the clients
    with what they are about to do. *)
Definition init (stream : S) (programs : list (list Atomic)) : State S :=
  {| logger := new stream; mutex := None; worker := WOpen;
     clients := programs |}.

(** No thread can take a turn. *)
Definition stuck (st : State S) : Prop :=
  forall tid, step tid st = None.

End Steps.

(** What a turn shows of the lines: the line a client appends to the
    queue, the line the worker writes to the stream. *)
Inductive Label : Type :=
| Appended (line : string)
| Delivered (line : string).

Section Traces.
Context {S : Type} `{QLoggerStream S}.

Definition label (tid : Tid) (st : State S) : list Label :=
  match tid with
  | Worker =>
      match worker st with
      | WWrite message => [Delivered message]
      | _ => []
      end
  | Client i =>
      match nth_error (clients st) i with
      | Some (AAppend e :: _) => [Appended (line_of (logger st) e)]
      | _ => []
      end
  end.

(** The labels of the turns of a schedule, up to the first turn that
    cannot be taken. *)
Fixpoint trace (schedule : list Tid) (st : State S) : list Label :=
  match schedule with
  | [] => []
  | tid :: schedule =>
      match step tid st with
      | Some st1 => (label tid st ++ trace schedule st1)%list
      | None => []
      end
  end.

End Traces.

Fixpoint appended (tr : list Label) : list string :=
  match tr with
  | [] => []
  | Appended line :: tr => line :: appended tr
  | Delivered _ :: tr => appended tr
  end.

Fixpoint delivered (tr : list Label) : list string :=
  match tr with
  | [] => []
  | Delivered line :: tr => line :: delivered tr
  | Appended _ :: tr => delivered tr
  end.

(** The line the worker took off the queue and has not written yet. *)
Definition in_hand (pc : WorkerPc) : list string :=
  match pc with
  | WStoreSize message | WUnlockPop message | WWrite message => [message]
  | _ => []
  end.

(** The steps of a client that calls [addMessage] for each of [es] and
    then [finishWriting]. *)
Definition add_then_finish (es : list Entry) : list Atomic :=
  (concat (map addMessage_steps es) ++ finishWriting_steps)%list.

(** The entries a client has still to append. *)
Fixpoint pending (prog : list Atomic) : list Entry :=
  match prog with
  | [] => []
  | AAppend e :: prog => e :: pending prog
  | _ :: prog => pending prog
  end.

(** A thread is between a change of the queue and the store of the
    size: the counter may be behind. *)
Definition size_is_due {S : Type} (st : State S) : Prop :=
  (exists message, worker st = WStoreSize message) \/
  (exists i rest, nth_error (clients st) i = Some (AStoreSize :: rest)).

(** Whether the steps [prog] pair the mutex as the two entry points do,
    when the thread holds the mutex ([held]) or not: queue and flag are
    touched between a lock and its unlock only. *)
Fixpoint disciplined (held : bool) (prog : list Atomic) : Prop :=
  match prog with
  | [] => held = false
  | AWakeOne :: prog => held = false /\ disciplined false prog
  | ALock :: prog => held = false /\ disciplined true prog
  | AAppend _ :: prog | AStoreSize :: prog | AStoreFinish _ :: prog =>
      held = true /\ disciplined true prog
  | AUnlock :: prog => held = true /\ disciplined false prog
  end.

Definition holds {S : Type} (tid : Tid) (st : State S) : bool :=
  match mutex st, tid with
  | Some Worker, Worker => true
  | Some (Client i), Client j => Nat.eqb i j
  | _, _ => false
  end.

(** The places of [run] between a lock and its unlock, or its [wait];
    [WUndefined] is the end of a thread that was there. *)
Definition worker_inside (pc : WorkerPc) : bool :=
  match pc with
  | WPop | WStoreSize _ | WUnlockPop _ | WWait | WUnlockWait
  | WUndefined => true
  | _ => false
  end.

(** A client that is past its store of the finish flag: it appends no
    more and stores no size, and any further store of the flag sets it
    again. *)
Fixpoint quiet (prog : list Atomic) : Prop :=
  match prog with
  | [] => True
  | AAppend _ :: _ | AStoreSize :: _ => False
  | AStoreFinish v :: prog => v <> 0 /\ quiet prog
  | _ :: prog => quiet prog
  end.

(** A client that has not stored the finish flag yet: each append is
    followed by its store of the size, and the store of the flag sets it
    and is the end of the appends. *)
Fixpoint finish_last (prog : list Atomic) : Prop :=
  match prog with
  | [] => True
  | AAppend _ :: prog =>
      match prog with AStoreSize :: _ => True | _ => False end /\
      finish_last prog
  | AStoreFinish v :: prog => v <> 0 /\ quiet prog
  | _ :: prog => finish_last prog
  end.

Definition head_is_store (prog : list Atomic) : Prop :=
  match prog with AStoreSize :: _ => True | _ => False end.

Definition worker_stores (pc : WorkerPc) : Prop :=
  match pc with WStoreSize _ => True | _ => False end.

(** The places of [run] after the finish flag was seen set. *)
Definition past_finish (pc : WorkerPc) : Prop :=
  match pc with WCondSize | WClose | WDone => True | _ => False end.

(** The places of [run] after the loop. *)
Definition leaving (pc : WorkerPc) : Prop :=
  match pc with WClose | WDone => True | _ => False end.

(** What holds of the worker and one client, with [prog] left to do, on a
    logger built on [s]. *)
Definition drain_inv {S : Type} `{QLoggerStream S}
  (s : S) (prog : list Atomic) (st : State S) : Prop :=
  clients st = [prog] /\
  _format_string (logger st) = _format_string (new s) /\
  _datetime_format (logger st) = _datetime_format (new s) /\
  (worker st = WOpen -> _stream (logger st) = s) /\
  (_finish (logger st) = 0 -> finish_last prog) /\
  (_finish (logger st) <> 0 -> quiet prog) /\
  (~ worker_stores (worker st) -> ~ head_is_store prog ->
   size_mirrors_queue (logger st)) /\
  (past_finish (worker st) -> _finish (logger st) <> 0) /\
  (leaving (worker st) -> _messages (logger st) = []).

(** The calls a client makes, and their steps one after the other. *)
Inductive ClientCall : Type :=
| CallAddMessage (e : Entry)
| CallFinishWriting.

Definition call_steps (c : ClientCall) : list Atomic :=
  match c with
  | CallAddMessage e => addMessage_steps e
  | CallFinishWriting => finishWriting_steps
  end.

Definition client_steps (calls : list ClientCall) : list Atomic :=
  concat (map call_steps calls).

(** The steps that read or change the queue, its counter or the finish
    flag, and the unlock that ends them. *)
Definition under_lock (a : Atomic) : bool :=
  match a with
  | AAppend _ | AStoreSize | AStoreFinish _ | AUnlock => true
  | AWakeOne | ALock => false
  end.

(** The mutex is with the threads that are between a lock and its unlock,
    and with no other. *)
Definition lock_inv {S : Type} (st : State S) : Prop :=
  (forall i prog,
     nth_error (clients st) i = Some prog ->
     disciplined (holds (Client i) st) prog) /\
  holds Worker st = worker_inside (worker st).

(** Each append is followed at once by the store of the size. *)
Fixpoint appends_stored (prog : list Atomic) : Prop :=
  match prog with
  | [] => True
  | AAppend _ :: prog => head_is_store prog /\ appends_stored prog
  | _ :: prog => appends_stored prog
  end.

(** The counter mirrors the queue unless a thread is about to store it. *)
Definition mirror_inv {S : Type} (st : State S) : Prop :=
  (forall i prog, nth_error (clients st) i = Some prog -> appends_stored prog) /\
  (~ size_is_due st -> size_mirrors_queue (logger st)).

(** The member function behind a call. *)
Definition call_op {S : Type} `{QLoggerStream S} (c : ClientCall) : Op S unit :=
  match c with
  | CallAddMessage e =>
      addMessage (entry_clock e) (entry_message e) (entry_level e)
  | CallFinishWriting => finishWriting
  end.

(** The counter is never ahead of the queue, but for the worker between
    its pop and its store; and the worker on its way to the pop has a
    queue that is not empty. *)
Definition behind_inv {S : Type} (st : State S) : Prop :=
  0 <= _messages_size (logger st) /\
  (~ worker_stores (worker st) ->
   _messages_size (logger st)
   <= Z.of_nat (List.length (_messages (logger st)))) /\
  (worker st = WLockPop \/ worker st = WPop -> _messages (logger st) <> []) /\
  worker st <> WUndefined.

(** The state in which the worker stands at [pc] on the logger [l], the
    mutex free. *)
Definition worker_at {S : Type} (l : QLogger S) (cs : list (list Atomic))
  (pc : WorkerPc) : State S :=
  {| logger := l; mutex := None; worker := pc; clients := cs |}.

(** A client that holds the mutex is one of the clients. *)
Definition holder_inv {S : Type} (st : State S) : Prop :=
  forall i, mutex st = Some (Client i) ->
            exists prog, nth_error (clients st) i = Some prog.

(** The worker's turns from the start of [run] to its sleep on an empty
    queue, and from a wake-up back to sleep when it finds nothing. *)
Definition to_sleep : list Tid := repeat Worker 6.
Definition back_to_sleep : list Tid := repeat Worker 7.

(** One client asks to finish, the worker sees the flag and the empty
    queue and heads for the [close]; only then another client queues a
    line. *)
Definition late_schedule : list Tid :=
  (repeat (Client 0) 4 ++ repeat Worker 3 ++ repeat (Client 1) 5
     ++ [Worker])%list.


(** The stream of a worker that stands at [pc]: [run] closes it on its
    way out (line 207). *)
Definition closes {S : Type} `{QLoggerStream S} (pc : WorkerPc) (s : S) : S :=
  match pc with
  | WDone => close s
  | _ => s
  end.

(** The worker finds the queue empty and the finish flag not set (lines
    185 and 199); before it locks and waits (201, 202) the client queues
    a line and asks to finish; then the worker goes to sleep. *)
Definition race_schedule : list Tid :=
  (repeat Worker 4 ++ repeat (Client 0) 9 ++ repeat Worker 2)%list.

(** The worker sleeps on the empty queue; the [wakeOne] of a
    [finishWriting] gets it up and it is back to sleep before the flag is
    stored. *)
Definition lost_finish_schedule : list Tid :=
  (to_sleep ++ [Client 0] ++ back_to_sleep ++ repeat (Client 0) 3)%list.

(** The same, then another [finishWriting] and the worker's turns from
    its wake-up to the end of [run]. *)
Definition second_finish_schedule : list Tid :=
  (lost_finish_schedule ++ repeat (Client 0) 4 ++ repeat Worker 5)%list.

(** A run of the two threads for two [addMessage] and [finishWriting]:
    the worker goes to sleep, the client queues its two lines, the worker
    writes them, the client asks to finish, the worker leaves. *)
Definition two_line_schedule : list Tid :=
  (repeat Worker 6 ++ repeat (Client 0) 10 ++ repeat Worker 16
     ++ repeat (Client 0) 4 ++ repeat Worker 3)%list.

End Interleaving.

(** The flush counter stays below the flush rate, and the rate is an
    [int]. *)
Definition count_in_range {F : Type} (fs : QLoggerFileStream F) : Prop :=
  in_int (_flush_rate fs) /\
  0 <= _flush_count fs /\
  (0 < _flush_rate fs -> _flush_count fs < _flush_rate fs).

(** The member functions of a file stream as calls, to speak of any
    sequence of them. *)
Inductive FileStreamCall : Type :=
| FsOpen
| FsWrite (s : string)
| FsFlush
| FsClose
| FsSetFilename (filename : string)
| FsSetFlushRate (rate : Z).

Definition fs_call {F : Type} `{QIODevice F}
  (c : FileStreamCall) (fs : QLoggerFileStream F) : QLoggerFileStream F :=
  match c with
  | FsOpen => snd (FileStream.open fs)
  | FsWrite s => snd (FileStream.write s fs)
  | FsFlush => snd (FileStream.flush fs)
  | FsClose => FileStream.close fs
  | FsSetFilename filename => FileStream.setFilename filename fs
  | FsSetFlushRate rate => FileStream.setFlushRate rate fs
  end.

Definition fs_calls {F : Type} `{QIODevice F}
  (cs : list FileStreamCall) (fs : QLoggerFileStream F) : QLoggerFileStream F :=
  fold_left (fun fs c => fs_call c fs) cs fs.

(** The rate handed to [setFlushRate] is an [int]. *)
Definition int_rate (c : FileStreamCall) : Prop :=
  match c with
  | FsSetFlushRate rate => in_int rate
  | _ => True
  end.

(** A call that leaves the counting of the writes alone. *)
Definition keeps_count (c : FileStreamCall) : bool :=
  match c with
  | FsOpen | FsFlush | FsClose | FsSetFilename _ => true
  | FsWrite _ | FsSetFlushRate _ => false
  end.

(** The data of the writes in a journal, oldest first. *)
Fixpoint file_writes (j : list FileCall) : list string :=
  match j with
  | [] => []
  | FileWrite data _ :: j => data :: file_writes j
  | _ :: j => file_writes j
  end.

(** ** Inputs the statements below are tried on *)

(** A file stream on a file in memory whose second write fails. *)
Definition sample_file_stream : QLoggerFileStream MemFile :=
  {| _file :=
       {| device :=
            {| mf_name := "test.log"; mf_openable := true; mf_opened := true;
               mf_script := [false; true]; mf_content := "" |};
          journal := [FileOpen true] |};
     _flush_rate := 4;
     _flush_count := 3 |}.

Definition sample_lines : list string :=
  ["a"; "b"; "c"; "d"; "e"; "f"; "g"; "h"; "i"; "j"].

(** A clock for a logger whose datetime pattern quotes the text [%3]. *)
Definition marker_clock : Clock :=
  fun pattern =>
    if String.eqb pattern "'%3' hh:mm" then "%3 10:00"
    else "02.11.2026 10:00:00".

Definition fixed_clock (text : string) : Clock := fun _ => text.

Definition hello : Entry :=
  {| entry_clock := fixed_clock "02.11.2026 10:00:00";
     entry_message := "hello";
     entry_level := LogLevel.Info |}.

Definition bye : Entry :=
  {| entry_clock := fixed_clock "02.11.2026 10:00:01";
     entry_message := "bye";
     entry_level := LogLevel.Fatal |}.

(** A logger on a stream that does not open, two lines queued. *)
Definition failing_logger : QLogger FailingStream :=
  object ((addMessages [hello; bye] ;; finishWriting)
            (new {| fs_error := "Permission denied"; fs_closed := false;
                    fs_lines := [] |})).

(** A logger on a stream whose writes go wrong, two lines queued. *)
Definition flaky_logger : QLogger FlakyStream :=
  object ((addMessages [hello; bye] ;; finishWriting)
            (new {| flaky_calls := 0 |})).

(** A logger on the printing stream with two lines queued and no request
    to finish. *)
Definition waiting_logger : QLogger QLoggerDebugStream :=
  object (addMessages [hello; bye] (new {| debug_output := [] |})).

(** Calls on a file stream, with two changes of the rate. *)
Definition sample_calls : list FileStreamCall :=
  [FsOpen; FsSetFlushRate 2; FsWrite "a"; FsWrite "b"; FsFlush;
   FsSetFlushRate (-1); FsWrite "c"; FsSetFilename "other.log"; FsClose].

(** An SSL socket that connects. *)
Definition sample_socket : MemSocket :=
  {| ms_ssl := true; ms_reachable := true; ms_peer := None;
     ms_connected := false; ms_sent := [] |}.

(** A logger on the printing stream with two lines queued and the request
    to finish. *)
Definition finished_logger : QLogger QLoggerDebugStream :=
  object ((addMessages [hello; bye] ;; finishWriting)
            (new {| debug_output := [] |})).

(** * Properties *)

(** ** Strings *)

Lemma append_nil_r (s : string) : s ++ "" = s.
Proof. induction s as [|c s IH]; cbn; [reflexivity | now rewrite IH]. Qed.

Lemma append_assoc (s t u : string) : (s ++ t) ++ u = s ++ (t ++ u).
Proof. induction s as [|c s IH]; cbn; [reflexivity | now rewrite IH]. Qed.

Lemma marker_not_percent c r :
  Ascii.eqb c "%" = false -> QString.marker (String c r) = None.
Proof.
  intros Hc. unfold QString.marker.
  destruct c as [b0 b1 b2 b3 b4 b5 b6 b7].
  destruct b0, b1, b2, b3, b4, b5, b6, b7; try reflexivity; discriminate Hc.
Qed.

Lemma escapes_app_no_percent t s :
  QString.no_percent t = true ->
  QString.escapes 0 (t ++ s) = QString.escapes 0 s.
Proof.
  induction t as [|c t IH]; intros Ht; [reflexivity|].
  cbn [QString.no_percent] in Ht. apply andb_true_iff in Ht as [Hc Ht].
  apply negb_true_iff in Hc.
  change (String c t ++ s) with (String c (t ++ s)).
  cbn [QString.escapes]. rewrite (marker_not_percent _ _ Hc). auto.
Qed.

Lemma replace_app_no_percent n a t s :
  QString.no_percent t = true ->
  QString.replaceArgEscapes n a 0 (t ++ s)
  = t ++ QString.replaceArgEscapes n a 0 s.
Proof.
  induction t as [|c t IH]; intros Ht; [reflexivity|].
  cbn [QString.no_percent] in Ht. apply andb_true_iff in Ht as [Hc Ht].
  apply negb_true_iff in Hc.
  change (String c t ++ s) with (String c (t ++ s)).
  cbn [QString.replaceArgEscapes]. rewrite (marker_not_percent _ _ Hc).
  rewrite IH by assumption. reflexivity.
Qed.

(** A prefix free of ['%'] is left alone by [arg]. *)
Lemma arg_app_no_percent t s a :
  QString.no_percent t = true ->
  QString.arg (t ++ s) a = t ++ QString.arg s a.
Proof.
  intros Ht. unfold QString.arg, QString.min_escape.
  rewrite escapes_app_no_percent by assumption.
  destruct (QString.escapes 0 s); [reflexivity|].
  apply replace_app_no_percent; assumption.
Qed.

(** The default template, filled with a timestamp and a level text that
    hold no ['%']; the message may be any text. *)
Lemma format_line_default T L M :
  QString.no_percent T = true -> QString.no_percent L = true ->
  format_line "[%1] %2 %3" T L M
  = "[" ++ T ++ "] " ++ L ++ " " ++ M ++ newline.
Proof.
  intros HT HL. unfold format_line.
  change (QString.arg "[%1] %2 %3" T) with ("[" ++ (T ++ "] %2 %3")).
  rewrite (arg_app_no_percent "[" _ L) by reflexivity.
  rewrite (arg_app_no_percent T _ L) by assumption.
  change (QString.arg "] %2 %3" L) with ("] " ++ (L ++ " %3")).
  rewrite (arg_app_no_percent "[" _ M) by reflexivity.
  rewrite (arg_app_no_percent T _ M) by assumption.
  rewrite (arg_app_no_percent "] " _ M) by reflexivity.
  rewrite (arg_app_no_percent L _ M) by assumption.
  change (QString.arg " %3" M) with (" " ++ (M ++ "")).
  rewrite append_nil_r. rewrite !append_assoc. reflexivity.
Qed.

Example arg_default_template :
  QString.arg (QString.arg (QString.arg "[%1] %2 %3" "02.11.2026 10:00:00")
                 "INFO") "hello"
  = "[02.11.2026 10:00:00] INFO hello".
Proof. reflexivity. Qed.

Example arg_lowest_first : QString.arg "%2 %1 %2" "a" = "%2 a %2".
Proof. reflexivity. Qed.

Example arg_two_digits : QString.arg "%12 %L3" "a" = "%12 a".
Proof. reflexivity. Qed.

Example arg_no_marker : QString.arg "100% sure" "a" = "100% sure".
Proof. reflexivity. Qed.

(** ** The producer side *)

Section ProducerFacts.
Context {S : Type} `{QLoggerStream S}.

Lemma logLevelToString_enumerators :
  logLevelToString LogLevel.Info = "INFO" /\
  logLevelToString LogLevel.Debug = "DEBUG" /\
  logLevelToString LogLevel.Warning = "WARNING" /\
  logLevelToString LogLevel.Fatal = "FATAL".
Proof. repeat split; reflexivity. Qed.

Lemma logLevelToString_no_percent level :
  QString.no_percent (logLevelToString level) = true.
Proof.
  unfold logLevelToString.
  repeat match goal with |- context [if ?b then _ else _] => destruct b end;
    reflexivity.
Qed.

(** The fields after [addMessage]: one line more at the tail of the queue,
    the size counter set to the new length, the rest as before. *)
Lemma addMessage_object now message level (l : QLogger S) :
  object (addMessage now message level l)
  = let line := format_line (_format_string l) (now (_datetime_format l))
                  (logLevelToString level) message in
    {| _stream := _stream l;
       _messages := _messages l ++ [line];
       _finish := _finish l;
       _messages_size := Z.of_nat (List.length (_messages l ++ [line])%list);
       _error_string := _error_string l;
       _format_string := _format_string l;
       _datetime_format := _datetime_format l |}.
Proof. reflexivity. Qed.

Lemma addMessage_events now message level (l : QLogger S) :
  events (addMessage now message level l)
  = let line := format_line (_format_string l) (now (_datetime_format l))
                  (logLevelToString level) message in
    [QDebug "QLogger::addMessage()"; WakeOne; Lock; Append line;
     StoreSize (Z.of_nat (List.length (_messages l ++ [line])%list)); Unlock;
     QDebug "QLogger::addMessage----->Wake one"].
Proof. reflexivity. Qed.

(** With the default template, a timestamp without ['%'] and one of the
    four levels, the queued line is ["[T] L M"] and a newline. *)
Lemma addMessage_default_line now message level (l : QLogger S) :
  _format_string l = "[%1] %2 %3" ->
  QString.no_percent (now (_datetime_format l)) = true ->
  _messages (object (addMessage now message level l))
  = (_messages l
      ++ [("[" ++ now (_datetime_format l) ++ "] " ++ logLevelToString level
             ++ " " ++ message ++ newline)%string])%list.
Proof.
  intros Hf HT. rewrite addMessage_object. cbn [_messages].
  rewrite Hf, format_line_default by auto using logLevelToString_no_percent.
  reflexivity.
Qed.

(** C5, at the input where the code leaves the claim: the logger has the
    default template [[%1] %2 %3] and, after
    [setDatetimeFormat("'%3' hh:mm")], timestamps of the form [%3 10:00].
    [addMessage("hello", Info)] then queues [[hello 10:00] INFO hello]: the
    third [arg] finds the marker the timestamp brought in and puts the
    message into the timestamp's slot too.  The claim's line would be
    [[%3 10:00] INFO hello]. *)
Theorem addMessage_marker_in_timestamp (s : S) :
  let l := object (setDatetimeFormat "'%3' hh:mm" (new s)) in
  let T := marker_clock (_datetime_format l) in
  _format_string l = "[%1] %2 %3" /\
  T = "%3 10:00" /\
  logLevelToString LogLevel.Info = "INFO" /\
  _messages (object (addMessage marker_clock "hello" LogLevel.Info l))
  = ["[hello 10:00] INFO hello" ++ newline] /\
  _messages (object (addMessage marker_clock "hello" LogLevel.Info l))
  <> ["[" ++ T ++ "] " ++ "INFO" ++ " " ++ "hello" ++ newline].
Proof.
  cbv zeta.
  repeat split; try reflexivity.
  vm_compute. discriminate.
Qed.

(** C9: for a level that is none of the four enumerators
    [logLevelToString] returns the empty text; [addMessage] still queues
    its one line, built with the empty text as level, which under the
    default template and a timestamp [T] without ['%'] is ["[T]  M"] and a
    newline. *)
Theorem logLevelToString_out_of_range (level : LogLevel.t) :
  ~ LogLevel.is_enumerator level ->
  logLevelToString level = "" /\
  forall (now : Clock) (message : string) (l : QLogger S),
    let T := now (_datetime_format l) in
    let l' := object (addMessage now message level l) in
    _messages l'
    = (_messages l ++ [format_line (_format_string l) T "" message])%list /\
    (_format_string l = "[%1] %2 %3" -> QString.no_percent T = true ->
     _messages l'
     = (_messages l ++ [("[" ++ T ++ "]  " ++ message ++ newline)%string])%list).
Proof.
  intros Hout.
  assert (Hempty : logLevelToString level = "").
  { unfold logLevelToString, LogLevel.is_enumerator in *.
    unfold LogLevel.Info, LogLevel.Debug, LogLevel.Warning, LogLevel.Fatal in *.
    destruct (Z.eqb_spec level 0); [tauto|].
    destruct (Z.eqb_spec level 1); [tauto|].
    destruct (Z.eqb_spec level 2); [tauto|].
    destruct (Z.eqb_spec level 3); [tauto|].
    reflexivity. }
  split; [exact Hempty|].
  intros now message l T l'. subst T l'.
  rewrite addMessage_object. cbn [_messages]. rewrite Hempty.
  split; [reflexivity|].
  intros Hf HT. rewrite Hf, format_line_default by auto. reflexivity.
Qed.

End ProducerFacts.

Open Scope list_scope.

(** ** The file stream *)

Section FileStreamFacts.
Context {F : Type} `{QIODevice F}.

Import FileStream.

Lemma wrap_int_small z : in_int z -> wrap_int z = z.
Proof.
  unfold in_int, INT_MIN, INT_MAX, wrap_int. intros Hz.
  rewrite Z.mod_small; lia.
Qed.

Lemma flushes_app j k : flushes (j ++ k) = flushes j + flushes k.
Proof. unfold flushes. rewrite filter_app, length_app. lia. Qed.

Lemma good_writes_app j k :
  good_writes (j ++ k) = good_writes j + good_writes k.
Proof. unfold good_writes. rewrite filter_app, length_app. lia. Qed.

(** What one call of [write] does, whatever the device answers. *)
Lemma write_step (s : string) (fs : QLoggerFileStream F) :
  count_in_range fs ->
  let ret := fst (dev_write (QString.toUtf8 s) (device (_file fs))) in
  let fs' := snd (write s fs) in
  let counted := negb (ret =? -1) && (_flush_rate fs >? 0) in
  let count := if counted then (_flush_count fs + 1) mod _flush_rate fs
               else _flush_count fs in
  let flushed := counted && (count =? 0) in
  fst (write s fs) = ret /\
  _flush_rate fs' = _flush_rate fs /\
  _flush_count fs' = count /\
  (exists ok,
     journal (_file fs')
     = journal (_file fs) ++ FileWrite (QString.toUtf8 s) ret
         :: (if flushed then [FileFlush ok] else [])) /\
  count_in_range fs'.
Proof.
  intros (Hrate & Hc0 & Hc1). cbv zeta.
  unfold write, file_write.
  destruct (dev_write (QString.toUtf8 s) (device (_file fs))) as [ret d] eqn:Hw.
  cbn [fst snd].
  destruct (negb (ret =? -1) && (_flush_rate fs >? 0)) eqn:Hcounted; cbn [andb].
  - apply andb_true_iff in Hcounted as [_ Hpos].
    apply Z.gtb_lt in Hpos.
    assert (Hcount : int_rem (int_add (_flush_count fs) 1) (_flush_rate fs)
                     = (_flush_count fs + 1) mod _flush_rate fs).
    { unfold int_rem, int_add.
      rewrite wrap_int_small by (unfold in_int, INT_MIN, INT_MAX in *; lia).
      apply Z.rem_mod_nonneg; lia. }
    rewrite Hcount.
    assert (Hrange : 0 <= (_flush_count fs + 1) mod _flush_rate fs
                     < _flush_rate fs) by (apply Z.mod_pos_bound; lia).
    destruct ((_flush_count fs + 1) mod _flush_rate fs =? 0) eqn:Hzero.
    + unfold file_flush. cbn [device journal].
      destruct (dev_flush d) as [ok d'] eqn:Hf.
      cbn [fst snd _flush_rate _flush_count _file journal].
      split; [reflexivity|]. split; [reflexivity|]. split; [reflexivity|].
      split; [exists ok; rewrite <- app_assoc; reflexivity|].
      unfold count_in_range, in_int in *; cbn [_flush_rate _flush_count]. lia.
    + cbn [fst snd _flush_rate _flush_count _file journal].
      split; [reflexivity|]. split; [reflexivity|]. split; [reflexivity|].
      split; [exists true; reflexivity|].
      unfold count_in_range, in_int in *; cbn [_flush_rate _flush_count]. lia.
  - cbn [fst snd _flush_rate _flush_count _file journal].
    split; [reflexivity|]. split; [reflexivity|]. split; [reflexivity|].
    split; [exists true; reflexivity|].
    unfold count_in_range, in_int in *; cbn [_flush_rate _flush_count]. lia.
Qed.


(** The same in numbers of flushes and of writes that went through. *)
Lemma write_step_counts (s : string) (fs : QLoggerFileStream F) :
  count_in_range fs ->
  let good := negb (fst (write s fs) =? -1) in
  let fs' := snd (write s fs) in
  let counted := good && (_flush_rate fs >? 0) in
  let count := if counted then (_flush_count fs + 1) mod _flush_rate fs
               else _flush_count fs in
  _flush_rate fs' = _flush_rate fs /\
  _flush_count fs' = count /\
  good_writes (journal (_file fs'))
  = good_writes (journal (_file fs)) + (if good then 1 else 0) /\
  flushes (journal (_file fs'))
  = flushes (journal (_file fs))
    + (if counted && (count =? 0) then 1 else 0) /\
  count_in_range fs'.
Proof.
  intros Hinv.
  destruct (write_step s fs Hinv) as (Hret & Hrate & Hcount & [ok Hj] & Hinv').
  cbv zeta. rewrite Hret.
  split; [assumption|]. split; [assumption|].
  rewrite Hj, good_writes_app, flushes_app.
  set (ret := fst (dev_write (QString.toUtf8 s) (device (_file fs)))).
  split; [|split; [|assumption]].
  - unfold good_writes at 2. cbn [filter is_good_write].
    destruct (negb (ret =? -1) && (_flush_rate fs >? 0)
              && ((if negb (ret =? -1) && (_flush_rate fs >? 0)
                   then (_flush_count fs + 1) mod _flush_rate fs
                   else _flush_count fs) =? 0));
      destruct (negb (ret =? -1)); reflexivity.
  - unfold flushes at 2. cbn [filter is_flush].
    destruct (negb (ret =? -1) && (_flush_rate fs >? 0)
              && ((if negb (ret =? -1) && (_flush_rate fs >? 0)
                   then (_flush_count fs + 1) mod _flush_rate fs
                   else _flush_count fs) =? 0)); reflexivity.
Qed.

(** Over any run of writes with a positive rate: the flushes issued and
    the counter, from the writes that went through. *)
Lemma write_all_counts (ls : list string) :
  forall fs : QLoggerFileStream F,
    count_in_range fs -> 0 < _flush_rate fs ->
    let fs' := write_all ls fs in
    let g := good_writes (journal (_file fs'))
             - good_writes (journal (_file fs)) in
    0 <= g /\
    _flush_rate fs' = _flush_rate fs /\
    flushes (journal (_file fs')) - flushes (journal (_file fs))
    = (_flush_count fs + g) / _flush_rate fs /\
    _flush_count fs' = (_flush_count fs + g) mod _flush_rate fs.
Proof.
  induction ls as [|l ls IH]; intros fs Hinv Hpos; cbv zeta.
  - cbn [write_all]. destruct Hinv as (_ & Hc0 & Hc1).
    rewrite !Z.sub_diag, Z.add_0_r.
    rewrite Z.div_small, Z.mod_small by lia. lia.
  - cbn [write_all].
    destruct (write_step_counts l fs Hinv) as (Hrate & Hcount & Hg & Hf & Hinv').
    cbv zeta in Hrate, Hcount, Hg, Hf.
    assert (Hpos' : 0 < _flush_rate (snd (write l fs))) by lia.
    specialize (IH _ Hinv' Hpos'). cbv zeta in IH.
    destruct IH as (IHg & IHrate & IHf & IHc).
    rewrite Hrate in *. rewrite Hcount in IHf, IHc.
    set (R := _flush_rate fs) in *.
    set (c := _flush_count fs) in *.
    set (g1 := good_writes (journal (_file (write_all ls (snd (write l fs)))))
               - good_writes (journal (_file (snd (write l fs))))) in *.
    assert (HR : (R >? 0) = true) by (apply Z.gtb_lt; lia).
    rewrite HR, andb_true_r in *.
    destruct Hinv as (_ & Hc0 & Hc1). specialize (Hc1 Hpos). fold c in Hc0, Hc1.
    destruct (negb (fst (write l fs) =? -1)).
    + replace (good_writes (journal (_file (write_all ls (snd (write l fs)))))
               - good_writes (journal (_file fs))) with (g1 + 1) by lia.
      split; [lia|]. split; [assumption|].
      destruct (Z.eq_dec (c + 1) R) as [Heq|Hne].
      * assert (Hm : (c + 1) mod R = 0) by (rewrite Heq; apply Z_mod_same_full).
        rewrite Hm in *. cbn [Z.eqb andb] in Hf.
        replace (c + (g1 + 1)) with (g1 + 1 * R) by lia.
        rewrite Z.div_add, Z.mod_add by lia.
        cbn [Z.add] in IHf, IHc. split; lia.
      * assert (Hm : (c + 1) mod R = c + 1) by (apply Z.mod_small; lia).
        rewrite Hm in *.
        assert (Hz : (c + 1 =? 0) = false) by (apply Z.eqb_neq; lia).
        rewrite Hz in Hf. cbn [andb] in Hf.
        replace (c + (g1 + 1)) with (c + 1 + g1) by lia. split; lia.
    + cbn [andb] in Hf.
      replace (good_writes (journal (_file (write_all ls (snd (write l fs)))))
               - good_writes (journal (_file fs))) with g1 by lia.
      split; [lia|]. split; [assumption|]. split; lia.
Qed.

(** With a rate of zero or less no call of [write] flushes or counts. *)
Lemma write_all_no_flush (ls : list string) :
  forall fs : QLoggerFileStream F,
    _flush_rate fs <= 0 ->
    let fs' := write_all ls fs in
    _flush_rate fs' = _flush_rate fs /\
    _flush_count fs' = _flush_count fs /\
    flushes (journal (_file fs')) = flushes (journal (_file fs)).
Proof.
  induction ls as [|l ls IH]; intros fs Hrate; cbv zeta; [auto|].
  cbn [write_all].
  assert (Hstep : _flush_rate (snd (write l fs)) = _flush_rate fs /\
                  _flush_count (snd (write l fs)) = _flush_count fs /\
                  flushes (journal (_file (snd (write l fs))))
                  = flushes (journal (_file fs))).
  { unfold write, file_write.
    destruct (dev_write (QString.toUtf8 l) (device (_file fs))) as [ret d].
    assert (HR : (_flush_rate fs >? 0) = false).
    { destruct (_flush_rate fs >? 0) eqn:E; [apply Z.gtb_lt in E; lia | reflexivity]. }
    rewrite HR, andb_false_r.
    cbn [snd _flush_rate _flush_count _file journal].
    rewrite flushes_app. unfold flushes at 2. cbn. lia. }
  destruct Hstep as (H1 & H2 & H3).
  specialize (IH (snd (write l fs))). cbv zeta in IH.
  rewrite H1, H2, H3 in IH. apply IH. assumption.
Qed.


Lemma setFlushRate_in_range (R : Z) (fs : QLoggerFileStream F) :
  in_int R -> count_in_range (setFlushRate R fs).
Proof.
  unfold count_in_range, in_int, setFlushRate.
  cbn [_flush_rate _flush_count]. lia.
Qed.

(** C4: on a file stream whose flush rate was set to [R] (the constructor
    sets 4), after any run of writes: when [R > 0] the flushes issued are
    the writes that went through divided by [R], the counter is their
    remainder, and the next write flushes exactly when it goes through and
    is the [R]-th, [2R]-th, ... such write, leaving the counter at 0; when
    [R <= 0] no write flushes. *)
Theorem flush_once_every_R_good_writes
  (fs : QLoggerFileStream F) (R : Z) (ls : list string) :
  in_int R ->
  let fs0 := setFlushRate R fs in
  let fs1 := write_all ls fs0 in
  let g := good_writes (journal (_file fs1))
           - good_writes (journal (_file fs0)) in
  let f := flushes (journal (_file fs1)) - flushes (journal (_file fs0)) in
  (0 < R ->
   f = g / R /\
   _flush_count fs1 = g mod R /\
   forall s : string,
     let fs2 := snd (write s fs1) in
     let due := negb (fst (write s fs1) =? -1) && ((g + 1) mod R =? 0) in
     flushes (journal (_file fs2))
     = flushes (journal (_file fs1)) + (if due then 1 else 0) /\
     (due = true -> _flush_count fs2 = 0)) /\
  (R <= 0 ->
   f = 0 /\
   forall s : string,
     flushes (journal (_file (snd (write s fs1))))
     = flushes (journal (_file fs1))).
Proof.
  intros HR. cbv zeta. split.
  - intros Hpos.
    pose proof (setFlushRate_in_range R fs HR) as Hinv.
    destruct (write_all_counts ls (setFlushRate R fs) Hinv Hpos)
      as (Hg & Hrate & Hf & Hc).
    cbn [setFlushRate _flush_rate _flush_count] in Hrate, Hf, Hc.
    rewrite Z.add_0_l in Hf, Hc.
    split; [exact Hf|]. split; [exact Hc|].
    intros s.
    set (fs1 := write_all ls (setFlushRate R fs)) in *.
    set (g := good_writes (journal (_file fs1))
              - good_writes (journal (_file (setFlushRate R fs)))) in *.
    assert (Hinv1 : count_in_range fs1).
    { unfold count_in_range. rewrite Hrate, Hc.
      pose proof (Z.mod_pos_bound g R Hpos). split; [exact HR | lia]. }
    destruct (write_step_counts s fs1 Hinv1) as (_ & Hcount & _ & Hfl & _).
    cbv zeta in Hcount, Hfl. rewrite Hrate, Hc in Hcount, Hfl.
    assert (HRb : (R >? 0) = true) by (apply Z.gtb_lt; lia).
    rewrite HRb, andb_true_r in Hcount, Hfl.
    rewrite Z.add_mod_idemp_l in Hcount, Hfl by lia.
    destruct (negb (fst (write s fs1) =? -1)); cbn [andb] in *.
    + split; [exact Hfl|]. intros Hdue.
      rewrite Hcount. apply Z.eqb_eq. exact Hdue.
    + split; [exact Hfl | discriminate].
  - intros Hneg.
    destruct (write_all_no_flush ls (setFlushRate R fs) Hneg) as (Hrate & _ & Hf).
    split; [lia|]. intros s.
    assert (Hneg1 : _flush_rate (write_all ls (setFlushRate R fs)) <= 0)
      by (rewrite Hrate; exact Hneg).
    exact (proj2 (proj2 (write_all_no_flush [s] _ Hneg1))).
Qed.

(** C10: a write the device refuses leaves the counter as it was and adds
    nothing but that write to the journal; [setFlushRate] puts the counter
    to 0 whatever it was; so after [setFlushRate(R)] with [R > 0] no flush
    is issued while fewer than [R] writes went through, and one was issued
    when [R] did. *)
Theorem failed_write_keeps_flush_cadence
  (fs : QLoggerFileStream F) (s : string) (R : Z) (ls : list string) :
  (fst (write s fs) = -1 ->
   _flush_count (snd (write s fs)) = _flush_count fs /\
   _flush_rate (snd (write s fs)) = _flush_rate fs /\
   journal (_file (snd (write s fs)))
   = journal (_file fs) ++ [FileWrite (QString.toUtf8 s) (-1)]) /\
  _flush_count (setFlushRate R fs) = 0 /\
  _flush_rate (setFlushRate R fs) = R /\
  (in_int R -> 0 < R ->
   let fs0 := setFlushRate R fs in
   let fs1 := write_all ls fs0 in
   let g := good_writes (journal (_file fs1))
            - good_writes (journal (_file fs0)) in
   let f := flushes (journal (_file fs1)) - flushes (journal (_file fs0)) in
   (g < R -> f = 0) /\ (g = R -> f = 1)).
Proof.
  split; [|split; [reflexivity|split; [reflexivity|]]].
  - unfold write, file_write.
    destruct (dev_write (QString.toUtf8 s) (device (_file fs))) as [ret d].
    destruct (negb (ret =? -1) && (_flush_rate fs >? 0)) eqn:Hcounted.
    + destruct (int_rem (int_add (_flush_count fs) 1) (_flush_rate fs) =? 0);
        [destruct (file_flush _)|]; cbn [fst]; intros ->; discriminate Hcounted.
    + cbn [fst snd _file _flush_count _flush_rate journal].
      intros ->. auto.
  - intros HR Hpos. cbv zeta.
    pose proof (setFlushRate_in_range R fs HR) as Hinv.
    destruct (write_all_counts ls (setFlushRate R fs) Hinv Hpos)
      as (Hg & _ & Hf & _).
    cbn [setFlushRate _flush_rate _flush_count] in Hf.
    rewrite Z.add_0_l in Hf. rewrite Hf. split.
    + intros Hlt. apply Z.div_small. lia.
    + intros ->. apply Z_div_same_full. lia.
Qed.

End FileStreamFacts.


Lemma flush_once_every_R_good_writes_witness :
  in_int 4 /\
  let fs0 := FileStream.setFlushRate 4 sample_file_stream in
  let fs1 := FileStream.write_all sample_lines fs0 in
  flushes (journal (_file fs1)) - flushes (journal (_file fs0)) = 2 /\
  _flush_count fs1 = 1.
Proof.
  assert (Hin : in_int 4) by (unfold in_int, INT_MIN, INT_MAX; lia).
  split; [exact Hin|]. cbv zeta.
  destruct (flush_once_every_R_good_writes sample_file_stream 4 sample_lines Hin)
    as [Hpos _].
  destruct (Hpos ltac:(lia)) as (Hf & Hc & _).
  split.
  - rewrite Hf. vm_compute. reflexivity.
  - rewrite Hc. vm_compute. reflexivity.
Defined.

Lemma failed_write_keeps_flush_cadence_witness :
  let fs := snd (FileStream.write "a" sample_file_stream) in
  fst (FileStream.write "b" fs) = -1 /\
  _flush_count (snd (FileStream.write "b" fs)) = _flush_count fs /\
  journal (_file (snd (FileStream.write "b" fs)))
  = journal (_file fs) ++ [FileWrite "b" (-1)] /\
  in_int 4 /\ 0 < 4 /\
  let fs0 := FileStream.setFlushRate 4 fs in
  let fs1 := FileStream.write_all ["b"; "c"; "d"; "e"] fs0 in
  good_writes (journal (_file fs1)) - good_writes (journal (_file fs0)) < 4 /\
  flushes (journal (_file fs1)) - flushes (journal (_file fs0)) = 0.
Proof.
  cbv zeta.
  assert (Hfail : fst (FileStream.write "b"
                         (snd (FileStream.write "a" sample_file_stream))) = -1)
    by (vm_compute; reflexivity).
  assert (Hin : in_int 4) by (unfold in_int, INT_MIN, INT_MAX; lia).
  assert (Hpos : 0 < 4) by lia.
  split; [exact Hfail|].
  destruct (failed_write_keeps_flush_cadence
              (snd (FileStream.write "a" sample_file_stream)) "b" 4
              ["b"; "c"; "d"; "e"])
    as (Hw & _ & _ & Hrate).
  destruct (Hw Hfail) as (Hc & _ & Hj).
  split; [exact Hc|]. split; [exact Hj|].
  split; [exact Hin|]. split; [exact Hpos|].
  destruct (Hrate Hin Hpos) as (Hlt & _).
  assert (Hg : good_writes
                 (journal (_file (FileStream.write_all ["b"; "c"; "d"; "e"]
                                    (FileStream.setFlushRate 4
                                       (snd (FileStream.write "a"
                                               sample_file_stream))))))
               - good_writes
                   (journal (_file (FileStream.setFlushRate 4
                                      (snd (FileStream.write "a"
                                              sample_file_stream))))) < 4)
    by (vm_compute; reflexivity).
  split; [exact Hg | exact (Hlt Hg)].
Defined.

(** ** The worker *)

Section LoggerFacts.
Context {S : Type} `{QLoggerStream S}.

Lemma stream_calls_app t u :
  stream_calls (t ++ u) = stream_calls t ++ stream_calls u.
Proof.
  induction t as [|e t IH]; [reflexivity|].
  destruct e; cbn; rewrite ?IH; reflexivity.
Qed.

Lemma written_app t u : written (t ++ u) = written t ++ written u.
Proof.
  induction t as [|e t IH]; [reflexivity|].
  destruct e; cbn; rewrite ?IH; reflexivity.
Qed.

(** The pass of the loop over a queue that is not empty. *)
Lemma loop_body_pop (l : QLogger S) message rest :
  _messages l = message :: rest ->
  _messages_size l <> 0 ->
  loop_body l
  = (None, after_pass message rest l,
     pass_events message rest (fst (write message (_stream l)))).
Proof.
  intros Hq Hsize.
  unfold loop_body, bind, load, qDebug, lock, unlock, emit, pop_front,
    store_size, stream_write, ret.
  apply Z.eqb_neq in Hsize. rewrite Hsize. cbn [negb].
  rewrite Hq. cbn [_messages _stream set_stream].
  unfold after_pass.
  destruct (write message (_stream l)) as [bytes s] eqn:Hw.
  reflexivity.
Qed.

Lemma loop_cond_value (l : QLogger S) :
  loop_cond l
  = ((_finish l =? 0) || negb (_messages_size l =? 0), l, []).
Proof. reflexivity. Qed.

Lemma drain_pop (fuel : nat) (l : QLogger S) message rest :
  _messages l = message :: rest ->
  _messages_size l <> 0 ->
  drain (Datatypes.S fuel) l
  = let r := drain fuel (after_pass message rest l) in
    (result r, object r,
     pass_events message rest (fst (write message (_stream l))) ++ events r).
Proof.
  intros Hq Hsize.
  cbn [drain]. unfold bind at 1. rewrite loop_cond_value.
  assert (Hcond : (_finish l =? 0) || negb (_messages_size l =? 0) = true).
  { apply Z.eqb_neq in Hsize. rewrite Hsize. apply orb_true_r. }
  rewrite Hcond. unfold bind at 1.
  rewrite (loop_body_pop l message rest Hq Hsize).
  destruct (drain fuel (after_pass message rest l)) as [[o l2] t].
  reflexivity.
Qed.

(** Once the finish flag is set the loop takes the queue apart from the
    front, writes every line once and leaves; the fuel has to cover one
    pass per line and the last look at the condition. *)
Lemma drain_all (q : list string) :
  forall (fuel : nat) (l : QLogger S),
    _messages l = q -> size_mirrors_queue l -> _finish l <> 0 ->
    (List.length q < fuel)%nat ->
    let r := drain fuel l in
    result r = Done /\
    written (events r) = q /\
    stream_calls (events r) = map CallWrite q /\
    object r
    = {| _stream := stream_after q (_stream l);
         _messages := [];
         _finish := _finish l;
         _messages_size := 0;
         _error_string := _error_string l;
         _format_string := _format_string l;
         _datetime_format := _datetime_format l |}.
Proof.
  induction q as [|message rest IH]; intros fuel l Hq Hinv Hfin Hfuel;
    (destruct fuel as [|fuel]; [cbn in Hfuel; lia|]); cbv zeta.
  - unfold size_mirrors_queue in Hinv. rewrite Hq in Hinv. cbn in Hinv.
    cbn [drain]. unfold bind. rewrite loop_cond_value.
    apply Z.eqb_neq in Hfin. rewrite Hfin, Hinv. cbn.
    repeat split. destruct l; cbn in *. subst. reflexivity.
  - assert (Hsize : _messages_size l <> 0).
    { unfold size_mirrors_queue in Hinv. rewrite Hq in Hinv. cbn in Hinv. lia. }
    rewrite (drain_pop fuel l message rest Hq Hsize). cbv zeta.
    cbn [result object events fst snd].
    specialize (IH fuel (after_pass message rest l) eq_refl).
    assert (Hinv' : size_mirrors_queue (after_pass message rest l))
      by reflexivity.
    specialize (IH Hinv' Hfin). cbn [List.length] in Hfuel.
    specialize (IH ltac:(lia)). cbv zeta in IH.
    destruct IH as (Hres & Hw & Hc & Hobj).
    unfold result, object, events in *.
    split; [exact Hres|].
    rewrite written_app, stream_calls_app, Hw, Hc, Hobj.
    repeat split.
Qed.


(** [run] once the stream has opened: the loop, then the [close] when the
    loop was left. *)
Lemma run_opened (fuel : nat) (l : QLogger S) (s : S) :
  open (_stream l) = (true, s) ->
  run fuel l
  = let r := drain fuel (set_stream s l) in
    match result r with
    | Done =>
        (Done, set_stream (close (_stream (object r))) (object r),
         StreamOpen true
           :: events r ++ [StreamClose; QDebug "QLogger::run()----->End run"])
    | o => (o, object r, StreamOpen true :: events r)
    end.
Proof.
  intros Ho. unfold run, bind, stream_open. rewrite Ho. cbn [negb].
  destruct (drain fuel (set_stream s l)) as [[o l1] t].
  destruct o; cbn; rewrite ?app_nil_r; reflexivity.
Qed.

(** [run] on a stream that opens, with the finish flag set. *)
Lemma run_drains (fuel : nat) (l : QLogger S) :
  fst (open (_stream l)) = true ->
  size_mirrors_queue l -> _finish l <> 0 ->
  (List.length (_messages l) < fuel)%nat ->
  let r := run fuel l in
  result r = Done /\
  written (events r) = _messages l /\
  stream_calls (events r)
  = CallOpen :: map CallWrite (_messages l) ++ [CallClose] /\
  object r
  = {| _stream := close (stream_after (_messages l) (snd (open (_stream l))));
       _messages := [];
       _finish := _finish l;
       _messages_size := 0;
       _error_string := _error_string l;
       _format_string := _format_string l;
       _datetime_format := _datetime_format l |}.
Proof.
  intros Hopen Hinv Hfin Hfuel. cbv zeta.
  destruct (open (_stream l)) as [ok s] eqn:Ho. cbn [fst snd] in *. subst ok.
  rewrite (run_opened fuel l s Ho). cbv zeta.
  pose proof (drain_all (_messages l) fuel (set_stream s l) eq_refl Hinv Hfin
                Hfuel) as Hd.
  cbv zeta in Hd. destruct Hd as (Hres & Hw & Hc & Hobj).
  rewrite Hres, Hobj. unfold result, object, events. cbn [fst snd].
  split; [reflexivity|]. split; [|split].
  - change (StreamOpen true :: ?x) with ([StreamOpen true] ++ x).
    rewrite !written_app. unfold events in Hw. rewrite Hw. cbn.
    apply app_nil_r.
  - cbn [stream_calls]. rewrite stream_calls_app.
    unfold events in Hc. rewrite Hc. reflexivity.
  - reflexivity.
Qed.

(** [addMessages] puts the lines at the tail in the order of the calls and
    keeps the counter in step. *)
Lemma addMessages_object (es : list Entry) :
  forall l : QLogger S,
    size_mirrors_queue l ->
    object (addMessages es l)
    = {| _stream := _stream l;
         _messages := _messages l ++ map (line_of l) es;
         _finish := _finish l;
         _messages_size :=
           Z.of_nat (List.length (_messages l ++ map (line_of l) es));
         _error_string := _error_string l;
         _format_string := _format_string l;
         _datetime_format := _datetime_format l |}.
Proof.
  induction es as [|e es IH]; intros l Hinv.
  - cbn. rewrite app_nil_r. destruct l; cbn in *.
    unfold size_mirrors_queue in Hinv. cbn in Hinv. subst. reflexivity.
  - cbn [addMessages]. unfold bind.
    pose proof (addMessage_object (entry_clock e) (entry_message e)
                  (entry_level e) l) as Ha.
    destruct (addMessage (entry_clock e) (entry_message e) (entry_level e) l)
      as [[u l1] t1].
    unfold object in Ha. cbn [fst snd] in Ha. cbv zeta in Ha.
    specialize (IH l1).
    destruct (addMessages es l1) as [[u2 l2] t2].
    unfold object in *. cbn [fst snd] in *.
    rewrite IH by (subst l1; reflexivity).
    subst l1. unfold line_of.
    cbn [_stream _messages _finish _messages_size _error_string
           _format_string _datetime_format map].
    rewrite <- app_assoc. reflexivity.
Qed.

(** C2: when the stream does not open, [run] returns at once, whatever
    the fuel and whatever is queued: the error text of the stream is the
    logger's error string, the stream was closed, the calls on the stream
    are the [open] and the [close] and no line was written; the queue is
    as it was. *)
Theorem run_open_failure (fuel : nat) (l : QLogger S) :
  fst (open (_stream l)) = false ->
  let r := run fuel l in
  result r = Done /\
  loggerErrorString (object r) = errorString (snd (open (_stream l))) /\
  _stream (object r) = close (snd (open (_stream l))) /\
  events r = [StreamOpen false; StreamClose] /\
  stream_calls (events r) = [CallOpen; CallClose] /\
  written (events r) = [] /\
  _messages (object r) = _messages l.
Proof.
  intros Hopen. cbv zeta.
  unfold run, bind, stream_open.
  destruct (open (_stream l)) as [ok s]. cbn [fst snd] in *. subst ok.
  cbn. repeat split.
Qed.

(** C7: whatever the calls of [write] return, a failure or a short count
    included, the pass that takes a line off the queue writes it once and
    goes back to the condition of the loop, changing neither the error
    string nor anything but the queue, its counter and the stream; and
    [run] with the finish flag set writes every queued line once, in
    order, closes the stream after the last and leaves the error string as
    it was. *)
Theorem write_failure_is_ignored (fuel : nat) (l : QLogger S) :
  fst (open (_stream l)) = true ->
  size_mirrors_queue l -> _finish l <> 0 ->
  (List.length (_messages l) < fuel)%nat ->
  (forall (l1 : QLogger S) (message : string) (rest : list string) (ret : Z),
     _messages l1 = message :: rest -> _messages_size l1 <> 0 ->
     fst (write message (_stream l1)) = ret ->
     loop_body l1
     = (None, after_pass message rest l1, pass_events message rest ret)) /\
  let r := run fuel l in
  result r = Done /\
  stream_calls (events r)
  = CallOpen :: map CallWrite (_messages l) ++ [CallClose] /\
  loggerErrorString (object r) = loggerErrorString l /\
  _messages (object r) = [].
Proof.
  intros Hopen Hinv Hfin Hfuel. split.
  - intros l1 message rest ret Hq Hsize <-.
    apply loop_body_pop; assumption.
  - cbv zeta.
    destruct (run_drains fuel l Hopen Hinv Hfin Hfuel)
      as (Hres & Hw & Hc & Hobj).
    rewrite Hobj. repeat split; assumption.
Qed.


(** *** The size counter *)

Lemma loop_body_keeps_mirror (l : QLogger S) :
  size_mirrors_queue l -> size_mirrors_queue (object (loop_body l)).
Proof.
  intros Hinv.
  destruct (Z.eq_dec (_messages_size l) 0) as [Hz|Hnz].
  - unfold loop_body, bind, load. apply Z.eqb_eq in Hz. rewrite Hz.
    cbn [negb]. destruct (_finish l =? 0); exact Hinv.
  - destruct (_messages l) as [|message rest] eqn:Hq.
    + unfold size_mirrors_queue in Hinv. rewrite Hq in Hinv. cbn in Hinv. lia.
    + rewrite (loop_body_pop l message rest Hq Hnz). reflexivity.
Qed.

Lemma drain_keeps_mirror (fuel : nat) :
  forall l : QLogger S,
    size_mirrors_queue l -> size_mirrors_queue (object (drain fuel l)).
Proof.
  induction fuel as [|fuel IH]; intros l Hinv; [exact Hinv|].
  cbn [drain]. unfold bind at 1. rewrite loop_cond_value.
  destruct ((_finish l =? 0) || negb (_messages_size l =? 0)); [|exact Hinv].
  unfold bind.
  pose proof (loop_body_keeps_mirror l Hinv) as Hb.
  destruct (loop_body l) as [[r l1] t1]. unfold object in Hb. cbn in Hb.
  destruct r as [o|].
  - exact Hb.
  - specialize (IH l1 Hb).
    destruct (drain fuel l1) as [[o l2] t2]. exact IH.
Qed.

Lemma run_keeps_mirror (fuel : nat) (l : QLogger S) :
  size_mirrors_queue l -> size_mirrors_queue (object (run fuel l)).
Proof.
  intros Hinv. unfold run, bind at 1, stream_open.
  destruct (open (_stream l)) as [ok s].
  destruct ok; cbn [negb].
  - unfold bind at 1.
    pose proof (drain_keeps_mirror fuel (set_stream s l) Hinv) as Hd.
    destruct (drain fuel (set_stream s l)) as [[o l1] t1].
    unfold object in Hd. cbn [fst snd] in Hd.
    destruct o; exact Hd.
  - exact Hinv.
Qed.

Lemma perform_keeps_mirror (a : Action) (l : QLogger S) :
  size_mirrors_queue l -> size_mirrors_queue (perform a l).
Proof.
  intros Hinv. destruct a as [e| |f|f| |fuel]; cbn [perform].
  - rewrite addMessage_object. reflexivity.
  - exact Hinv.
  - exact Hinv.
  - exact Hinv.
  - rewrite loop_cond_value. unfold result. cbn [fst].
    destruct ((_finish l =? 0) || negb (_messages_size l =? 0));
      [apply loop_body_keeps_mirror|]; exact Hinv.
  - apply run_keeps_mirror. exact Hinv.
Qed.

(** C8: the counter equals the length of the queue in a logger just built
    and after any sequence of completed calls on it: calls of [addMessage],
    of [finishWriting], of the setters, single passes of the worker's loop
    and whole calls of [run]. *)
Theorem size_counter_mirrors_queue (s : S) (acts : list Action) :
  _messages_size (new s) = Z.of_nat (List.length (_messages (new s))) /\
  _messages_size (perform_all acts (new s))
  = Z.of_nat (List.length (_messages (perform_all acts (new s)))).
Proof.
  split; [reflexivity|].
  change (size_mirrors_queue (perform_all acts (new s))).
  assert (Hgen : forall l : QLogger S,
             size_mirrors_queue l -> size_mirrors_queue (perform_all acts l)).
  { induction acts as [|a acts IH]; intros l Hinv; [exact Hinv|].
    cbn [perform_all fold_left]. apply IH, perform_keeps_mirror, Hinv. }
  apply Hgen. reflexivity.
Qed.

(** After [addMessage] the counter is the new length even when it was off
    before the call. *)
Lemma addMessage_restores_mirror now message level (l : QLogger S) :
  size_mirrors_queue (object (addMessage now message level l)).
Proof. rewrite addMessage_object. reflexivity. Qed.

(** *** finishWriting *)

Lemma finishWriting_object (l : QLogger S) :
  object (finishWriting l)
  = {| _stream := _stream l;
       _messages := _messages l;
       _finish := 1;
       _messages_size := _messages_size l;
       _error_string := _error_string l;
       _format_string := _format_string l;
       _datetime_format := _datetime_format l |}.
Proof. reflexivity. Qed.

(** On the members of the logger alone, a call of [finishWriting] after
    the first changes nothing: each call stores 1 in the finish flag,
    touches no other member and never waits on the condition.  What the
    [wakeOne] of a further call does to a sleeping worker is not seen
    here. *)
Lemma finishWriting_members (l : QLogger S) (n : nat) (fuel : nat) :
  let once := object (finishWriting l) in
  let twice := object (finishWriting once) in
  twice = once /\
  Nat.iter (Datatypes.S n) (fun l => object (finishWriting l)) l = once /\
  run fuel twice = run fuel once /\
  _finish once = 1 /\ _finish twice = 1 /\
  _messages once = _messages l /\
  _messages_size once = _messages_size l /\
  _stream once = _stream l /\
  _error_string once = _error_string l /\
  ~ In Wait (events (finishWriting l)) /\
  ~ In Wait (events (finishWriting once)).
Proof.
  cbv zeta.
  assert (Htwice : object (finishWriting (object (finishWriting l)))
                   = object (finishWriting l)) by reflexivity.
  split; [exact Htwice|]. split.
  - induction n as [|n IH]; [reflexivity|].
    change (Nat.iter (Datatypes.S (Datatypes.S n))
              (fun l => object (finishWriting l)) l)
      with (object (finishWriting
                      (Nat.iter (Datatypes.S n)
                         (fun l => object (finishWriting l)) l))).
    rewrite IH. exact Htwice.
  - split; [rewrite Htwice; reflexivity|].
    repeat split; cbn; intuition discriminate.
Qed.

(** *** addMessage, step by step *)

(** C3, as the code has it: the first step of [addMessage] is the
    [wakeOne]; the lock, the append of the line, the store of the size and
    the unlock come after it, in this order.  The worker is signalled
    before the line is in the queue, not after the size was stored. *)
Theorem addMessage_signals_first now message level (l : QLogger S) :
  let t := events (addMessage now message level l) in
  let line := line_of l {| entry_clock := now; entry_message := message;
                           entry_level := level |} in
  steps_of t
  = [WakeOne; Lock; Append line;
     StoreSize (Z.of_nat (List.length (_messages l ++ [line]))); Unlock] /\
  before is_wake is_lock t /\
  before is_lock is_append t /\
  before is_append is_store_size t /\
  before is_store_size is_unlock t /\
  before is_wake is_append t /\
  before is_wake is_store_size t /\
  ~ before is_store_size is_wake t.
Proof.
  cbv zeta. rewrite addMessage_events. cbv zeta.
  unfold before, steps_of. cbn.
  repeat split; lia.
Qed.

End LoggerFacts.

(** ** The threads taking turns *)

Module InterleavingFacts.
Import Interleaving.

Section StepFacts.
Context {S : Type} `{QLoggerStream S}.

(** X16: a message left behind.  The worker sleeps on the empty queue; a client
    calls [addMessage]; its [wakeOne] comes first, the worker gets up,
    finds the queue empty and goes back to sleep; then the client appends
    its line.  In the end the line is queued, the client has returned, the
    worker is asleep and no thread can take a turn. *)
Lemma addMessage_wake_lost (s : S) (e : Entry) :
  fst (open s) = true ->
  exists st,
    exec (to_sleep ++ [Client 0] ++ back_to_sleep ++ repeat (Client 0) 4)
      (init s [addMessage_steps e]) = Some st /\
    worker st = WAsleep /\
    _messages (logger st) = [line_of (new s) e] /\
    _messages_size (logger st) = 1 /\
    clients st = [[]] /\
    mutex st = None /\
    stuck st.
Proof.
  intros Hopen. unfold init, to_sleep, back_to_sleep.
  cbn [repeat app exec step step_worker worker logger].
  unfold stream_open. cbn [new _stream].
  destruct (open s) as [ok s1]. cbn [fst] in Hopen. subst ok.
  cbn. eexists. split; [reflexivity|].
  cbn. repeat split.
  intros [|i]; [reflexivity|].
  cbn. destruct i as [|i]; [reflexivity|]. destruct i; reflexivity.
Qed.

(** X17: the same with [finishWriting]: woken before the flag is stored, the
    worker sees no request to finish and sleeps again; the flag is set and
    nobody is left to wake the worker, so [run] does not return. *)
Lemma finishWriting_wake_lost (s : S) :
  fst (open s) = true ->
  exists st,
    exec (to_sleep ++ [Client 0] ++ back_to_sleep ++ repeat (Client 0) 3)
      (init s [finishWriting_steps]) = Some st /\
    worker st = WAsleep /\
    _finish (logger st) = 1 /\
    clients st = [[]] /\
    mutex st = None /\
    stuck st.
Proof.
  intros Hopen. unfold init, to_sleep, back_to_sleep.
  cbn [repeat app exec step step_worker worker logger].
  unfold stream_open. cbn [new _stream].
  destruct (open s) as [ok s1]. cbn [fst] in Hopen. subst ok.
  cbn. eexists. split; [reflexivity|].
  cbn. repeat split.
  intros [|i]; [reflexivity|].
  cbn. destruct i as [|i]; [reflexivity|]. destruct i; reflexivity.
Qed.

End StepFacts.
End InterleavingFacts.

(** ** The statements at the sample inputs *)

Lemma run_open_failure_witness :
  fst (open (_stream failing_logger)) = false /\
  List.length (_messages failing_logger) = 2%nat /\
  loggerErrorString (object (run 3 failing_logger)) = "Permission denied" /\
  written (events (run 3 failing_logger)) = [].
Proof.
  assert (Hopen : fst (open (_stream failing_logger)) = false) by reflexivity.
  split; [exact Hopen|]. split; [reflexivity|].
  destruct (run_open_failure 3 failing_logger Hopen)
    as (_ & He & _ & _ & _ & Hw & _).
  split; [rewrite He; reflexivity | exact Hw].
Defined.

Lemma write_failure_is_ignored_witness :
  fst (open (_stream flaky_logger)) = true /\
  size_mirrors_queue flaky_logger /\
  _finish flaky_logger <> 0 /\
  (List.length (_messages flaky_logger) < 3)%nat /\
  fst (write "x" (_stream flaky_logger)) = -1 /\
  stream_calls (events (run 3 flaky_logger))
  = CallOpen :: map CallWrite (_messages flaky_logger) ++ [CallClose] /\
  loggerErrorString (object (run 3 flaky_logger)) = "".
Proof.
  assert (Hopen : fst (open (_stream flaky_logger)) = true) by reflexivity.
  assert (Hinv : size_mirrors_queue flaky_logger) by reflexivity.
  assert (Hfin : _finish flaky_logger <> 0) by (cbn; lia).
  assert (Hfuel : (List.length (_messages flaky_logger) < 3)%nat)
    by (cbn; lia).
  split; [exact Hopen|]. split; [exact Hinv|]. split; [exact Hfin|].
  split; [exact Hfuel|]. split; [reflexivity|].
  destruct (write_failure_is_ignored 3 flaky_logger Hopen Hinv Hfin Hfuel)
    as (_ & _ & Hc & He & _).
  split; [exact Hc | rewrite He; reflexivity].
Defined.

Lemma logLevelToString_out_of_range_witness :
  ~ LogLevel.is_enumerator 7 /\
  @logLevelToString 7 = "" /\
  _messages
    (object (addMessage (fixed_clock "02.11.2026 10:00:00") "hello" 7
               (new {| debug_output := [] |})))
  = [("[02.11.2026 10:00:00]  hello" ++ newline)%string].
Proof.
  assert (Hout : ~ LogLevel.is_enumerator 7).
  { unfold LogLevel.is_enumerator, LogLevel.Info, LogLevel.Debug,
      LogLevel.Warning, LogLevel.Fatal. lia. }
  split; [exact Hout|].
  destruct (logLevelToString_out_of_range (S := QLoggerDebugStream) 7 Hout)
    as (Hempty & Hadd).
  split; [exact Hempty|].
  destruct (Hadd (fixed_clock "02.11.2026 10:00:00") "hello"
              (new {| debug_output := [] |})) as (_ & Hline).
  apply Hline; reflexivity.
Defined.

(** ** More on the logger *)

Section MoreLoggerFacts.
Context {S : Type} `{QLoggerStream S}.

(** The pass of the loop over an empty queue with no request to finish:
    the worker takes the mutex and waits. *)
Lemma loop_body_wait (l : QLogger S) :
  _messages_size l = 0 -> _finish l = 0 ->
  loop_body l
  = (Some Blocked, l, [QDebug "QLogger::run()----->Must wait"; Lock; Wait]).
Proof.
  intros Hsize Hfin. unfold loop_body, bind, load.
  rewrite Hsize. cbn [Z.eqb negb]. rewrite Hfin. reflexivity.
Qed.

Lemma drain_wait (fuel : nat) (l : QLogger S) :
  _messages_size l = 0 -> _finish l = 0 ->
  drain (Datatypes.S fuel) l
  = (Blocked, l, [QDebug "QLogger::run()----->Must wait"; Lock; Wait]).
Proof.
  intros Hsize Hfin. cbn [drain]. unfold bind.
  rewrite loop_cond_value, Hsize, Hfin. cbv beta iota.
  cbn [Z.eqb orb negb]. cbv beta iota.
  rewrite (loop_body_wait l Hsize Hfin). reflexivity.
Qed.

(** While the finish flag is not set the loop empties the queue and then
    waits. *)
Lemma drain_then_wait (q : list string) :
  forall (fuel : nat) (l : QLogger S),
    _messages l = q -> size_mirrors_queue l -> _finish l = 0 ->
    (List.length q < fuel)%nat ->
    let r := drain fuel l in
    result r = Blocked /\
    (exists t,
       events r = t ++ [QDebug "QLogger::run()----->Must wait"; Lock; Wait] /\
       written t = q /\ stream_calls t = map CallWrite q /\
       ~ In Wait t) /\
    object r
    = {| _stream := stream_after q (_stream l);
         _messages := [];
         _finish := 0;
         _messages_size := 0;
         _error_string := _error_string l;
         _format_string := _format_string l;
         _datetime_format := _datetime_format l |}.
Proof.
  induction q as [|message rest IH]; intros fuel l Hq Hinv Hfin Hfuel;
    (destruct fuel as [|fuel]; [cbn in Hfuel; lia|]); cbv zeta.
  - unfold size_mirrors_queue in Hinv. rewrite Hq in Hinv. cbn in Hinv.
    rewrite (drain_wait fuel l Hinv Hfin). cbn [result object events fst snd].
    split; [reflexivity|]. split.
    + exists []. cbn. split; [reflexivity|]. split; [reflexivity|].
      split; [reflexivity | intros []].
    + destruct l; cbn in *. subst. reflexivity.
  - assert (Hsize : _messages_size l <> 0).
    { unfold size_mirrors_queue in Hinv. rewrite Hq in Hinv. cbn in Hinv. lia. }
    rewrite (drain_pop fuel l message rest Hq Hsize). cbv zeta.
    cbn [result object events fst snd].
    specialize (IH fuel (after_pass message rest l) eq_refl eq_refl Hfin).
    cbn [List.length] in Hfuel.
    specialize (IH ltac:(lia)). cbv zeta in IH.
    destruct IH as (Hres & (t & Ht & Hw & Hc & Hnw) & Hobj).
    unfold result, object, events in *.
    split; [exact Hres|]. split.
    + exists (pass_events message rest (fst (write message (_stream l))) ++ t).
      rewrite Ht, <- app_assoc. split; [reflexivity|].
      rewrite written_app, stream_calls_app, Hw, Hc.
      split; [reflexivity|]. split; [reflexivity|].
      intros Hin. apply in_app_or in Hin as [Hin|Hin]; [|exact (Hnw Hin)].
      cbn in Hin. intuition discriminate.
    + rewrite Hobj. reflexivity.
Qed.

(** X1: [run] on a stream that opens, without a request to finish: every
    queued line is written once, in order, the stream is not closed, and
    the thread ends up blocked in [_empty.wait], its one [wait], entered
    right after [_mutex.lock]; the queue and its counter are at zero. *)
Theorem run_without_finish_drains_then_waits (fuel : nat) (l : QLogger S) :
  fst (open (_stream l)) = true ->
  size_mirrors_queue l -> _finish l = 0 ->
  (List.length (_messages l) < fuel)%nat ->
  let r := run fuel l in
  result r = Blocked /\
  written (events r) = _messages l /\
  stream_calls (events r) = CallOpen :: map CallWrite (_messages l) /\
  (exists t,
     events r = t ++ [QDebug "QLogger::run()----->Must wait"; Lock; Wait] /\
     ~ In Wait t) /\
  _messages (object r) = [] /\
  _messages_size (object r) = 0 /\
  _stream (object r) = stream_after (_messages l) (snd (open (_stream l))).
Proof.
  intros Hopen Hinv Hfin Hfuel. cbv zeta.
  destruct (open (_stream l)) as [ok s] eqn:Ho. cbn [fst snd] in *. subst ok.
  rewrite (run_opened fuel l s Ho). cbv zeta.
  pose proof (drain_then_wait (_messages l) fuel (set_stream s l) eq_refl Hinv
                Hfin Hfuel) as Hd.
  cbv zeta in Hd. destruct Hd as (Hres & (t & Ht & Hw & Hc & Hnw) & Hobj).
  rewrite Hres, Hobj. unfold result, object, events in *. cbn [fst snd].
  rewrite Ht.
  split; [reflexivity|]. split; [|split; [|split]].
  - change (StreamOpen true :: ?x) with ([StreamOpen true] ++ x).
    rewrite !written_app, Hw. cbn. apply app_nil_r.
  - cbn [stream_calls]. rewrite stream_calls_app, Hc. cbn. rewrite app_nil_r.
    reflexivity.
  - exists (StreamOpen true :: t). split; [reflexivity|].
    intros [Hin|Hin]; [discriminate | exact (Hnw Hin)].
  - repeat split.
Qed.


(** X2: a line is built when it is queued.  A change of the template or of
    the datetime pattern after [addMessage] leaves the lines in the queue as
    they are and shows in the lines queued from then on, which ask the
    clock with the new pattern; the getters return the new values. *)
Theorem format_is_fixed_when_queued
  (now1 now2 : Clock) (m1 m2 : string) (lv1 lv2 : LogLevel.t)
  (f d : string) (l : QLogger S) :
  let l' := object ((addMessage now1 m1 lv1 ;;
                     setFormatString f ;;
                     setDatetimeFormat d ;;
                     addMessage now2 m2 lv2) l) in
  messages l'
  = messages l
      ++ [format_line (formatString l) (now1 (datetimeFormat l))
            (logLevelToString lv1) m1;
          format_line f (now2 d) (logLevelToString lv2) m2] /\
  formatString l' = f /\
  datetimeFormat l' = d /\
  size_mirrors_queue l'.
Proof.
  cbv zeta. unfold messages, formatString, datetimeFormat.
  cbn. rewrite <- app_assoc. repeat split.
Qed.

(** X3: destroying a logger writes nothing: the lines still queued reach
    no stream, the stream is closed exactly when it reports to be open, and
    this also holds right after any calls of [addMessage]. *)
Theorem delete_discards_queue (es : list Entry) (l : QLogger S) :
  size_mirrors_queue l ->
  let l1 := object (addMessages es l) in
  let r := delete l1 in
  _messages l1 = _messages l ++ map (line_of l) es /\
  written (events r) = [] /\
  stream_calls (events r)
  = (if isOpen (_stream l) then [CallClose] else []) /\
  _stream (object r)
  = (if isOpen (_stream l) then close (_stream l) else _stream l) /\
  _messages (object r) = _messages l1.
Proof.
  intros Hinv. cbv zeta. rewrite (addMessages_object es l Hinv).
  unfold delete, bind, load, stream_close, ret, set_stream.
  cbn [_stream _messages].
  destruct (isOpen (_stream l)); cbn; repeat split.
Qed.

End MoreLoggerFacts.

(** X4: on the stream that prints with [qDebug] the worker never takes
    the error path: after [addMessage] for [es] and [finishWriting], [run]
    returns with the lines of [es] added in order to what was printed, and
    the error string is empty. *)
Theorem debug_stream_prints_every_line
  (d : QLoggerDebugStream) (es : list Entry) (fuel : nat) :
  (List.length es < fuel)%nat ->
  let l := object ((addMessages es ;; finishWriting) (new d)) in
  let r := run fuel l in
  result r = Done /\
  debug_output (_stream (object r))
  = debug_output d ++ map (line_of (new d)) es /\
  loggerErrorString (object r) = "" /\
  messages (object r) = [].
Proof.
  intros Hfuel. cbv zeta.
  assert (Hl : object ((addMessages es ;; finishWriting) (new d))
               = {| _stream := d;
                    _messages := map (line_of (new d)) es;
                    _finish := 1;
                    _messages_size :=
                      Z.of_nat (List.length (map (line_of (new d)) es));
                    _error_string := "";
                    _format_string := "[%1] %2 %3";
                    _datetime_format := "dd.MM.yyyy hh:mm:ss" |}).
  { unfold bind.
    pose proof (addMessages_object es (new d) eq_refl) as Ha.
    destruct (addMessages es (new d)) as [[u l1] t1].
    unfold object in *. cbn [fst snd] in *. subst l1. reflexivity. }
  rewrite Hl.
  set (l := {| _stream := d; _messages := map (line_of (new d)) es |}).
  assert (Hfuel' : (List.length (_messages l) < fuel)%nat)
    by (cbn; rewrite length_map; exact Hfuel).
  assert (Hopen : fst (open (_stream l)) = true) by reflexivity.
  assert (Hinv : size_mirrors_queue l) by reflexivity.
  destruct (run_drains fuel l Hopen Hinv ltac:(cbn; lia) Hfuel')
    as (Hres & _ & _ & Hobj).
  rewrite Hobj. cbn [_stream _messages _error_string loggerErrorString messages].
  split; [exact Hres|]. split; [|split; reflexivity].
  cbn [open close QLoggerDebugStream_stream snd l _stream _messages].
  generalize (map (line_of (new d)) es) as q. clear.
  intros q. revert d.
  induction q as [|line q IH]; intros d.
  - cbn. rewrite app_nil_r. reflexivity.
  - cbn [stream_after fold_left]. 
    change (fold_left (fun s line => snd (write line s)) q
              (snd (write line d)))
      with (stream_after q (snd (write line d))).
    rewrite IH. cbn. rewrite <- app_assoc. reflexivity.
Qed.

(** ** More on the file stream *)

Section MoreFileStreamFacts.
Context {F : Type} `{QIODevice F}.

Import FileStream.

Lemma fs_call_in_range (c : FileStreamCall) (fs : QLoggerFileStream F) :
  int_rate c -> count_in_range fs -> count_in_range (fs_call c fs).
Proof.
  intros Hc Hinv. destruct c as [|s| | |name|rate]; cbn [fs_call].
  - unfold open. destruct (file_open (_file fs)). exact Hinv.
  - exact (proj2 (proj2 (proj2 (proj2 (write_step s fs Hinv))))).
  - unfold flush. destruct (file_flush (_file fs)). exact Hinv.
  - exact Hinv.
  - exact Hinv.
  - apply setFlushRate_in_range. exact Hc.
Qed.

Lemma fs_calls_in_range (cs : list FileStreamCall) :
  forall fs : QLoggerFileStream F,
    Forall int_rate cs -> count_in_range fs -> count_in_range (fs_calls cs fs).
Proof.
  induction cs as [|c cs IH]; intros fs Hcs Hinv; [exact Hinv|].
  inversion Hcs; subst. cbn [fs_calls fold_left].
  apply IH; [assumption|]. apply fs_call_in_range; assumption.
Qed.

(** X5: whatever is called on a file stream since its construction, with
    rates that are [int]s: the flush counter is never negative and stays
    below a positive flush rate, so that the [+ 1] of [write] never leaves
    the range of [int], and the remainder it takes is the mathematical
    one. *)
Theorem flush_counter_stays_in_range
  (filename : string) (cs : list FileStreamCall) :
  Forall int_rate cs ->
  let fs := fs_calls cs (new filename) in
  0 <= _flush_count fs /\
  (0 < _flush_rate fs -> _flush_count fs < _flush_rate fs) /\
  in_int (_flush_rate fs) /\
  int_add (_flush_count fs) 1 = _flush_count fs + 1 /\
  (0 < _flush_rate fs ->
   int_rem (int_add (_flush_count fs) 1) (_flush_rate fs)
   = (_flush_count fs + 1) mod _flush_rate fs).
Proof.
  intros Hcs. cbv zeta.
  assert (Hnew : count_in_range (new filename : QLoggerFileStream F)).
  { unfold count_in_range, in_int, INT_MIN, INT_MAX, new.
    cbn [_flush_rate _flush_count]. lia. }
  destruct (fs_calls_in_range cs (new filename) Hcs Hnew) as (Hr & Hc0 & Hc1).
  assert (Hadd : int_add (_flush_count (fs_calls cs (new filename))) 1
                 = _flush_count (fs_calls cs (new filename)) + 1).
  { unfold int_add. apply wrap_int_small.
    unfold in_int, INT_MIN, INT_MAX in *.
    destruct (Z_lt_le_dec 0 (_flush_rate (fs_calls cs (new filename))))
      as [Hpos|Hneg].
    - specialize (Hc1 Hpos). lia.
    - (* the counter is still 0: only [write] under a positive rate moves it *)
      assert (Hzero : forall (ds : list FileStreamCall) (fs : QLoggerFileStream F),
                 (_flush_rate fs <= 0 -> _flush_count fs = 0) ->
                 count_in_range fs -> Forall int_rate ds ->
                 _flush_rate (fs_calls ds fs) <= 0 ->
                 _flush_count (fs_calls ds fs) = 0).
      { induction ds as [|d ds IHds]; intros fs Hz Hin Hds Hle; [auto|].
        inversion Hds; subst. cbn [fs_calls fold_left] in *.
        apply IHds; try assumption.
        - intros Hle1. destruct d as [|s| | |name|rate]; cbn [fs_call] in *.
          + unfold open in *. destruct (file_open (_file fs)). auto.
          + destruct (write_step s fs Hin) as (_ & Hrate & Hcount & _).
            cbv zeta in Hrate, Hcount. rewrite Hrate in Hle1.
            rewrite Hcount.
            assert (HR : (_flush_rate fs >? 0) = false).
            { destruct (_flush_rate fs >? 0) eqn:E;
                [apply Z.gtb_lt in E; lia | reflexivity]. }
            rewrite HR, andb_false_r. auto.
          + unfold flush in *. destruct (file_flush (_file fs)). auto.
          + auto.
          + auto.
          + reflexivity.
        - apply fs_call_in_range; assumption. }
      rewrite (Hzero cs (new filename)); try assumption; try lia.
      cbn [new _flush_rate]. lia. }
  split; [exact Hc0|]. split; [exact Hc1|]. split; [exact Hr|].
  split; [exact Hadd|].
  intros Hpos. rewrite Hadd. unfold int_rem.
  apply Z.rem_mod_nonneg; lia.
Qed.


(** A call that is neither [write] nor [setFlushRate] leaves rate and
    counter; an explicit [flush] shows in the journal as one flush, the
    others as no flush; none of them is a write. *)
Lemma keeps_count_call (c : FileStreamCall) (fs : QLoggerFileStream F) :
  keeps_count c = true ->
  _flush_rate (fs_call c fs) = _flush_rate fs /\
  _flush_count (fs_call c fs) = _flush_count fs /\
  good_writes (journal (_file (fs_call c fs))) = good_writes (journal (_file fs)) /\
  file_writes (journal (_file (fs_call c fs))) = file_writes (journal (_file fs)) /\
  flushes (journal (_file (fs_call c fs)))
  = flushes (journal (_file fs))
    + (match c with FsFlush => 1 | _ => 0 end).
Proof.
  assert (Hfw : forall j c', (match c' with FileWrite _ _ => False | _ => True end) ->
                  file_writes (j ++ [c']) = file_writes j).
  { induction j as [|x j IH]; intros c' Hc'.
    - destruct c'; [reflexivity | contradiction | reflexivity | reflexivity].
    - destruct x; cbn; rewrite ?IH; auto. }
  intros Hk. destruct c as [|s| | |name|rate]; try discriminate Hk;
    cbn [fs_call].
  - unfold open, file_open. destruct (dev_open (device (_file fs))) as [ok d].
    cbn [snd _file _flush_rate _flush_count journal].
    rewrite good_writes_app, flushes_app, Hfw by exact I.
    unfold good_writes, flushes. cbn. repeat split; lia.
  - unfold flush, file_flush. destruct (dev_flush (device (_file fs))) as [ok d].
    cbn [snd _file _flush_rate _flush_count journal].
    rewrite good_writes_app, flushes_app, Hfw by exact I.
    unfold good_writes, flushes. cbn. repeat split; lia.
  - unfold close, file_close.
    cbn [snd _file _flush_rate _flush_count journal].
    rewrite good_writes_app, flushes_app, Hfw by exact I.
    unfold good_writes, flushes. cbn. repeat split; lia.
  - unfold setFilename. cbn [_file _flush_rate _flush_count journal].
    repeat split; lia.
Qed.

(** X6: the count of the writes runs on across an explicit [flush], a
    [close], an [open] or a change of the file name: with such a call
    between two runs of writes, the flushes issued by [write] are still
    the writes that went through, over both runs, divided by [R], and an
    explicit [flush] adds its own one. *)
Theorem flush_cadence_survives_other_calls
  (fs : QLoggerFileStream F) (R : Z) (ls1 ls2 : list string)
  (c : FileStreamCall) :
  in_int R -> 0 < R -> keeps_count c = true ->
  let fs0 := setFlushRate R fs in
  let fs3 := write_all ls2 (fs_call c (write_all ls1 fs0)) in
  let g := good_writes (journal (_file fs3))
           - good_writes (journal (_file fs0)) in
  flushes (journal (_file fs3)) - flushes (journal (_file fs0))
  = g / R + (match c with FsFlush => 1 | _ => 0 end) /\
  _flush_count fs3 = g mod R /\
  _flush_rate fs3 = R.
Proof.
  intros HR Hpos Hk. cbv zeta.
  pose proof (setFlushRate_in_range R fs HR) as Hinv0.
  destruct (write_all_counts ls1 (setFlushRate R fs) Hinv0 Hpos)
    as (Hg1 & Hrate1 & Hf1 & Hc1).
  cbn [setFlushRate _flush_rate _flush_count] in Hrate1, Hf1, Hc1.
  rewrite Z.add_0_l in Hf1, Hc1.
  set (fs1 := write_all ls1 (setFlushRate R fs)) in *.
  destruct (keeps_count_call c fs1 Hk) as (Hrate2 & Hc2 & Hg2 & _ & Hf2).
  set (fs2 := fs_call c fs1) in *.
  assert (Hinv2 : count_in_range fs2).
  { unfold count_in_range. rewrite Hrate2, Hc2, Hrate1, Hc1.
    pose proof (Z.mod_pos_bound
                  (good_writes (journal (_file fs1))
                   - good_writes (journal (_file (setFlushRate R fs)))) R Hpos).
    split; [exact HR | lia]. }
  assert (Hpos2 : 0 < _flush_rate fs2) by lia.
  destruct (write_all_counts ls2 fs2 Hinv2 Hpos2) as (Hg3 & Hrate3 & Hf3 & Hc3).
  rewrite Hrate2, Hrate1 in Hrate3, Hf3, Hc3. rewrite Hc2, Hc1 in Hf3, Hc3.
  set (fs3 := write_all ls2 fs2) in *.
  set (g1 := good_writes (journal (_file fs1))
             - good_writes (journal (_file (setFlushRate R fs)))) in *.
  set (g2 := good_writes (journal (_file fs3))
             - good_writes (journal (_file fs2))) in *.
  replace (good_writes (journal (_file fs3))
           - good_writes (journal (_file (setFlushRate R fs))))
    with (g1 + g2) by (unfold g1, g2; lia).
  assert (Hdiv : (g1 + g2) / R = g1 / R + (g1 mod R + g2) / R).
  { rewrite (Z.div_mod g1 R) at 1 by lia.
    replace (R * (g1 / R) + g1 mod R + g2)
      with (g1 / R * R + (g1 mod R + g2)) by lia.
    apply Z.div_add_l. lia. }
  split; [|split].
  - rewrite Hdiv. lia.
  - rewrite Hc3. apply Z.add_mod_idemp_l. lia.
  - exact Hrate3.
Qed.

(** What [write_all] adds to the journal are the writes of the lines, in
    order, with nothing but flushes between them. *)
Lemma write_all_file_writes (ls : list string) :
  forall fs : QLoggerFileStream F,
    file_writes (journal (_file (write_all ls fs)))
    = file_writes (journal (_file fs)) ++ ls.
Proof.
  assert (Hfw : forall j k, file_writes (j ++ k) = file_writes j ++ file_writes k).
  { induction j as [|x j IH]; intros k; [reflexivity|].
    destruct x; cbn; rewrite ?IH; reflexivity. }
  induction ls as [|l ls IH]; intros fs.
  - cbn. rewrite app_nil_r. reflexivity.
  - cbn [write_all]. rewrite IH.
    assert (Hone : file_writes (journal (_file (snd (write l fs))))
                   = file_writes (journal (_file fs)) ++ [l]).
    { unfold write, file_write.
      destruct (dev_write (QString.toUtf8 l) (device (_file fs))) as [ret d].
      destruct (negb (ret =? -1) && (_flush_rate fs >? 0)).
      - destruct (int_rem (int_add (_flush_count fs) 1) (_flush_rate fs) =? 0).
        + unfold file_flush. cbn [device journal].
          destruct (dev_flush d) as [ok d'].
          cbn [snd _file journal]. rewrite !Hfw. cbn. rewrite app_nil_r.
          reflexivity.
        + cbn [snd _file journal]. rewrite Hfw. reflexivity.
      - cbn [snd _file journal]. rewrite Hfw. reflexivity. }
    rewrite Hone, <- app_assoc. reflexivity.
Qed.


Lemma file_writes_app j k :
  file_writes (j ++ k) = file_writes j ++ file_writes k.
Proof.
  induction j as [|x j IH]; [reflexivity|].
  destruct x; cbn; rewrite ?IH; reflexivity.
Qed.

Lemma write_all_journal (ls : list string) :
  forall fs : QLoggerFileStream F,
    exists middle,
      journal (_file (write_all ls fs)) = journal (_file fs) ++ middle /\
      Forall (fun c => match c with
                       | FileWrite _ _ | FileFlush _ => True
                       | _ => False
                       end) middle.
Proof.
  induction ls as [|l ls IH]; intros fs.
  - exists []. cbn. rewrite app_nil_r. auto.
  - cbn [write_all].
    destruct (IH (snd (write l fs))) as (middle & Hj & Hm).
    assert (Hone : exists one,
               journal (_file (snd (write l fs))) = journal (_file fs) ++ one /\
               Forall (fun c => match c with
                                | FileWrite _ _ | FileFlush _ => True
                                | _ => False
                                end) one).
    { unfold write, file_write.
      destruct (dev_write (QString.toUtf8 l) (device (_file fs))) as [ret d].
      destruct (negb (ret =? -1) && (_flush_rate fs >? 0)).
      - destruct (int_rem (int_add (_flush_count fs) 1) (_flush_rate fs) =? 0).
        + unfold file_flush. cbn [device journal].
          destruct (dev_flush d) as [ok d'].
          cbn [snd _file journal]. rewrite <- app_assoc.
          eexists. split; [reflexivity|]. repeat constructor.
        + cbn [snd _file journal].
          eexists. split; [reflexivity|]. repeat constructor.
      - cbn [snd _file journal].
        eexists. split; [reflexivity|]. repeat constructor. }
    destruct Hone as (one & Hone & Ho).
    exists (one ++ middle). rewrite Hj, Hone, app_assoc.
    split; [reflexivity|]. apply Forall_app. auto.
Qed.

(** On a file stream the stream after the lines is the stream after
    [write_all]. *)
Lemma stream_after_write_all (q : list string) :
  forall fs : QLoggerFileStream F, stream_after q fs = write_all q fs.
Proof.
  induction q as [|line q IH]; intros fs; [reflexivity|].
  cbn [write_all]. rewrite <- IH. reflexivity.
Qed.

End MoreFileStreamFacts.

Section FileLoggerFacts.
Context {F : Type} `{QIODevice F}.

(** X7: a logger on a new file stream whose file opens, [addMessage] for
    [es], [finishWriting], [run]: the file was opened once, first, and
    closed once, last; between the two are the writes of the lines of
    [es], in order, and flushes; there is one flush for every four writes
    that went through, and the counter holds what is left over. *)
Theorem file_logger_journal (name : string) (es : list Entry) (fuel : nat) :
  fst (dev_open (dev_new name)) = true ->
  (List.length es < fuel)%nat ->
  let l0 := new (FileStream.new name) in
  let r := run fuel (object ((addMessages es ;; finishWriting) l0)) in
  let j := journal (_file (_stream (object r))) in
  result r = Done /\
  (exists middle,
     j = FileOpen true :: middle ++ [FileClose] /\
     Forall (fun c => match c with
                      | FileWrite _ _ | FileFlush _ => True
                      | _ => False
                      end) middle) /\
  file_writes j = map (line_of l0) es /\
  flushes j = good_writes j / 4 /\
  _flush_count (_stream (object r)) = good_writes j mod 4 /\
  loggerErrorString (object r) = "".
Proof.
  intros Hdev Hfuel. cbv zeta.
  set (s0 := FileStream.new name : QLoggerFileStream F).
  assert (Hl : object ((addMessages es ;; finishWriting) (new s0))
               = {| _stream := s0;
                    _messages := map (line_of (new s0)) es;
                    _finish := 1;
                    _messages_size :=
                      Z.of_nat (List.length (map (line_of (new s0)) es));
                    _error_string := "";
                    _format_string := "[%1] %2 %3";
                    _datetime_format := "dd.MM.yyyy hh:mm:ss" |}).
  { unfold bind.
    pose proof (addMessages_object es (new s0) eq_refl) as Ha.
    destruct (addMessages es (new s0)) as [[u l1] t1].
    unfold object in *. cbn [fst snd] in *. subst l1. reflexivity. }
  rewrite Hl.
  set (q := map (line_of (new s0)) es).
  set (l := {| _stream := s0; _messages := q |}).
  destruct (dev_open (dev_new name)) as [ok d] eqn:Hd.
  cbn [fst] in Hdev. subst ok.
  set (s1 := {| _file := {| device := d; journal := [FileOpen true] |};
                _flush_rate := 4; _flush_count := 0 |} : QLoggerFileStream F).
  assert (Ho : open (_stream l) = (true, s1)).
  { cbn [open QLoggerFileStream_stream l _stream]. unfold FileStream.open, file_open.
    unfold s0, FileStream.new, file_new. cbn [_file device journal _flush_rate _flush_count].
    rewrite Hd. reflexivity. }
  assert (Hopen : fst (open (_stream l)) = true) by (rewrite Ho; reflexivity).
  assert (Hinv : size_mirrors_queue l) by reflexivity.
  assert (Hfuel' : (List.length (_messages l) < fuel)%nat)
    by (cbn; unfold q; rewrite length_map; exact Hfuel).
  destruct (run_drains fuel l Hopen Hinv ltac:(cbn; lia) Hfuel')
    as (Hres & _ & _ & Hobj).
  rewrite Hobj, Ho.
  cbn [_stream _messages _error_string loggerErrorString snd l].
  cbn [close QLoggerFileStream_stream].
  rewrite stream_after_write_all.
  change (@write (QLoggerFileStream F) _) with (@FileStream.write F _) in *.
  unfold FileStream.close, file_close.
  cbn [_file journal _flush_count].
  destruct (write_all_journal q s1) as (middle & Hj & Hm).
  pose proof (write_all_file_writes q s1) as Hfw.
  assert (Hinv1 : count_in_range s1).
  { unfold count_in_range, in_int, INT_MIN, INT_MAX, s1.
    cbn [_flush_rate _flush_count]. lia. }
  destruct (write_all_counts q s1 Hinv1 ltac:(cbn; lia)) as (_ & _ & Hf & Hc).
  cbn [s1 _flush_rate _flush_count _file journal] in Hj, Hfw, Hf, Hc.
  fold s1 in Hj, Hfw, Hf, Hc.
  change (flushes [FileOpen true]) with 0 in Hf.
  change (good_writes [FileOpen true]) with 0 in Hf, Hc.
  rewrite Z.sub_0_r, Z.add_0_l in Hf, Hc.
  split; [exact Hres|]. split; [|split; [|split; [|split]]].
  - exists middle. rewrite Hj. split; [reflexivity | exact Hm].
  - rewrite file_writes_app, Hfw. cbn. rewrite app_nil_r. reflexivity.
  - rewrite flushes_app, good_writes_app.
    change (flushes [FileClose]) with 0.
    change (good_writes [FileClose]) with 0.
    rewrite !Z.add_0_r. rewrite Hf. f_equal. lia.
  - rewrite good_writes_app. change (good_writes [FileClose]) with 0.
    rewrite Z.add_0_r. exact Hc.
  - reflexivity.
Qed.

End FileLoggerFacts.

(** ** The logger with its defaults, and on a socket *)

Section EndToEnd.
Context {S : Type} `{QLoggerStream S}.

(** The logger after [addMessage] for [es] and [finishWriting], from a new
    logger. *)
Lemma queued_then_finished (s : S) (es : list Entry) :
  object ((addMessages es ;; finishWriting) (new s))
  = {| _stream := s;
       _messages := map (line_of (new s)) es;
       _finish := 1;
       _messages_size := Z.of_nat (List.length (map (line_of (new s)) es));
       _error_string := "";
       _format_string := "[%1] %2 %3";
       _datetime_format := "dd.MM.yyyy hh:mm:ss" |}.
Proof.
  unfold bind.
  pose proof (addMessages_object es (new s) eq_refl) as Ha.
  destruct (addMessages es (new s)) as [[u l1] t1].
  unfold object in *. cbn [fst snd] in *. subst l1. reflexivity.
Qed.

(** [run] when the stream does not open. *)
Lemma run_not_opened (fuel : nat) (l : QLogger S) (s : S) :
  open (_stream l) = (false, s) ->
  run fuel l
  = (Done,
     {| _stream := close s;
        _messages := _messages l;
        _finish := _finish l;
        _messages_size := _messages_size l;
        _error_string := errorString s;
        _format_string := _format_string l;
        _datetime_format := _datetime_format l |},
     [StreamOpen false; StreamClose]).
Proof.
  intros Ho. unfold run, bind, stream_open. rewrite Ho. reflexivity.
Qed.

(** X8: with the template and the datetime pattern of the constructor and
    timestamps that hold no ['%'], what [run] writes for the entries [es]
    is, entry by entry, ["[T] L M"] and a newline: [T] the text of the
    clock for the pattern ["dd.MM.yyyy hh:mm:ss"], [L] the text of the
    level, [M] the message as it came, place markers in it included. *)
Theorem default_lines_are_written (s : S) (es : list Entry) (fuel : nat) :
  fst (open s) = true ->
  (List.length es < fuel)%nat ->
  Forall (fun e =>
            QString.no_percent (entry_clock e "dd.MM.yyyy hh:mm:ss") = true)
    es ->
  let r := run fuel (object ((addMessages es ;; finishWriting) (new s))) in
  result r = Done /\
  written (events r)
  = map (fun e =>
           ("[" ++ entry_clock e "dd.MM.yyyy hh:mm:ss" ++ "] "
              ++ logLevelToString (entry_level e) ++ " "
              ++ entry_message e ++ newline)%string) es.
Proof.
  intros Hopen Hfuel Hclock. cbv zeta. rewrite queued_then_finished.
  set (l := {| _stream := s; _messages := map (line_of (new s)) es |}).
  assert (Hfuel' : (List.length (_messages l) < fuel)%nat)
    by (cbn; rewrite length_map; exact Hfuel).
  destruct (run_drains fuel l Hopen eq_refl ltac:(cbn; lia) Hfuel')
    as (Hres & Hw & _).
  split; [exact Hres|]. rewrite Hw. cbn [l _messages].
  apply map_ext_in. intros e He.
  rewrite Forall_forall in Hclock. specialize (Hclock e He).
  unfold line_of. cbn [new _format_string _datetime_format].
  apply format_line_default; [exact Hclock|].
  apply logLevelToString_no_percent.
Qed.

End EndToEnd.

Section SocketFacts.
Context {K : Type} `{QAbstractSocket K}.

(** X9: [open] connects to the host and the port that were set last, in
    whichever order, by [connectToHostEncrypted] when the socket is an SSL
    socket and by [connectToHost] otherwise, one call of the one and none
    of the other; then it waits for the connection, and what the wait
    answers is what [open] returns; host and port stay. *)
Theorem socket_open_connects_to_latest_address
  (ss : QLoggerSocketStream K) (h : string) (p : Z) :
  let ss1 := SocketStream.setPort p (SocketStream.setHostname h ss) in
  let k := SocketStream.socket ss in
  let k1 := if sock_isSsl k then sock_connectToHostEncrypted h p k
            else sock_connectToHost h p k in
  let connect := if sock_isSsl k then ConnectToHostEncrypted h p
                 else ConnectToHost h p in
  SocketStream.setHostname h (SocketStream.setPort p ss) = ss1 /\
  SocketStream.hostname ss1 = h /\
  SocketStream.port ss1 = p /\
  fst (SocketStream.open ss1) = fst (sock_waitForConnected k1) /\
  socket_journal (_socket (snd (SocketStream.open ss1)))
  = socket_journal (_socket ss)
      ++ [connect; WaitForConnected (fst (SocketStream.open ss1))] /\
  SocketStream.hostname (snd (SocketStream.open ss1)) = h /\
  SocketStream.port (snd (SocketStream.open ss1)) = p.
Proof.
  cbv zeta. unfold SocketStream.open, SocketStream.setPort,
    SocketStream.setHostname, SocketStream.hostname, SocketStream.port,
    SocketStream.socket.
  cbn [_socket _hostname _port].
  destruct (sock_isSsl (socket_impl (_socket ss)));
    match goal with
    | |- context [sock_waitForConnected ?x] =>
        destruct (sock_waitForConnected x) as [ok k2]
    end;
    cbn [fst snd _socket _hostname _port socket_journal];
    rewrite <- app_assoc; repeat split.
Qed.

(** What the writes of the lines add to the journal of the socket: for
    every line its write and the wait for the bytes. *)
Lemma stream_after_socket_journal (q : list string) :
  forall ss : QLoggerSocketStream K,
    exists middle,
      socket_journal (_socket (stream_after q ss))
      = socket_journal (_socket ss) ++ middle /\
      waited_writes middle = Some q /\
      _hostname (stream_after q ss) = _hostname ss /\
      _port (stream_after q ss) = _port ss.
Proof.
  induction q as [|line q IH]; intros ss.
  - exists []. cbn. rewrite app_nil_r. auto.
  - cbn [stream_after fold_left].
    change (fold_left (fun s line => snd (write line s)) q
              (snd (write line ss)))
      with (stream_after q (snd (write line ss))).
    destruct (IH (snd (write line ss))) as (middle & Hj & Hm & Hh & Hp).
    cbn [write QLoggerSocketStream_stream] in *.
    unfold SocketStream.write in *.
    destruct (sock_write (QString.toUtf8 line) (socket_impl (_socket ss)))
      as [bytes k1].
    destruct (sock_waitForBytesWritten k1) as [ok k2].
    cbn [snd _socket socket_journal _hostname _port] in *.
    exists (SocketWrite (QString.toUtf8 line) bytes
              :: WaitForBytesWritten ok :: middle).
    rewrite Hj, <- app_assoc. split; [reflexivity|].
    cbn [waited_writes]. rewrite Hm. auto.
Qed.

(** X10: a logger on a new socket stream, [addMessage] for [es],
    [finishWriting], [run].  When the connection fails the socket saw the
    connect, the wait and the disconnect and no write, and the error text
    of the socket is the logger's error string.  When it succeeds the
    socket saw the connect and the wait, then for each line of [es], in
    order, its write followed by the wait for the bytes, then the
    disconnect; what these waits answered plays no part. *)
Theorem socket_logger_journal
  (k : K) (h : string) (p : Z) (es : list Entry) (fuel : nat) :
  (List.length es < fuel)%nat ->
  let ss := SocketStream.new k h p in
  let l0 := new ss in
  let r := run fuel (object ((addMessages es ;; finishWriting) l0)) in
  let j := socket_journal (_socket (_stream (object r))) in
  let connect := if sock_isSsl k then ConnectToHostEncrypted h p
                 else ConnectToHost h p in
  result r = Done /\
  (fst (SocketStream.open ss) = false ->
   j = [connect; WaitForConnected false; DisconnectFromHost] /\
   loggerErrorString (object r)
   = SocketStream.errorString (snd (SocketStream.open ss))) /\
  (fst (SocketStream.open ss) = true ->
   (exists middle,
      j = connect :: WaitForConnected true :: middle ++ [DisconnectFromHost] /\
      waited_writes middle = Some (map (line_of l0) es)) /\
   loggerErrorString (object r) = "").
Proof.
  intros Hfuel. cbv zeta. rewrite queued_then_finished.
  set (ss := SocketStream.new k h p).
  set (q := map (line_of (new ss)) es).
  set (l := {| _stream := ss; _messages := q |}).
  assert (Hj0 : socket_journal (_socket (snd (SocketStream.open ss)))
                = [if sock_isSsl k then ConnectToHostEncrypted h p
                   else ConnectToHost h p;
                   WaitForConnected (fst (SocketStream.open ss))]).
  { unfold SocketStream.open, ss, SocketStream.new.
    cbn [_socket _hostname _port socket_impl socket_journal].
    destruct (sock_isSsl k);
      match goal with
      | |- context [sock_waitForConnected ?x] =>
          destruct (sock_waitForConnected x) as [ok k2]
      end; reflexivity. }
  destruct (SocketStream.open ss) as [ok s1] eqn:Ho.
  cbn [fst snd] in *.
  assert (Hopen : open (_stream l) = (ok, s1)) by exact Ho.
  destruct ok.
  - assert (Hfuel' : (List.length (_messages l) < fuel)%nat)
      by (cbn; unfold q; rewrite length_map; exact Hfuel).
    destruct (run_drains fuel l ltac:(rewrite Hopen; reflexivity) eq_refl
                ltac:(cbn; lia) Hfuel') as (Hres & _ & _ & Hobj).
    rewrite Hobj, Hopen.
    cbn [_stream _messages _error_string loggerErrorString snd l].
    split; [exact Hres|]. split; [discriminate|]. intros _.
    split; [|reflexivity].
    destruct (stream_after_socket_journal q s1) as (middle & Hj & Hm & _).
    exists middle. split; [|exact Hm].
    cbn [close QLoggerSocketStream_stream]. unfold SocketStream.close.
    cbn [_socket socket_journal]. rewrite Hj, Hj0. reflexivity.
  - rewrite (run_not_opened fuel l s1 Hopen).
    cbn [result object fst snd _stream _error_string loggerErrorString].
    split; [reflexivity|]. split; [|discriminate]. intros _.
    cbn [close errorString QLoggerSocketStream_stream].
    unfold SocketStream.close. cbn [_socket socket_journal].
    rewrite Hj0. split; reflexivity.
Qed.

End SocketFacts.

(** ** Lines through the threads *)

Module DeliveryFacts.
Import Interleaving.

Section Delivery.
Context {S : Type} `{QLoggerStream S}.

Lemma appended_app t u : appended (t ++ u) = appended t ++ appended u.
Proof.
  induction t as [|x t IH]; [reflexivity|].
  destruct x; cbn; rewrite ?IH; reflexivity.
Qed.

Lemma delivered_app t u : delivered (t ++ u) = delivered t ++ delivered u.
Proof.
  induction t as [|x t IH]; [reflexivity|].
  destruct x; cbn; rewrite ?IH; reflexivity.
Qed.

Lemma wake_fields (st : State S) :
  logger (wake st) = logger st /\
  mutex (wake st) = mutex st /\
  clients (wake st) = clients st /\
  in_hand (worker (wake st)) = in_hand (worker st).
Proof. unfold wake. destruct (worker st) eqn:Hpc; cbn; rewrite ?Hpc; auto. Qed.

Lemma acquire_fields (tid : Tid) (st st1 : State S) :
  acquire tid st = Some st1 ->
  mutex st = None /\ st1 = with_mutex (Some tid) st.
Proof.
  unfold acquire. destruct (mutex st); [discriminate|].
  intros [= <-]. auto.
Qed.

(** One turn: the line in the worker's hand and the queue, with what the
    turn appends, are what the turn delivers with the hand and the queue
    after it. *)
Lemma step_keeps_lines (tid : Tid) (st st1 : State S) :
  step tid st = Some st1 ->
  in_hand (worker st) ++ _messages (logger st) ++ appended (label tid st)
  = delivered (label tid st) ++ in_hand (worker st1) ++ _messages (logger st1).
Proof.
  destruct tid as [|i]; cbn [step label].
  - unfold step_worker.
    destruct (worker st) eqn:Hpc; cbn [in_hand appended delivered app];
      rewrite ?app_nil_r.
    + unfold stream_open. destruct (open (_stream (logger st))) as [ok s1].
      destruct ok; cbn [negb]; intros [= <-]; reflexivity.
    + destruct (_finish (logger st) =? 0); intros [= <-]; reflexivity.
    + destruct (negb (_messages_size (logger st) =? 0)); intros [= <-];
        reflexivity.
    + destruct (negb (_messages_size (logger st) =? 0)); intros [= <-];
        reflexivity.
    + intros Hs. destruct (acquire Worker st) as [st2|] eqn:Ha;
        [|discriminate]. cbn in Hs. injection Hs as <-.
      apply acquire_fields in Ha as [_ ->]. reflexivity.
    + unfold pop_front.
      destruct (_messages (logger st)) as [|message rest] eqn:Hq;
        intros [= <-]; cbn; rewrite ?Hq; reflexivity.
    + intros [= <-]. reflexivity.
    + intros [= <-]. reflexivity.
    + intros [= <-]. cbn. unfold stream_write.
      destruct (write message (_stream (logger st))). reflexivity.
    + destruct (_finish (logger st) =? 0); intros [= <-]; reflexivity.
    + intros Hs. destruct (acquire Worker st) as [st2|] eqn:Ha;
        [|discriminate]. cbn in Hs. injection Hs as <-.
      apply acquire_fields in Ha as [_ ->]. reflexivity.
    + intros [= <-]. reflexivity.
    + discriminate.
    + intros Hs. destruct (acquire Worker st) as [st2|] eqn:Ha;
        [|discriminate]. cbn in Hs. injection Hs as <-.
      apply acquire_fields in Ha as [_ ->]. reflexivity.
    + intros [= <-]. reflexivity.
    + intros [= <-]. reflexivity.
    + discriminate.
    + discriminate.
  - unfold step_client.
    destruct (nth_error (clients st) i) as [[|a rest]|]; try discriminate.
    destruct a; cbn [appended delivered app]; rewrite ?app_nil_r.
    + intros [= <-].
      destruct (wake_fields (with_clients (update_nth i rest (clients st)) st))
        as (Hl & _ & _ & Hh).
      rewrite Hl, Hh. reflexivity.
    + intros Ha. apply acquire_fields in Ha as [_ ->]. reflexivity.
    + intros [= <-]. cbn. reflexivity.
    + intros [= <-]. reflexivity.
    + intros [= <-]. reflexivity.
    + intros [= <-]. reflexivity.
Qed.

(** Over the turns of a schedule, from any state. *)
Lemma exec_keeps_lines (sched : list Tid) :
  forall st0 st : State S,
    exec sched st0 = Some st ->
    in_hand (worker st0) ++ _messages (logger st0)
      ++ appended (trace sched st0)
    = delivered (trace sched st0)
        ++ in_hand (worker st) ++ _messages (logger st).
Proof.
  induction sched as [|tid sched IH]; intros st0 st Hst0.
  - cbn in Hst0. injection Hst0 as ->. cbn. rewrite app_nil_r. reflexivity.
  - cbn [exec trace] in *.
    destruct (step tid st0) as [st1|] eqn:Hstep; [|discriminate].
    specialize (IH st1 st Hst0).
    pose proof (step_keeps_lines tid st0 st1 Hstep) as Hone.
    rewrite appended_app, delivered_app.
    rewrite <- app_assoc, <- IH.
    rewrite !app_assoc. f_equal. rewrite <- !app_assoc. exact Hone.
Qed.


Lemma quiet_pending (prog : list Atomic) : quiet prog -> pending prog = [].
Proof.
  induction prog as [|a prog IH]; [reflexivity|].
  destruct a; cbn; try tauto.
Qed.

Lemma pending_add_then_finish (es : list Entry) :
  pending (add_then_finish es) = es.
Proof.
  unfold add_then_finish.
  induction es as [|e es IH]; [reflexivity|].
  cbn. rewrite IH. reflexivity.
Qed.

Lemma finish_last_add_then_finish (es : list Entry) :
  finish_last (add_then_finish es).
Proof.
  unfold add_then_finish.
  induction es as [|e es IH]; cbn.
  - split; [lia | exact I].
  - split; [exact I | exact IH].
Qed.

Lemma line_of_formats (l l' : QLogger S) (e : Entry) :
  _format_string l = _format_string l' ->
  _datetime_format l = _datetime_format l' ->
  line_of l e = line_of l' e.
Proof. unfold line_of. intros -> ->. reflexivity. Qed.

Ltac inv_parts :=
  repeat match goal with
         | |- _ /\ _ => split
         end.

(** One turn keeps [drain_inv]; the entries the client has still to
    append lose the one the turn appends. *)
Lemma step_keeps_drain_inv (s : S) (prog : list Atomic) (tid : Tid)
  (st st1 : State S) :
  fst (open s) = true ->
  drain_inv s prog st ->
  step tid st = Some st1 ->
  exists prog1,
    drain_inv s prog1 st1 /\
    map (line_of (new s)) (pending prog)
    = appended (label tid st) ++ map (line_of (new s)) (pending prog1).
Proof.
  intros Hopen (Hcl & Hfs & Hdf & Hstream & Hfin0 & Hfin1 & Hmir & Hpast & Hleave).
  destruct tid as [|i]; cbn [step label].
  - (* the worker *)
    assert (Hlab : appended (match worker st with
                             | WWrite message => [Delivered message]
                             | _ => []
                             end) = []) by (destruct (worker st); reflexivity).
    rewrite Hlab. cbn [app].
    intros Hstep. exists prog. split; [|reflexivity].
    unfold step_worker in Hstep.
    destruct (worker st) eqn:Hpc; cbn [worker_stores past_finish leaving] in *.
    + (* WOpen *)
      unfold stream_open in Hstep. rewrite (Hstream eq_refl) in Hstep.
      destruct (open s) as [ok s1]. cbn [fst] in Hopen. subst ok.
      cbn [negb] in Hstep. injection Hstep as <-.
      unfold drain_inv. cbn. inv_parts; auto; try discriminate; try tauto.
    + destruct (_finish (logger st) =? 0) eqn:Hf; injection Hstep as <-;
        unfold drain_inv; cbn; inv_parts; auto; try discriminate; try tauto.
      intros _. apply Z.eqb_neq. exact Hf.
    + destruct (_messages_size (logger st) =? 0) eqn:Hsz; cbn [negb] in Hstep;
        injection Hstep as <-;
        unfold drain_inv; cbn; inv_parts; auto; try discriminate; try tauto.
      intros _. apply Z.eqb_eq in Hsz.
      assert (Hq : quiet prog) by (apply Hfin1, Hpast; exact I).
      assert (Hm : size_mirrors_queue (logger st)).
      { apply Hmir; [tauto|]. destruct prog as [|[] ?]; cbn in *; tauto. }
      unfold size_mirrors_queue in Hm. rewrite Hsz in Hm.
      destruct (_messages (logger st)); [reflexivity | cbn in Hm; lia].
    + destruct (negb (_messages_size (logger st) =? 0)); injection Hstep as <-;
        unfold drain_inv; cbn; inv_parts; auto; try discriminate; try tauto.
    + destruct (acquire Worker st) as [st2|] eqn:Ha; [|discriminate].
      cbn in Hstep. injection Hstep as <-.
      apply acquire_fields in Ha as [_ ->].
      unfold drain_inv; cbn; inv_parts; auto; try discriminate; try tauto.
    + unfold pop_front in Hstep.
      destruct (_messages (logger st)) as [|message rest] eqn:Hq;
        injection Hstep as <-;
        unfold drain_inv; cbn; rewrite ?Hq;
        inv_parts; auto; try discriminate; try tauto.
    + injection Hstep as <-.
      unfold drain_inv; cbn; inv_parts; auto; try discriminate; try tauto.
      intros _ _. reflexivity.
    + injection Hstep as <-.
      unfold drain_inv; cbn; inv_parts; auto; try discriminate; try tauto.
    + injection Hstep as <-. unfold stream_write.
      destruct (write message (_stream (logger st))) as [bytes s1].
      unfold drain_inv; cbn; inv_parts; auto; try discriminate; try tauto.
    + destruct (_finish (logger st) =? 0); injection Hstep as <-;
        unfold drain_inv; cbn; inv_parts; auto; try discriminate; try tauto.
    + destruct (acquire Worker st) as [st2|] eqn:Ha; [|discriminate].
      cbn in Hstep. injection Hstep as <-.
      apply acquire_fields in Ha as [_ ->].
      unfold drain_inv; cbn; inv_parts; auto; try discriminate; try tauto.
    + injection Hstep as <-.
      unfold drain_inv; cbn; inv_parts; auto; try discriminate; try tauto.
    + discriminate.
    + destruct (acquire Worker st) as [st2|] eqn:Ha; [|discriminate].
      cbn in Hstep. injection Hstep as <-.
      apply acquire_fields in Ha as [_ ->].
      unfold drain_inv; cbn; inv_parts; auto; try discriminate; try tauto.
    + injection Hstep as <-.
      unfold drain_inv; cbn; inv_parts; auto; try discriminate; try tauto.
    + injection Hstep as <-.
      unfold drain_inv; cbn; inv_parts; auto; try discriminate; try tauto.
    + discriminate.
    + discriminate.
  - (* the client *)
    unfold step_client. rewrite Hcl.
    destruct i as [|i]; [|destruct i; discriminate].
    cbn [nth_error update_nth].
    destruct prog as [|a rest]; [discriminate|].
    destruct a; cbn [pending map appended app]; intros Hstep;
      exists rest.
    + (* AWakeOne *)
      injection Hstep as <-.
      split; [|reflexivity].
      unfold drain_inv, wake. cbn in Hfin0, Hfin1, Hmir |- *.
      destruct (worker st) eqn:Hpc; cbn; rewrite ?Hpc;
        cbn [worker_stores past_finish leaving] in *;
        inv_parts; auto; try discriminate; try tauto.
    + apply acquire_fields in Hstep as [_ ->].
      split; [|reflexivity].
      unfold drain_inv. cbn in Hfin0, Hfin1, Hmir |- *.
      inv_parts; auto; try discriminate; try tauto.
    + injection Hstep as <-.
      assert (Hf0 : _finish (logger st) = 0).
      { destruct (Z.eq_dec (_finish (logger st)) 0) as [Hz|Hnz]; [exact Hz|].
        destruct (Hfin1 Hnz). }
      destruct (Hfin0 Hf0) as [Hnext Hrest].
      split.
      * unfold drain_inv. cbn.
        inv_parts; auto; try discriminate; try tauto.
        intros Hl. exfalso. apply Hpast; [|exact Hf0].
        destruct (worker st); cbn in *; tauto.
      * rewrite (line_of_formats (logger st) (new s) e Hfs Hdf). reflexivity.
    + injection Hstep as <-.
      split; [|reflexivity].
      assert (Hf0 : _finish (logger st) = 0).
      { destruct (Z.eq_dec (_finish (logger st)) 0) as [Hz|Hnz]; [exact Hz|].
        destruct (Hfin1 Hnz). }
      unfold drain_inv. cbn in Hfin0 |- *.
      inv_parts; auto; try discriminate; try tauto.
      intros _ _. reflexivity.
    + injection Hstep as <-.
      split; [|reflexivity].
      assert (Hv : v <> 0 /\ quiet rest).
      { destruct (Z.eq_dec (_finish (logger st)) 0) as [Hz|Hnz].
        - exact (Hfin0 Hz).
        - exact (Hfin1 Hnz). }
      destruct Hv as [Hv Hq].
      unfold drain_inv. cbn in Hmir |- *.
      inv_parts; auto; try discriminate; try tauto.
    + injection Hstep as <-.
      split; [|reflexivity].
      unfold drain_inv. cbn in Hfin0, Hfin1, Hmir |- *.
      inv_parts; auto; try discriminate; try tauto.
Qed.


Lemma exec_keeps_drain_inv (s : S) (sched : list Tid) :
  fst (open s) = true ->
  forall (prog0 : list Atomic) (st0 st : State S),
    drain_inv s prog0 st0 ->
    exec sched st0 = Some st ->
    exists prog,
      drain_inv s prog st /\
      map (line_of (new s)) (pending prog0)
      = appended (trace sched st0) ++ map (line_of (new s)) (pending prog).
Proof.
  intros Hopen.
  induction sched as [|tid sched IH]; intros prog0 st0 st Hinv Hexec.
  - cbn in Hexec. injection Hexec as ->. exists prog0. auto.
  - cbn [exec trace] in *.
    destruct (step tid st0) as [st1|] eqn:Hstep; [|discriminate].
    destruct (step_keeps_drain_inv s prog0 tid st0 st1 Hopen Hinv Hstep)
      as (prog1 & Hinv1 & Hp1).
    destruct (IH prog1 st1 st Hinv1 Hexec) as (prog & Hinv2 & Hp2).
    exists prog. split; [exact Hinv2|].
    rewrite appended_app, <- app_assoc, <- Hp2. exact Hp1.
Qed.


End Delivery.
End DeliveryFacts.

(** ** The mutex *)

Module MutexFacts.
Import Interleaving DeliveryFacts.

Section Mutex.
Context {S : Type} `{QLoggerStream S}.

Lemma nth_error_update_nth {A : Type} (i j : nat) (x : A) (xs : list A) :
  nth_error (update_nth i x xs) j
  = if Nat.eqb i j then option_map (fun _ => x) (nth_error xs j)
    else nth_error xs j.
Proof.
  revert i j. induction xs as [|y xs IH]; intros i j.
  - cbn. destruct i, j; cbn; try reflexivity; destruct (Nat.eqb i j); reflexivity.
  - destruct i as [|i], j as [|j]; cbn; try reflexivity. apply IH.
Qed.

Lemma disciplined_client_steps (calls : list ClientCall) :
  disciplined false (client_steps calls).
Proof.
  unfold client_steps.
  induction calls as [|c calls IH]; [reflexivity|].
  destruct c; cbn; repeat split; exact IH.
Qed.

Lemma holds_client (i : nat) (st : State S) :
  holds (Client i) st = true <-> mutex st = Some (Client i).
Proof.
  unfold holds. destruct (mutex st) as [[|j]|]; split; try discriminate.
  - intros Hij. apply Nat.eqb_eq in Hij. subst. reflexivity.
  - intros [= ->]. apply Nat.eqb_refl.
Qed.

Lemma holds_worker (st : State S) :
  holds Worker st = true <-> mutex st = Some Worker.
Proof.
  unfold holds. destruct (mutex st) as [[|j]|]; split; try discriminate;
    reflexivity.
Qed.

(** The worker's turn keeps [lock_inv]. *)
Lemma step_worker_keeps_lock_inv (st st1 : State S) :
  lock_inv st -> step_worker st = Some st1 -> lock_inv st1.
Proof.
  intros [Hcl Hw] Hstep. unfold step_worker in Hstep.
  assert (Hfree : forall pc st2,
             acquire Worker st = Some st2 ->
             worker_inside pc = true ->
             worker_inside (worker st) = false ->
             lock_inv (with_worker pc st2)).
  { intros pc st2 Ha Hpc Hout. apply acquire_fields in Ha as [Hm ->].
    split; cbn.
    - intros i prog Hi. specialize (Hcl i prog Hi).
      unfold holds in *. cbn. rewrite Hm in Hcl. exact Hcl.
    - unfold holds. cbn. symmetry. exact Hpc. }
  assert (Hrelease : forall pc,
             worker_inside (worker st) = true ->
             worker_inside pc = false ->
             lock_inv (with_worker pc (with_mutex None st))).
  { intros pc Hin Hpc. rewrite Hin in Hw. apply holds_worker in Hw.
    split; cbn.
    - intros i prog Hi. specialize (Hcl i prog Hi).
      unfold holds in *. cbn. rewrite Hw in Hcl. exact Hcl.
    - unfold holds. cbn. symmetry. exact Hpc. }
  assert (Hsame : forall pc l,
             worker_inside pc = worker_inside (worker st) ->
             lock_inv (with_worker pc (with_logger l st))).
  { intros pc l Hpc. split; cbn.
    - intros i prog Hi. exact (Hcl i prog Hi).
    - unfold holds in *. cbn. rewrite Hpc. exact Hw. }
  assert (Hsame' : forall pc,
             worker_inside pc = worker_inside (worker st) ->
             lock_inv (with_worker pc st)).
  { intros pc Hpc. split; cbn.
    - intros i prog Hi. exact (Hcl i prog Hi).
    - unfold holds in *. cbn. rewrite Hpc. exact Hw. }
  destruct (worker st) eqn:Hpc.
  - unfold stream_open in Hstep.
    destruct (open (_stream (logger st))) as [ok s1].
    destruct ok; cbn [negb] in Hstep; injection Hstep as <-;
      apply Hsame; reflexivity.
  - destruct (_finish (logger st) =? 0); injection Hstep as <-;
      apply Hsame'; reflexivity.
  - destruct (negb (_messages_size (logger st) =? 0)); injection Hstep as <-;
      apply Hsame'; reflexivity.
  - destruct (negb (_messages_size (logger st) =? 0)); injection Hstep as <-;
      apply Hsame'; reflexivity.
  - destruct (acquire Worker st) as [st2|] eqn:Ha; [|discriminate].
    cbn in Hstep. injection Hstep as <-. apply Hfree; auto.
  - unfold pop_front in Hstep.
    destruct (_messages (logger st)) as [|message rest].
    + injection Hstep as <-. apply Hsame'; reflexivity.
    + injection Hstep as <-. apply Hsame; reflexivity.
  - injection Hstep as <-. apply Hsame; reflexivity.
  - injection Hstep as <-. apply Hrelease; reflexivity.
  - injection Hstep as <-. apply Hsame; reflexivity.
  - destruct (_finish (logger st) =? 0); injection Hstep as <-;
      apply Hsame'; reflexivity.
  - destruct (acquire Worker st) as [st2|] eqn:Ha; [|discriminate].
    cbn in Hstep. injection Hstep as <-. apply Hfree; auto.
  - injection Hstep as <-. apply Hrelease; reflexivity.
  - discriminate.
  - destruct (acquire Worker st) as [st2|] eqn:Ha; [|discriminate].
    cbn in Hstep. injection Hstep as <-. apply Hfree; auto.
  - injection Hstep as <-. apply Hrelease; reflexivity.
  - injection Hstep as <-. apply Hsame; reflexivity.
  - discriminate.
  - discriminate.
Qed.


(** A client's turn, seen from the mutex. *)
Lemma client_turn (i : nat) (a : Atomic) (rest : list Atomic)
  (st st' : State S) :
  nth_error (clients st) i = Some (a :: rest) ->
  lock_inv st ->
  clients st' = update_nth i rest (clients st) ->
  worker_inside (worker st') = worker_inside (worker st) ->
  holds Worker st' = holds Worker st ->
  (forall j, j <> i -> holds (Client j) st' = holds (Client j) st) ->
  disciplined (holds (Client i) st') rest ->
  lock_inv st'.
Proof.
  intros Hi [Hcl Hw] Hcs Hin Hhw Hothers Hme. split.
  - intros j prog Hj. rewrite Hcs, nth_error_update_nth in Hj.
    destruct (Nat.eqb_spec i j) as [<-|Hne].
    + rewrite Hi in Hj. cbn in Hj. injection Hj as <-. exact Hme.
    + rewrite Hothers by auto. exact (Hcl j prog Hj).
  - rewrite Hhw, Hin. exact Hw.
Qed.

Lemma step_client_keeps_lock_inv (i : nat) (st st1 : State S) :
  lock_inv st -> step_client i st = Some st1 -> lock_inv st1.
Proof.
  intros Hinv Hstep. unfold step_client in Hstep.
  destruct (nth_error (clients st) i) as [[|a rest]|] eqn:Hi;
    try discriminate.
  pose proof (proj1 Hinv i _ Hi) as Hd.
  destruct a; cbn [disciplined] in Hd; destruct Hd as [Hheld Hrest].
  - injection Hstep as <-.
    destruct (wake_fields (with_clients (update_nth i rest (clients st)) st))
      as (_ & Hm & Hc & _).
    apply (client_turn i AWakeOne rest st); auto.
    + unfold wake. cbn. destruct (worker st) eqn:Hpc; cbn; rewrite ?Hpc;
        reflexivity.
    + unfold holds. rewrite Hm. reflexivity.
    + intros j _. unfold holds. rewrite Hm. reflexivity.
    + replace (holds (Client i)
                 (wake (with_clients (update_nth i rest (clients st)) st)))
        with (holds (Client i) st) by (unfold holds; rewrite Hm; reflexivity).
      rewrite Hheld. exact Hrest.
  - apply acquire_fields in Hstep as [Hm ->]. cbn [mutex with_clients] in Hm.
    apply (client_turn i ALock rest st); auto.
    + unfold holds. cbn. rewrite Hm. reflexivity.
    + intros j Hne. unfold holds. cbn. rewrite Hm.
      apply Nat.eqb_neq. auto.
    + unfold holds. cbn. rewrite Nat.eqb_refl. exact Hrest.
  - injection Hstep as <-.
    apply (client_turn i (AAppend e) rest st); auto.
    change (holds (Client i) _) with (holds (Client i) st).
    rewrite Hheld. exact Hrest.
  - injection Hstep as <-.
    apply (client_turn i AStoreSize rest st); auto.
    change (holds (Client i) _) with (holds (Client i) st).
    rewrite Hheld. exact Hrest.
  - injection Hstep as <-.
    apply (client_turn i (AStoreFinish v) rest st); auto.
    change (holds (Client i) _) with (holds (Client i) st).
    rewrite Hheld. exact Hrest.
  - injection Hstep as <-.
    apply holds_client in Hheld.
    apply (client_turn i AUnlock rest st); auto.
    + unfold holds. cbn. rewrite Hheld. reflexivity.
    + intros j Hne. unfold holds. cbn. rewrite Hheld.
      symmetry. apply Nat.eqb_neq. auto.
Qed.

Lemma exec_keeps_lock_inv (sched : list Tid) :
  forall st0 st : State S,
    lock_inv st0 -> exec sched st0 = Some st -> lock_inv st.
Proof.
  induction sched as [|tid sched IH]; intros st0 st Hinv Hexec.
  - cbn in Hexec. injection Hexec as <-. exact Hinv.
  - cbn [exec] in Hexec.
    destruct (step tid st0) as [st1|] eqn:Hstep; [|discriminate].
    apply (IH st1 st); [|exact Hexec].
    destruct tid as [|i]; cbn [step] in Hstep.
    + exact (step_worker_keeps_lock_inv st0 st1 Hinv Hstep).
    + exact (step_client_keeps_lock_inv i st0 st1 Hinv Hstep).
Qed.

(** X13: any number of clients, each with any sequence of calls of
    [addMessage] and [finishWriting], and the worker, in any order of
    turns.  A client whose next step reads or changes the queue, its
    counter or the finish flag, or unlocks, holds the mutex; so does the
    worker between its lock and its unlock; and the mutex is with the
    worker at no other place of [run].  Two threads are never there at
    once. *)
Theorem queue_is_touched_under_the_mutex
  (s : S) (callss : list (list ClientCall)) (schedule : list Tid)
  (st : State S) :
  exec schedule (init s (map client_steps callss)) = Some st ->
  (forall i a rest,
     nth_error (clients st) i = Some (a :: rest) ->
     under_lock a = true -> mutex st = Some (Client i)) /\
  (worker_inside (worker st) = true <-> mutex st = Some Worker) /\
  (forall i j a b rest rest',
     nth_error (clients st) i = Some (a :: rest) ->
     nth_error (clients st) j = Some (b :: rest') ->
     under_lock a = true -> under_lock b = true -> i = j) /\
  (forall i a rest,
     nth_error (clients st) i = Some (a :: rest) ->
     under_lock a = true -> worker_inside (worker st) = false).
Proof.
  intros Hexec.
  assert (Hinit : lock_inv (init s (map client_steps callss))).
  { split; [|reflexivity].
    intros i prog Hi. cbn in Hi.
    apply nth_error_In, in_map_iff in Hi as (calls & <- & _).
    apply disciplined_client_steps. }
  destruct (exec_keeps_lock_inv schedule _ _ Hinit Hexec) as [Hcl Hw].
  assert (Hclient : forall i a rest,
             nth_error (clients st) i = Some (a :: rest) ->
             under_lock a = true -> mutex st = Some (Client i)).
  { intros i a rest Hi Ha. specialize (Hcl i _ Hi).
    apply holds_client.
    destruct a; cbn in Ha, Hcl; try discriminate; tauto. }
  split; [exact Hclient|]. split; [|split].
  - rewrite <- Hw. apply holds_worker.
  - intros i j a b rest rest' Hi Hj Ha Hb.
    pose proof (Hclient i a rest Hi Ha) as Hmi.
    pose proof (Hclient j b rest' Hj Hb) as Hmj.
    congruence.
  - intros i a rest Hi Ha.
    pose proof (Hclient i a rest Hi Ha) as Hmi.
    rewrite <- Hw. unfold holds. rewrite Hmi. reflexivity.
Qed.


Lemma appends_stored_client_steps (calls : list ClientCall) :
  appends_stored (client_steps calls).
Proof.
  unfold client_steps.
  induction calls as [|c calls IH]; [exact I|].
  destruct c; cbn; repeat split; exact IH.
Qed.

Lemma appends_stored_tail (a : Atomic) (rest : list Atomic) :
  appends_stored (a :: rest) -> appends_stored rest.
Proof. destruct a; cbn; tauto. Qed.

(** A turn of the worker that leaves queue and counter alone and neither
    comes from nor goes to the store of the size. *)
Lemma worker_turn_keeps_mirror (pc : WorkerPc) (st st' : State S) :
  mirror_inv st ->
  clients st' = clients st ->
  _messages (logger st') = _messages (logger st) ->
  _messages_size (logger st') = _messages_size (logger st) ->
  ~ worker_stores (worker st) ->
  worker st' = pc ->
  mirror_inv st'.
Proof.
  intros [Hst Hm] Hcs Hq Hsz Hns Hpc. split.
  - intros i prog Hi. rewrite Hcs in Hi. exact (Hst i prog Hi).
  - intros Hnd. unfold size_mirrors_queue. rewrite Hq, Hsz. apply Hm.
    intros [[message Hw]|(i & rest & Hi)].
    + rewrite Hw in Hns. apply Hns. exact I.
    + apply Hnd. right. exists i, rest. rewrite Hcs. exact Hi.
Qed.

Lemma step_worker_keeps_mirror_inv (st st1 : State S) :
  mirror_inv st -> step_worker st = Some st1 -> mirror_inv st1.
Proof.
  intros Hinv Hstep. unfold step_worker in Hstep.
  destruct (worker st) eqn:Hpc.
  - unfold stream_open in Hstep.
    destruct (open (_stream (logger st))) as [ok s1].
    destruct ok; cbn [negb] in Hstep; injection Hstep as <-;
      eapply worker_turn_keeps_mirror; eauto; rewrite Hpc; cbn; tauto.
  - destruct (_finish (logger st) =? 0); injection Hstep as <-;
      eapply worker_turn_keeps_mirror; eauto; rewrite Hpc; cbn; tauto.
  - destruct (negb (_messages_size (logger st) =? 0)); injection Hstep as <-;
      eapply worker_turn_keeps_mirror; eauto; rewrite Hpc; cbn; tauto.
  - destruct (negb (_messages_size (logger st) =? 0)); injection Hstep as <-;
      eapply worker_turn_keeps_mirror; eauto; rewrite Hpc; cbn; tauto.
  - destruct (acquire Worker st) as [st2|] eqn:Ha; [|discriminate].
    cbn in Hstep. injection Hstep as <-. apply acquire_fields in Ha as [_ ->].
    eapply worker_turn_keeps_mirror; eauto; rewrite Hpc; cbn; tauto.
  - unfold pop_front in Hstep.
    destruct (_messages (logger st)) as [|message rest] eqn:Hq.
    + injection Hstep as <-.
      eapply worker_turn_keeps_mirror; eauto; rewrite Hpc; cbn; tauto.
    + injection Hstep as <-. split.
      * exact (proj1 Hinv).
      * intros Hnd. exfalso. apply Hnd. left. exists message. reflexivity.
  - injection Hstep as <-. split.
    + exact (proj1 Hinv).
    + intros _. reflexivity.
  - injection Hstep as <-.
    eapply worker_turn_keeps_mirror; eauto; rewrite Hpc; cbn; tauto.
  - injection Hstep as <-. unfold stream_write.
    destruct (write message (_stream (logger st))) as [bytes s1].
    eapply worker_turn_keeps_mirror; eauto; rewrite Hpc; cbn; tauto.
  - destruct (_finish (logger st) =? 0); injection Hstep as <-;
      eapply worker_turn_keeps_mirror; eauto; rewrite Hpc; cbn; tauto.
  - destruct (acquire Worker st) as [st2|] eqn:Ha; [|discriminate].
    cbn in Hstep. injection Hstep as <-. apply acquire_fields in Ha as [_ ->].
    eapply worker_turn_keeps_mirror; eauto; rewrite Hpc; cbn; tauto.
  - injection Hstep as <-.
    eapply worker_turn_keeps_mirror; eauto; rewrite Hpc; cbn; tauto.
  - discriminate.
  - destruct (acquire Worker st) as [st2|] eqn:Ha; [|discriminate].
    cbn in Hstep. injection Hstep as <-. apply acquire_fields in Ha as [_ ->].
    eapply worker_turn_keeps_mirror; eauto; rewrite Hpc; cbn; tauto.
  - injection Hstep as <-.
    eapply worker_turn_keeps_mirror; eauto; rewrite Hpc; cbn; tauto.
  - injection Hstep as <-.
    eapply worker_turn_keeps_mirror; eauto; rewrite Hpc; cbn; tauto.
  - discriminate.
  - discriminate.
Qed.

(** A turn of a client that leaves queue and counter alone and is not the
    store of the size. *)
Lemma client_turn_keeps_mirror (i : nat) (a : Atomic) (rest : list Atomic)
  (st st' : State S) :
  mirror_inv st ->
  nth_error (clients st) i = Some (a :: rest) ->
  a <> AStoreSize ->
  clients st' = update_nth i rest (clients st) ->
  _messages (logger st') = _messages (logger st) ->
  _messages_size (logger st') = _messages_size (logger st) ->
  (forall message, worker st = WStoreSize message ->
                   worker st' = WStoreSize message) ->
  mirror_inv st'.
Proof.
  intros [Hst Hm] Hi Ha Hcs Hq Hsz Hw. split.
  - intros j prog Hj. rewrite Hcs, nth_error_update_nth in Hj.
    destruct (Nat.eqb_spec i j) as [<-|Hne].
    + rewrite Hi in Hj. cbn in Hj. injection Hj as <-.
      exact (appends_stored_tail a rest (Hst i _ Hi)).
    + exact (Hst j prog Hj).
  - intros Hnd. unfold size_mirrors_queue. rewrite Hq, Hsz. apply Hm.
    intros [[message Hwm]|(j & rest' & Hj)].
    + apply Hnd. left. exists message. exact (Hw message Hwm).
    + destruct (Nat.eqb_spec i j) as [<-|Hne].
      * rewrite Hi in Hj. injection Hj as -> _. apply Ha. reflexivity.
      * apply Hnd. right. exists j, rest'.
        rewrite Hcs, nth_error_update_nth.
        destruct (Nat.eqb_spec i j); [contradiction | exact Hj].
Qed.

Lemma step_client_keeps_mirror_inv (i : nat) (st st1 : State S) :
  mirror_inv st -> step_client i st = Some st1 -> mirror_inv st1.
Proof.
  intros Hinv Hstep. unfold step_client in Hstep.
  destruct (nth_error (clients st) i) as [[|a rest]|] eqn:Hi;
    try discriminate.
  destruct a.
  - injection Hstep as <-.
    destruct (wake_fields (with_clients (update_nth i rest (clients st)) st))
      as (Hl & _ & Hc & _).
    apply (client_turn_keeps_mirror i AWakeOne rest st); auto;
      try discriminate; try (rewrite Hl; reflexivity).
    intros message Hw. unfold wake. cbn. rewrite Hw. cbn. exact Hw.
  - apply acquire_fields in Hstep as [_ ->].
    apply (client_turn_keeps_mirror i ALock rest st); auto; discriminate.
  - injection Hstep as <-. split.
    + intros j prog Hj. cbn in Hj. rewrite nth_error_update_nth in Hj.
      destruct (Nat.eqb_spec i j) as [<-|Hne].
      * rewrite Hi in Hj. cbn in Hj. injection Hj as <-.
        exact (appends_stored_tail _ rest (proj1 Hinv i _ Hi)).
      * exact (proj1 Hinv j prog Hj).
    + intros Hnd. exfalso. apply Hnd. right.
      pose proof (proj1 Hinv i _ Hi) as Hs. cbn in Hs. destruct Hs as [Hh _].
      destruct rest as [|[] rest']; cbn in Hh; try contradiction.
      exists i, rest'. cbn. rewrite nth_error_update_nth, Nat.eqb_refl, Hi.
      reflexivity.
  - injection Hstep as <-. split.
    + intros j prog Hj. cbn in Hj. rewrite nth_error_update_nth in Hj.
      destruct (Nat.eqb_spec i j) as [<-|Hne].
      * rewrite Hi in Hj. cbn in Hj. injection Hj as <-.
        exact (appends_stored_tail _ rest (proj1 Hinv i _ Hi)).
      * exact (proj1 Hinv j prog Hj).
    + intros _. reflexivity.
  - injection Hstep as <-.
    apply (client_turn_keeps_mirror i (AStoreFinish v) rest st); auto;
      discriminate.
  - injection Hstep as <-.
    apply (client_turn_keeps_mirror i AUnlock rest st); auto; discriminate.
Qed.

Lemma exec_keeps_mirror_inv (sched : list Tid) :
  forall st0 st : State S,
    mirror_inv st0 -> exec sched st0 = Some st -> mirror_inv st.
Proof.
  induction sched as [|tid sched IH]; intros st0 st Hinv Hexec.
  - cbn in Hexec. injection Hexec as <-. exact Hinv.
  - cbn [exec] in Hexec.
    destruct (step tid st0) as [st1|] eqn:Hstep; [|discriminate].
    apply (IH st1 st); [|exact Hexec].
    destruct tid as [|i]; cbn [step] in Hstep.
    + exact (step_worker_keeps_mirror_inv st0 st1 Hinv Hstep).
    + exact (step_client_keeps_mirror_inv i st0 st1 Hinv Hstep).
Qed.

(** X14: with any number of clients and any order of turns, the size
    counter equals the length of the queue whenever the mutex is free, and
    more precisely whenever no thread stands between its change of the
    queue and its store of the size.  The worker reads the counter
    without the mutex: what it reads then may be behind the queue. *)
Theorem size_counter_mirrors_queue_when_unlocked
  (s : S) (callss : list (list ClientCall)) (schedule : list Tid)
  (st : State S) :
  exec schedule (init s (map client_steps callss)) = Some st ->
  (~ size_is_due st -> size_mirrors_queue (logger st)) /\
  (mutex st = None -> size_mirrors_queue (logger st)).
Proof.
  intros Hexec.
  assert (Hm0 : mirror_inv (init s (map client_steps callss))).
  { split.
    - intros i prog Hi. cbn in Hi.
      apply nth_error_In, in_map_iff in Hi as (calls & <- & _).
      apply appends_stored_client_steps.
    - intros _. reflexivity. }
  assert (Hl0 : lock_inv (init s (map client_steps callss))).
  { split; [|reflexivity].
    intros i prog Hi. cbn in Hi.
    apply nth_error_In, in_map_iff in Hi as (calls & <- & _).
    apply disciplined_client_steps. }
  destruct (exec_keeps_mirror_inv schedule _ _ Hm0 Hexec) as [_ Hm].
  destruct (exec_keeps_lock_inv schedule _ _ Hl0 Hexec) as [Hcl Hw].
  split; [exact Hm|].
  intros Hfree. apply Hm.
  intros [[message Hpc]|(i & rest & Hi)].
  - rewrite Hpc in Hw. cbn in Hw. unfold holds in Hw. rewrite Hfree in Hw.
    discriminate.
  - specialize (Hcl i _ Hi). cbn in Hcl. destruct Hcl as [Hh _].
    unfold holds in Hh. rewrite Hfree in Hh. discriminate.
Qed.


(** X15: the steps of a call taken in one go, with the mutex free at the
    start and no turn of another thread in between, do to the logger what
    the member function does; the mutex is free again, the call is off the
    client's list, and the worker is woken if it slept. *)
Theorem call_without_interference
  (c : ClientCall) (rest : list Atomic) (others : list (list Atomic))
  (st : State S) :
  mutex st = None ->
  clients st = (call_steps c ++ rest) :: others ->
  exists st',
    exec (repeat (Client 0) (List.length (call_steps c))) st = Some st' /\
    logger st' = object (call_op c (logger st)) /\
    mutex st' = None /\
    clients st' = rest :: others /\
    worker st' = worker (wake st).
Proof.
  intros Hm Hcs. destruct st as [l m w cs]. cbn in Hm, Hcs. subst m cs.
  destruct c as [e|]; destruct w; cbn; eexists; repeat split.
Qed.

End Mutex.
End MutexFacts.

(** ** More statements at the sample inputs *)

Lemma run_without_finish_drains_then_waits_witness :
  fst (open (_stream waiting_logger)) = true /\
  size_mirrors_queue waiting_logger /\
  _finish waiting_logger = 0 /\
  (List.length (_messages waiting_logger) < 3)%nat /\
  result (run 3 waiting_logger) = Blocked /\
  written (events (run 3 waiting_logger)) = _messages waiting_logger.
Proof.
  assert (Hopen : fst (open (_stream waiting_logger)) = true) by reflexivity.
  assert (Hinv : size_mirrors_queue waiting_logger) by reflexivity.
  assert (Hfin : _finish waiting_logger = 0) by reflexivity.
  assert (Hfuel : (List.length (_messages waiting_logger) < 3)%nat)
    by (cbn; lia).
  split; [exact Hopen|]. split; [exact Hinv|]. split; [exact Hfin|].
  split; [exact Hfuel|].
  destruct (run_without_finish_drains_then_waits 3 waiting_logger
              Hopen Hinv Hfin Hfuel) as (Hres & Hw & _).
  split; [exact Hres | exact Hw].
Defined.

Lemma delete_discards_queue_witness :
  let l := new {| debug_output := [] |} in
  size_mirrors_queue l /\
  List.length (_messages (object (addMessages [hello; bye] l))) = 2%nat /\
  written (events (delete (object (addMessages [hello; bye] l)))) = [].
Proof.
  cbv zeta.
  assert (Hinv : size_mirrors_queue (new {| debug_output := [] |}))
    by reflexivity.
  split; [exact Hinv|].
  destruct (delete_discards_queue [hello; bye] (new {| debug_output := [] |})
              Hinv) as (Hq & Hw & _).
  split; [rewrite Hq; reflexivity | exact Hw].
Defined.

Lemma debug_stream_prints_every_line_witness :
  let d := {| debug_output := ["earlier"] |} in
  (List.length [hello; bye] < 3)%nat /\
  debug_output
    (_stream (object (run 3 (object ((addMessages [hello; bye] ;;
                                      finishWriting) (new d))))))
  = "earlier" :: map (line_of (new d)) [hello; bye].
Proof.
  cbv zeta.
  assert (Hfuel : (List.length [hello; bye] < 3)%nat) by (cbn; lia).
  split; [exact Hfuel|].
  destruct (debug_stream_prints_every_line {| debug_output := ["earlier"] |}
              [hello; bye] 3 Hfuel) as (_ & Hout & _).
  exact Hout.
Defined.

Lemma default_lines_are_written_witness :
  let s := {| debug_output := [] |} in
  fst (open s) = true /\
  (List.length [hello; bye] < 3)%nat /\
  Forall (fun e =>
            QString.no_percent (entry_clock e "dd.MM.yyyy hh:mm:ss") = true)
    [hello; bye] /\
  written
    (events (run 3 (object ((addMessages [hello; bye] ;; finishWriting)
                              (new s)))))
  = [("[02.11.2026 10:00:00] INFO hello" ++ newline)%string;
     ("[02.11.2026 10:00:01] FATAL bye" ++ newline)%string].
Proof.
  cbv zeta.
  assert (Hopen : fst (open {| debug_output := [] |}) = true) by reflexivity.
  assert (Hfuel : (List.length [hello; bye] < 3)%nat) by (cbn; lia).
  assert (Hclock : Forall (fun e =>
                             QString.no_percent
                               (entry_clock e "dd.MM.yyyy hh:mm:ss") = true)
                     [hello; bye]) by (repeat constructor).
  split; [exact Hopen|]. split; [exact Hfuel|]. split; [exact Hclock|].
  destruct (default_lines_are_written {| debug_output := [] |} [hello; bye] 3
              Hopen Hfuel Hclock) as (_ & Hw).
  exact Hw.
Defined.

Lemma flush_counter_stays_in_range_witness :
  Forall int_rate sample_calls /\
  let fs := fs_calls sample_calls (FileStream.new "test.log")
            : QLoggerFileStream MemFile in
  0 <= _flush_count fs /\ int_add (_flush_count fs) 1 = _flush_count fs + 1.
Proof.
  assert (Hrates : Forall int_rate sample_calls).
  { unfold sample_calls.
    repeat constructor; unfold in_int, INT_MIN, INT_MAX; lia. }
  split; [exact Hrates|]. cbv zeta.
  destruct (flush_counter_stays_in_range (F := MemFile) "test.log"
              sample_calls Hrates) as (Hc & _ & _ & Hadd & _).
  split; [exact Hc | exact Hadd].
Defined.

Lemma flush_cadence_survives_other_calls_witness :
  in_int 2 /\ 0 < 2 /\ keeps_count FsFlush = true /\
  let fs0 := FileStream.setFlushRate 2 sample_file_stream in
  let fs3 := FileStream.write_all ["d"; "e"]
               (fs_call FsFlush (FileStream.write_all ["a"; "c"; "f"] fs0)) in
  flushes (journal (_file fs3)) - flushes (journal (_file fs0)) = 3 /\
  _flush_count fs3 = 0.
Proof.
  assert (Hin : in_int 2) by (unfold in_int, INT_MIN, INT_MAX; lia).
  assert (Hpos : 0 < 2) by lia.
  assert (Hk : keeps_count FsFlush = true) by reflexivity.
  split; [exact Hin|]. split; [exact Hpos|]. split; [exact Hk|]. cbv zeta.
  destruct (flush_cadence_survives_other_calls sample_file_stream 2
              ["a"; "c"; "f"] ["d"; "e"] FsFlush Hin Hpos Hk)
    as (Hf & Hc & _).
  split.
  - rewrite Hf. vm_compute. reflexivity.
  - rewrite Hc. vm_compute. reflexivity.
Defined.

Lemma file_logger_journal_witness :
  fst (dev_open (dev_new "test.log" : MemFile)) = true /\
  (List.length [hello; bye] < 3)%nat /\
  file_writes
    (journal
       (_file
          (_stream
             (object
                (run 3 (object ((addMessages [hello; bye] ;; finishWriting)
                                  (new (FileStream.new "test.log"
                                        : QLoggerFileStream MemFile)))))))))
  = map (line_of (new (FileStream.new "test.log" : QLoggerFileStream MemFile)))
      [hello; bye].
Proof.
  assert (Hdev : fst (dev_open (dev_new "test.log" : MemFile)) = true)
    by reflexivity.
  assert (Hfuel : (List.length [hello; bye] < 3)%nat) by (cbn; lia).
  split; [exact Hdev|]. split; [exact Hfuel|].
  destruct (file_logger_journal (F := MemFile) "test.log" [hello; bye] 3
              Hdev Hfuel) as (_ & _ & Hw & _).
  exact Hw.
Defined.

Lemma socket_logger_journal_witness :
  let ss := SocketStream.new sample_socket "logs.example.org" 6514 in
  (List.length [hello; bye] < 3)%nat /\
  fst (SocketStream.open ss) = true /\
  exists middle,
    socket_journal
      (_socket
         (_stream
            (object (run 3 (object ((addMessages [hello; bye] ;;
                                     finishWriting) (new ss)))))))
    = ConnectToHostEncrypted "logs.example.org" 6514
        :: WaitForConnected true :: middle ++ [DisconnectFromHost] /\
    waited_writes middle = Some (map (line_of (new ss)) [hello; bye]).
Proof.
  cbv zeta.
  assert (Hfuel : (List.length [hello; bye] < 3)%nat) by (cbn; lia).
  assert (Hopen : fst (SocketStream.open
                         (SocketStream.new sample_socket "logs.example.org"
                            6514)) = true) by reflexivity.
  split; [exact Hfuel|]. split; [exact Hopen|].
  destruct (socket_logger_journal sample_socket "logs.example.org" 6514
              [hello; bye] 3 Hfuel) as (_ & _ & Hok).
  destruct (Hok Hopen) as (Hj & _). exact Hj.
Defined.

Module InterleavingWitnesses.
Import Interleaving.

Lemma addMessage_wake_lost_witness :
  let s := {| debug_output := [] |} in
  fst (open s) = true /\
  exists st,
    exec (to_sleep ++ [Client 0] ++ back_to_sleep ++ repeat (Client 0) 4)
      (init s [addMessage_steps hello]) = Some st /\
    worker st = WAsleep /\
    _messages (logger st) = [line_of (new s) hello].
Proof.
  cbv zeta.
  assert (Hopen : fst (open {| debug_output := [] |}) = true) by reflexivity.
  split; [exact Hopen|].
  destruct (InterleavingFacts.addMessage_wake_lost {| debug_output := [] |}
              hello Hopen) as (st & Hexec & Hw & Hq & _).
  exists st. auto.
Defined.

Lemma finishWriting_wake_lost_witness :
  let s := {| debug_output := [] |} in
  fst (open s) = true /\
  exists st,
    exec (to_sleep ++ [Client 0] ++ back_to_sleep ++ repeat (Client 0) 3)
      (init s [finishWriting_steps]) = Some st /\
    worker st = WAsleep /\
    _finish (logger st) = 1.
Proof.
  cbv zeta.
  assert (Hopen : fst (open {| debug_output := [] |}) = true) by reflexivity.
  split; [exact Hopen|].
  destruct (InterleavingFacts.finishWriting_wake_lost {| debug_output := [] |}
              Hopen) as (st & Hexec & Hw & Hf & _).
  exists st. auto.
Defined.




Lemma queue_is_touched_under_the_mutex_witness :
  exists st,
    exec (repeat (Client 1) 3)
      (init {| debug_output := [] |}
         (map client_steps
            [[CallAddMessage hello]; [CallAddMessage bye; CallFinishWriting]]))
    = Some st /\
    nth_error (clients st) 1
    = Some (AStoreSize :: AUnlock :: client_steps [CallFinishWriting]) /\
    mutex st = Some (Client 1).
Proof.
  assert (Hexec : exists st,
             exec (repeat (Client 1) 3)
               (init {| debug_output := [] |}
                  (map client_steps
                     [[CallAddMessage hello];
                      [CallAddMessage bye; CallFinishWriting]])) = Some st /\
             nth_error (clients st) 1
             = Some (AStoreSize :: AUnlock :: client_steps [CallFinishWriting]))
    by (eexists; split; vm_compute; reflexivity).
  destruct Hexec as (st & Hexec & Hnth).
  exists st. split; [exact Hexec|]. split; [exact Hnth|].
  destruct (MutexFacts.queue_is_touched_under_the_mutex _ _ _ _ Hexec)
    as (Hclient & _).
  exact (Hclient 1%nat _ _ Hnth eq_refl).
Defined.

Lemma size_counter_mirrors_queue_when_unlocked_witness :
  exists st,
    exec (repeat (Client 1) 5 ++ repeat Worker 3)
      (init {| debug_output := [] |}
         (map client_steps
            [[CallAddMessage hello]; [CallAddMessage bye; CallFinishWriting]]))
    = Some st /\
    mutex st = None /\
    _messages_size (logger st) = 1 /\
    size_mirrors_queue (logger st).
Proof.
  assert (Hexec : exists st,
             exec (repeat (Client 1) 5 ++ repeat Worker 3)
               (init {| debug_output := [] |}
                  (map client_steps
                     [[CallAddMessage hello];
                      [CallAddMessage bye; CallFinishWriting]])) = Some st /\
             mutex st = None /\ _messages_size (logger st) = 1)
    by (eexists; repeat split; vm_compute; reflexivity).
  destruct Hexec as (st & Hexec & Hfree & Hsize).
  exists st. split; [exact Hexec|]. split; [exact Hfree|].
  split; [exact Hsize|].
  exact (proj2 (MutexFacts.size_counter_mirrors_queue_when_unlocked _ _ _ _
                  Hexec) Hfree).
Defined.

Lemma call_without_interference_witness :
  let st := init {| debug_output := [] |}
              [client_steps [CallAddMessage hello; CallFinishWriting]] in
  mutex st = None /\
  clients st
  = [call_steps (CallAddMessage hello) ++ call_steps CallFinishWriting ++ []] /\
  exists st',
    exec (repeat (Client 0) 5) st = Some st' /\
    logger st' = object (call_op (CallAddMessage hello) (logger st)).
Proof.
  cbv zeta.
  split; [reflexivity|]. split; [reflexivity|].
  destruct (MutexFacts.call_without_interference (CallAddMessage hello)
              (call_steps CallFinishWriting ++ []) []
              (init {| debug_output := [] |}
                 [client_steps [CallAddMessage hello; CallFinishWriting]])
              eq_refl eq_refl) as (st' & Hexec & Hl & _).
  exists st'. split; [exact Hexec | exact Hl].
Defined.

End InterleavingWitnesses.

(** ** The edges of the loop *)

Module EdgeFacts.
Import Interleaving DeliveryFacts MutexFacts.

Section Edges.
Context {S : Type} `{QLoggerStream S}.

Lemma step_worker_keeps_behind_inv (st st1 : State S) :
  behind_inv st -> step_worker st = Some st1 -> behind_inv st1.
Proof.
  intros (H0 & Hle & Hne & Hdef) Hstep. unfold step_worker in Hstep.
  destruct (worker st) eqn:Hpc; cbn [worker_stores] in Hle.
  - unfold stream_open in Hstep.
    destruct (open (_stream (logger st))) as [ok s1].
    destruct ok; cbn [negb] in Hstep; injection Hstep as <-;
      unfold behind_inv; cbn; repeat split; auto; try tauto;
      try discriminate; intros [?|?]; discriminate.
  - destruct (_finish (logger st) =? 0); injection Hstep as <-;
      unfold behind_inv; cbn; repeat split; auto; try tauto;
      try discriminate; intros [?|?]; discriminate.
  - destruct (negb (_messages_size (logger st) =? 0)); injection Hstep as <-;
      unfold behind_inv; cbn; repeat split; auto; try tauto;
      try discriminate; intros [?|?]; discriminate.
  - destruct (_messages_size (logger st) =? 0) eqn:Hsz; cbn [negb] in Hstep;
      injection Hstep as <-;
      unfold behind_inv; cbn; repeat split; auto; try tauto;
      try discriminate; try (intros [?|?]; discriminate).
    intros _ Hq. apply Z.eqb_neq in Hsz.
    specialize (Hle (fun f => f)). rewrite Hq in Hle. cbn in Hle. lia.
  - destruct (acquire Worker st) as [st2|] eqn:Ha; [|discriminate].
    cbn in Hstep. injection Hstep as <-. apply acquire_fields in Ha as [_ ->].
    unfold behind_inv; cbn; repeat split; auto; try tauto; try discriminate.
  - unfold pop_front in Hstep.
    destruct (_messages (logger st)) as [|message rest] eqn:Hq.
    + exfalso. apply Hne; auto.
    + injection Hstep as <-.
      unfold behind_inv; cbn; repeat split; auto; try tauto;
        try discriminate; intros [?|?]; discriminate.
  - injection Hstep as <-.
    unfold behind_inv; cbn; repeat split; auto; try lia; try discriminate.
    intros [?|?]; discriminate.
  - injection Hstep as <-.
    unfold behind_inv; cbn; repeat split; auto; try tauto;
      try discriminate; intros [?|?]; discriminate.
  - injection Hstep as <-. unfold stream_write.
    destruct (write message (_stream (logger st))) as [bytes s1].
    unfold behind_inv; cbn; repeat split; auto; try tauto;
      try discriminate; intros [?|?]; discriminate.
  - destruct (_finish (logger st) =? 0); injection Hstep as <-;
      unfold behind_inv; cbn; repeat split; auto; try tauto;
      try discriminate; intros [?|?]; discriminate.
  - destruct (acquire Worker st) as [st2|] eqn:Ha; [|discriminate].
    cbn in Hstep. injection Hstep as <-. apply acquire_fields in Ha as [_ ->].
    unfold behind_inv; cbn; repeat split; auto; try tauto;
      try discriminate; intros [?|?]; discriminate.
  - injection Hstep as <-.
    unfold behind_inv; cbn; repeat split; auto; try tauto;
      try discriminate; intros [?|?]; discriminate.
  - discriminate.
  - destruct (acquire Worker st) as [st2|] eqn:Ha; [|discriminate].
    cbn in Hstep. injection Hstep as <-. apply acquire_fields in Ha as [_ ->].
    unfold behind_inv; cbn; repeat split; auto; try tauto;
      try discriminate; intros [?|?]; discriminate.
  - injection Hstep as <-.
    unfold behind_inv; cbn; repeat split; auto; try tauto;
      try discriminate; intros [?|?]; discriminate.
  - injection Hstep as <-.
    unfold behind_inv; cbn; repeat split; auto; try tauto;
      try discriminate; intros [?|?]; discriminate.
  - discriminate.
  - discriminate.
Qed.


Lemma step_client_keeps_behind_inv (i : nat) (st st1 : State S) :
  behind_inv st -> step_client i st = Some st1 -> behind_inv st1.
Proof.
  intros (H0 & Hle & Hne & Hdef) Hstep. unfold step_client in Hstep.
  destruct (nth_error (clients st) i) as [[|a rest]|]; try discriminate.
  destruct a.
  - injection Hstep as <-. unfold behind_inv, wake. cbn.
    destruct (worker st) eqn:Hpc; cbn; rewrite ?Hpc;
      cbn [worker_stores] in *; repeat split; auto; try discriminate;
      intros [?|?]; discriminate.
  - apply acquire_fields in Hstep as [_ ->].
    unfold behind_inv. cbn. repeat split; auto.
  - injection Hstep as <-. unfold behind_inv. cbn.
    repeat split; auto.
    + intros Hns. specialize (Hle Hns). rewrite length_app. cbn. lia.
    + intros _ Hq. apply app_eq_nil in Hq as [_ Hq]. discriminate.
  - injection Hstep as <-. unfold behind_inv. cbn.
    repeat split; auto; lia.
  - injection Hstep as <-. unfold behind_inv. cbn. repeat split; auto.
  - injection Hstep as <-. unfold behind_inv. cbn. repeat split; auto.
Qed.

Lemma exec_keeps_behind_inv (sched : list Tid) :
  forall st0 st : State S,
    behind_inv st0 -> exec sched st0 = Some st -> behind_inv st.
Proof.
  induction sched as [|tid sched IH]; intros st0 st Hinv Hst0.
  - cbn in Hst0. injection Hst0 as <-. exact Hinv.
  - cbn [exec] in Hst0.
    destruct (step tid st0) as [st1|] eqn:Hstep; [|discriminate].
    apply (IH st1); [|exact Hst0].
    destruct tid as [|i]; cbn [step] in Hstep.
    + exact (step_worker_keeps_behind_inv st0 st1 Hinv Hstep).
    + exact (step_client_keeps_behind_inv i st0 st1 Hinv Hstep).
Qed.

Lemma behind_inv_init (s : S) (programs : list (list Atomic)) :
  behind_inv (init s programs).
Proof.
  unfold behind_inv, init. cbn. repeat split; try lia; try discriminate.
  intros [?|?]; discriminate.
Qed.


Lemma step_keeps_holder_inv (tid : Tid) (st st1 : State S) :
  holder_inv st -> step tid st = Some st1 -> holder_inv st1.
Proof.
  intros Hinv Hstep. destruct tid as [|i]; cbn [step] in Hstep.
  - assert (Hcs : clients st1 = clients st /\
                  (mutex st1 = mutex st \/ mutex st1 = None \/
                   mutex st1 = Some Worker)).
    { unfold step_worker in Hstep.
      destruct (worker st);
        try (injection Hstep as <-; cbn; auto; fail);
        try discriminate;
        try (destruct (acquire Worker st) as [st2|] eqn:Ha; [|discriminate];
             cbn in Hstep; injection Hstep as <-;
             apply acquire_fields in Ha as [_ ->]; cbn; auto; fail).
      - unfold stream_open in Hstep.
        destruct (open (_stream (logger st))) as [ok s1].
        destruct ok; injection Hstep as <-; cbn; auto.
      - destruct (_finish (logger st) =? 0); injection Hstep as <-; cbn; auto.
      - destruct (negb (_messages_size (logger st) =? 0));
          injection Hstep as <-; cbn; auto.
      - destruct (negb (_messages_size (logger st) =? 0));
          injection Hstep as <-; cbn; auto.
      - destruct (pop_front (logger st)) as [[[m|] l1] t];
          injection Hstep as <-; cbn; auto.
      - destruct (_finish (logger st) =? 0); injection Hstep as <-; cbn; auto. }
    destruct Hcs as [Hcs Hm]. intros j Hj. rewrite Hcs.
    destruct Hm as [Hm|[Hm|Hm]]; rewrite Hm in Hj;
      [exact (Hinv j Hj) | discriminate | discriminate].
  - unfold step_client in Hstep.
    destruct (nth_error (clients st) i) as [[|a rest]|] eqn:Hi;
      try discriminate.
    assert (Hkeep : forall st' : State S,
               clients st' = update_nth i rest (clients st) ->
               (mutex st' = mutex st \/ mutex st' = None \/
                mutex st' = Some (Client i)) ->
               holder_inv st').
    { intros st' Hcs Hm j Hj. rewrite Hcs, nth_error_update_nth.
      destruct (Nat.eqb_spec i j) as [<-|Hne].
      - rewrite Hi. cbn. eauto.
      - destruct Hm as [Hm|[Hm|Hm]]; rewrite Hm in Hj.
        + exact (Hinv j Hj).
        + discriminate.
        + injection Hj as ->. contradiction. }
    destruct a.
    + injection Hstep as <-.
      destruct (wake_fields (with_clients (update_nth i rest (clients st)) st))
        as (_ & Hm & Hc & _).
      apply Hkeep; [exact Hc | left; exact Hm].
    + apply acquire_fields in Hstep as [_ ->]. apply Hkeep; cbn; auto.
    + injection Hstep as <-. apply Hkeep; cbn; auto.
    + injection Hstep as <-. apply Hkeep; cbn; auto.
    + injection Hstep as <-. apply Hkeep; cbn; auto.
    + injection Hstep as <-. apply Hkeep; cbn; auto.
Qed.

Lemma exec_keeps_holder_inv (sched : list Tid) :
  forall st0 st : State S,
    holder_inv st0 -> exec sched st0 = Some st -> holder_inv st.
Proof.
  induction sched as [|tid sched IH]; intros st0 st Hinv Hst0.
  - cbn in Hst0. injection Hst0 as <-. exact Hinv.
  - cbn [exec] in Hst0.
    destruct (step tid st0) as [st1|] eqn:Hstep; [|discriminate].
    exact (IH st1 st (step_keeps_holder_inv tid st0 st1 Hinv Hstep) Hst0).
Qed.

(** X21: the mutex is always given back.  With any number of clients
    calling [addMessage] and [finishWriting] and any order of turns, the
    thread that holds the mutex can take its next turn: no thread blocks,
    waits for another or stops while it holds the mutex, so a client at
    its lock is kept out only while another thread is between its lock and
    its unlock.  The worker's [wait] gives the mutex back before it
    sleeps: nobody sleeps on the mutex. *)
Theorem mutex_holder_can_go_on
  (s : S) (callss : list (list ClientCall)) (schedule : list Tid)
  (st : State S) :
  exec schedule (init s (map client_steps callss)) = Some st ->
  (forall tid, mutex st = Some tid -> exists st1, step tid st = Some st1) /\
  (worker st = WAsleep -> mutex st <> Some Worker).
Proof.
  intros Hexec.
  assert (Hl0 : lock_inv (init s (map client_steps callss))).
  { split; [|reflexivity].
    intros i prog Hi. cbn in Hi.
    apply nth_error_In, in_map_iff in Hi as (calls & <- & _).
    apply disciplined_client_steps. }
  assert (Hh0 : holder_inv (init s (map client_steps callss)))
    by (intros i Hi; discriminate).
  destruct (exec_keeps_lock_inv schedule _ _ Hl0 Hexec) as [Hcl Hw].
  pose proof (exec_keeps_holder_inv schedule _ _ Hh0 Hexec) as Hh.
  destruct (exec_keeps_behind_inv schedule _ _
              (behind_inv_init s (map client_steps callss)) Hexec)
    as (_ & _ & Hne & Hdef).
  split.
  - intros [|i] Hm.
    + assert (Hin : worker_inside (worker st) = true).
      { rewrite <- Hw. apply holds_worker. exact Hm. }
      cbn [step]. unfold step_worker.
      destruct (worker st) eqn:Hpc; try discriminate; try (eexists; reflexivity).
      * unfold pop_front.
        destruct (_messages (logger st)); eexists; reflexivity.
      * contradiction.
    + destruct (Hh i Hm) as (prog & Hi).
      specialize (Hcl i prog Hi).
      assert (Hheld : holds (Client i) st = true)
        by (apply holds_client; exact Hm).
      rewrite Hheld in Hcl.
      cbn [step]. unfold step_client. rewrite Hi.
      destruct prog as [|a rest]; [discriminate Hcl|].
      destruct a; cbn in Hcl; destruct Hcl as [Hc _]; try discriminate;
        eexists; reflexivity.
  - intros Hpc Hm. apply holds_worker in Hm. rewrite Hw, Hpc in Hm.
    discriminate.
Qed.

(** X19: a line that comes late.  One client calls [finishWriting]; the
    worker sees the flag set and the queue empty and leaves its loop; a
    second client calls [addMessage] before the worker has closed the
    stream.  In the end [run] has returned, both calls have returned, and
    the line sits in the queue; nothing was written and no thread can take
    a turn. *)
Theorem late_line_is_not_delivered (s : S) (e : Entry) :
  fst (open s) = true ->
  exists st,
    exec late_schedule (init s [finishWriting_steps; addMessage_steps e])
    = Some st /\
    worker st = WDone /\
    clients st = [[]; []] /\
    _messages (logger st) = [line_of (new s) e] /\
    delivered (trace late_schedule
                 (init s [finishWriting_steps; addMessage_steps e])) = [] /\
    stuck st.
Proof.
  intros Hopen. unfold init, late_schedule.
  cbn. unfold stream_open. cbn.
  destruct (open s) as [ok s1]. cbn [fst] in Hopen. subst ok.
  cbn. eexists. split; [reflexivity|].
  cbn. repeat split.
  intros [|i]; [reflexivity|].
  cbn. destruct i as [|[|i]]; try reflexivity. destruct i; reflexivity.
Qed.

End Edges.
End EdgeFacts.

(** ** The worker on its own *)

Module WorkerFacts.
Import Interleaving.

Section WorkerAlone.
Context {S : Type} `{QLoggerStream S}.

Lemma exec_app (a b : list Tid) (st : State S) :
  exec (a ++ b) st
  = match exec a st with
    | Some st1 => exec b st1
    | None => None
    end.
Proof.
  revert st. induction a as [|tid a IH]; intros st; [reflexivity|].
  cbn [app exec]. destruct (step tid st); [apply IH | reflexivity].
Qed.

(** The turns of one pass of the loop over a queue that is not empty. *)
Lemma worker_pass (l : QLogger S) (cs : list (list Atomic))
  (message : string) (rest : list string) :
  _messages l = message :: rest ->
  _messages_size l <> 0 ->
  exists n,
    exec (repeat Worker n) (worker_at l cs WCondFinish)
    = Some (worker_at (after_pass message rest l) cs WCondFinish).
Proof.
  intros Hq Hsize. apply Z.eqb_neq in Hsize.
  destruct (_finish l =? 0) eqn:Hfin.
  - exists 7%nat. unfold worker_at. cbn. rewrite Hfin. cbn. rewrite Hsize. cbn.
    unfold pop_front. rewrite Hq. cbn. unfold stream_write, after_pass. cbn.
    destruct (write message (_stream l)) as [bytes s1]. reflexivity.
  - exists 8%nat. unfold worker_at. cbn. rewrite Hfin. cbn. rewrite Hsize. cbn.
    rewrite Hsize. cbn.
    unfold pop_front. rewrite Hq. cbn. unfold stream_write, after_pass. cbn.
    destruct (write message (_stream l)) as [bytes s1]. reflexivity.
Qed.

(** The turns of the whole loop: to the sleep when there is no request to
    finish, to the [close] when there is one. *)
Lemma worker_loop (cs : list (list Atomic)) (q : list string) :
  forall l : QLogger S,
    _messages l = q -> size_mirrors_queue l ->
    exists n,
      exec (repeat Worker n) (worker_at l cs WCondFinish)
      = Some (worker_at
                {| _stream := stream_after q (_stream l);
                   _messages := [];
                   _finish := _finish l;
                   _messages_size := 0;
                   _error_string := _error_string l;
                   _format_string := _format_string l;
                   _datetime_format := _datetime_format l |}
                cs
                (if _finish l =? 0 then WAsleep else WClose)).
Proof.
  induction q as [|message rest IH]; intros l Hq Hinv.
  - unfold size_mirrors_queue in Hinv. rewrite Hq in Hinv. cbn in Hinv.
    assert (Hl : {| _stream := stream_after [] (_stream l);
                    _messages := [];
                    _finish := _finish l;
                    _messages_size := 0;
                    _error_string := _error_string l;
                    _format_string := _format_string l;
                    _datetime_format := _datetime_format l |} = l).
    { destruct l; cbn in *. subst. reflexivity. }
    rewrite Hl.
    destruct (_finish l =? 0) eqn:Hfin.
    + exists 5%nat. unfold worker_at. cbn. rewrite Hfin. cbn.
      rewrite Hinv. cbn. rewrite Hfin. cbn. reflexivity.
    + exists 2%nat. unfold worker_at. cbn. rewrite Hfin. cbn.
      rewrite Hinv. cbn. reflexivity.
  - assert (Hsize : _messages_size l <> 0).
    { unfold size_mirrors_queue in Hinv. rewrite Hq in Hinv. cbn in Hinv. lia. }
    destruct (worker_pass l cs message rest Hq Hsize) as (n1 & H1).
    destruct (IH (after_pass message rest l) eq_refl eq_refl) as (n2 & H2).
    exists (n1 + n2)%nat. rewrite repeat_app, exec_app, H1, H2.
    reflexivity.
Qed.

(** X20: the worker taking its turns alone, on a logger whose counter
    mirrors the queue, comes to rest after finitely many turns, with the
    mutex free and the logger as [run] leaves it: at the end of [run]
    when [run] returns, asleep in [wait] when [run] blocks. *)
Theorem worker_alone_is_run
  (l : QLogger S) (cs : list (list Atomic)) (fuel : nat) :
  size_mirrors_queue l ->
  (List.length (_messages l) < fuel)%nat ->
  exists n st,
    exec (repeat Worker n) (worker_at l cs WOpen) = Some st /\
    logger st = object (run fuel l) /\
    mutex st = None /\
    clients st = cs /\
    worker st = match result (run fuel l) with
                | Done => WDone
                | _ => WAsleep
                end /\
    step Worker st = None.
Proof.
  intros Hinv Hfuel.
  destruct (open (_stream l)) as [ok s1] eqn:Ho. destruct ok.
  - rewrite (run_opened fuel l s1 Ho). cbv zeta.
    destruct (worker_loop cs (_messages l) (set_stream s1 l) eq_refl Hinv)
      as (n & Hn).
    cbn [set_stream _stream _finish _error_string _format_string
           _datetime_format] in Hn.
    destruct (Z.eq_dec (_finish l) 0) as [Hfin|Hfin].
    + destruct (drain_then_wait (_messages l) fuel (set_stream s1 l) eq_refl
                  Hinv Hfin Hfuel) as (Hres & _ & Hobj).
      rewrite Hres, Hobj.
      exists (1 + n)%nat. eexists.
      rewrite repeat_app, exec_app.
      split.
      * unfold worker_at at 1. cbn [repeat exec step step_worker worker logger].
        unfold stream_open. rewrite Ho. cbn [negb].
        change (with_worker WCondFinish
                  (with_logger (set_stream s1 l)
                     {| logger := l; mutex := None; worker := WOpen;
                        clients := cs |}))
          with (worker_at (set_stream s1 l) cs WCondFinish).
        rewrite Hn, Hfin. reflexivity.
      * cbn. repeat split.
    + destruct (drain_all (_messages l) fuel (set_stream s1 l) eq_refl
                  Hinv Hfin Hfuel) as (Hres & _ & _ & Hobj).
      rewrite Hres, Hobj.
      exists (1 + (n + 1))%nat. eexists.
      rewrite repeat_app, exec_app.
      split.
      * unfold worker_at at 1. cbn [repeat exec step step_worker worker logger].
        unfold stream_open. rewrite Ho. cbn [negb].
        change (with_worker WCondFinish
                  (with_logger (set_stream s1 l)
                     {| logger := l; mutex := None; worker := WOpen;
                        clients := cs |}))
          with (worker_at (set_stream s1 l) cs WCondFinish).
        rewrite repeat_app, exec_app, Hn.
        apply Z.eqb_neq in Hfin. rewrite Hfin. reflexivity.
      * cbn. repeat split.
  - rewrite (run_not_opened fuel l s1 Ho).
    exists 1%nat. eexists. split.
    + unfold worker_at. cbn [repeat exec step step_worker worker logger].
      unfold stream_open. rewrite Ho. cbn [negb]. reflexivity.
    + cbn. repeat split.
Qed.

End WorkerAlone.
End WorkerFacts.

Module EdgeWitnesses.
Import Interleaving.


Lemma late_line_is_not_delivered_witness :
  let s := {| debug_output := [] |} in
  fst (open s) = true /\
  exists st,
    exec late_schedule (init s [finishWriting_steps; addMessage_steps hello])
    = Some st /\
    worker st = WDone /\
    _messages (logger st) = [line_of (new s) hello].
Proof.
  cbv zeta.
  assert (Hopen : fst (open {| debug_output := [] |}) = true) by reflexivity.
  split; [exact Hopen|].
  destruct (EdgeFacts.late_line_is_not_delivered {| debug_output := [] |}
              hello Hopen) as (st & Hexec & Hw & _ & Hq & _).
  exists st. auto.
Defined.

Lemma worker_alone_is_run_witness :
  size_mirrors_queue finished_logger /\
  (List.length (_messages finished_logger) < 3)%nat /\
  exists n st,
    exec (repeat Worker n) (worker_at finished_logger [] WOpen) = Some st /\
    logger st = object (run 3 finished_logger) /\
    worker st = WDone.
Proof.
  assert (Hinv : size_mirrors_queue finished_logger) by reflexivity.
  assert (Hfuel : (List.length (_messages finished_logger) < 3)%nat)
    by (cbn; lia).
  split; [exact Hinv|]. split; [exact Hfuel|].
  destruct (WorkerFacts.worker_alone_is_run finished_logger [] 3 Hinv Hfuel)
    as (n & st & Hexec & Hl & _ & _ & Hpc & _).
  exists n, st. split; [exact Hexec|]. split; [exact Hl|].
  rewrite Hpc. reflexivity.
Defined.

Lemma mutex_holder_can_go_on_witness :
  exists st,
    exec (repeat (Client 1) 3)
      (init {| debug_output := [] |}
         (map client_steps
            [[CallAddMessage hello]; [CallAddMessage bye; CallFinishWriting]]))
    = Some st /\
    mutex st = Some (Client 1) /\
    exists st1, step (Client 1) st = Some st1.
Proof.
  assert (Hexec : exists st,
             exec (repeat (Client 1) 3)
               (init {| debug_output := [] |}
                  (map client_steps
                     [[CallAddMessage hello];
                      [CallAddMessage bye; CallFinishWriting]])) = Some st /\
             mutex st = Some (Client 1))
    by (eexists; split; vm_compute; reflexivity).
  destruct Hexec as (st & Hexec & Hm).
  exists st. split; [exact Hexec|]. split; [exact Hm|].
  exact (proj1 (EdgeFacts.mutex_holder_can_go_on _ _ _ _ Hexec)
           (Client 1) Hm).
Defined.

End EdgeWitnesses.

(** ** What [run] has done when it returns *)

Module ReturnFacts.
Import Interleaving.

Section Returns.
Context {S : Type} `{QLoggerStream S}.

Lemma stream_after_app (q q' : list string) (s : S) :
  stream_after (q ++ q') s = stream_after q' (stream_after q s).
Proof. unfold stream_after. apply fold_left_app. Qed.

Lemma closes_cases (pc : WorkerPc) :
  pc = WDone \/ (pc <> WDone /\ forall s : S, closes pc s = s).
Proof. destruct pc; cbn; auto; right; split; auto; discriminate. Qed.

(** A turn of a client leaves the stream alone and delivers nothing; the
    worker stays where it is, or is woken from its sleep. *)
Lemma client_turn_keeps_stream (i : nat) (st st1 : State S) :
  step_client i st = Some st1 ->
  _stream (logger st1) = _stream (logger st) /\
  (worker st1 = worker st \/ (worker st = WAsleep /\ worker st1 = WWoken)) /\
  delivered (label (Client i) st) = [].
Proof.
  unfold step_client. cbn [label].
  destruct (nth_error (clients st) i) as [[|a rest]|]; try discriminate.
  destruct a; intros Hstep.
  - injection Hstep as <-. unfold wake. cbn.
    destruct (worker st) eqn:Hpc; cbn; rewrite ?Hpc; auto.
  - apply DeliveryFacts.acquire_fields in Hstep as [_ ->]. cbn. auto.
  - injection Hstep as <-. cbn. auto.
  - injection Hstep as <-. cbn. auto.
  - injection Hstep as <-. cbn. auto.
  - injection Hstep as <-. cbn. auto.
Qed.

(** A turn of the worker past the [open]: the stream gets the line the
    turn delivers, and the [close] when the turn is the last. *)
Lemma worker_turn_feeds_stream (st st1 : State S) :
  step_worker st = Some st1 ->
  worker st <> WOpen ->
  worker st1 <> WOpen /\
  _stream (logger st1)
  = closes (worker st1)
      (stream_after (delivered (label Worker st)) (_stream (logger st))).
Proof.
  unfold step_worker. cbn [label].
  destruct (worker st) eqn:Hpc; intros Hstep Hopen; try congruence;
    cbn [delivered stream_after fold_left].
  - destruct (_finish (logger st) =? 0); injection Hstep as <-;
      cbn; split; [discriminate | reflexivity | discriminate | reflexivity].
  - destruct (negb (_messages_size (logger st) =? 0)); injection Hstep as <-;
      cbn; split; [discriminate | reflexivity | discriminate | reflexivity].
  - destruct (negb (_messages_size (logger st) =? 0)); injection Hstep as <-;
      cbn; split; [discriminate | reflexivity | discriminate | reflexivity].
  - destruct (acquire Worker st) as [st2|] eqn:Ha; [|discriminate].
    cbn in Hstep. injection Hstep as <-.
    apply DeliveryFacts.acquire_fields in Ha as [_ ->].
    cbn. split; [discriminate | reflexivity].
  - unfold pop_front in Hstep.
    destruct (_messages (logger st)) as [|message rest];
      injection Hstep as <-; cbn; split;
      [discriminate | reflexivity | discriminate | reflexivity].
  - injection Hstep as <-. cbn. split; [discriminate | reflexivity].
  - injection Hstep as <-. cbn. split; [discriminate | reflexivity].
  - injection Hstep as <-. unfold stream_write.
    destruct (write message (_stream (logger st))) as [bytes s1].
    cbn. split; [discriminate | reflexivity].
  - destruct (_finish (logger st) =? 0); injection Hstep as <-;
      cbn; split; [discriminate | reflexivity | discriminate | reflexivity].
  - destruct (acquire Worker st) as [st2|] eqn:Ha; [|discriminate].
    cbn in Hstep. injection Hstep as <-.
    apply DeliveryFacts.acquire_fields in Ha as [_ ->].
    cbn. split; [discriminate | reflexivity].
  - injection Hstep as <-. cbn. split; [discriminate | reflexivity].
  - destruct (acquire Worker st) as [st2|] eqn:Ha; [|discriminate].
    cbn in Hstep. injection Hstep as <-.
    apply DeliveryFacts.acquire_fields in Ha as [_ ->].
    cbn. split; [discriminate | reflexivity].
  - injection Hstep as <-. cbn. split; [discriminate | reflexivity].
  - injection Hstep as <-. cbn. split; [discriminate | reflexivity].
Qed.

(** Once [run] has returned the stream is left alone. *)
Lemma exec_from_done (sched : list Tid) :
  forall st0 st : State S,
    worker st0 = WDone ->
    exec sched st0 = Some st ->
    worker st = WDone /\
    _stream (logger st) = _stream (logger st0) /\
    delivered (trace sched st0) = [].
Proof.
  induction sched as [|tid sched IH]; intros st0 st Hpc Hexec.
  - cbn in *. injection Hexec as ->. auto.
  - cbn [exec trace] in *.
    destruct (step tid st0) as [st1|] eqn:Hstep; [|discriminate].
    destruct tid as [|i]; cbn [step] in Hstep.
    + unfold step_worker in Hstep. rewrite Hpc in Hstep. discriminate.
    + destruct (client_turn_keeps_stream i st0 st1 Hstep) as (Hs & Hw & Hd).
      assert (Hpc1 : worker st1 = WDone)
        by (destruct Hw as [Hw|[Hw _]]; congruence).
      destruct (IH st1 st Hpc1 Hexec) as (Hpc2 & Hs2 & Hd2).
      rewrite DeliveryFacts.delivered_app, Hd, Hd2, Hs2, Hs. auto.
Qed.

(** From a place of the loop on: the stream has got the lines delivered
    since, and the [close] when [run] has returned. *)
Lemma exec_from_loop (sched : list Tid) :
  forall st0 st : State S,
    worker st0 <> WOpen -> worker st0 <> WDone ->
    exec sched st0 = Some st ->
    worker st <> WOpen /\
    _stream (logger st)
    = closes (worker st)
        (stream_after (delivered (trace sched st0)) (_stream (logger st0))).
Proof.
  induction sched as [|tid sched IH]; intros st0 st Hopen Hdone Hexec.
  - cbn in *. injection Hexec as ->. split; [exact Hopen|].
    destruct (closes_cases (worker st)) as [Hd|[_ Hc]]; [contradiction|].
    rewrite Hc. reflexivity.
  - cbn [exec trace] in *.
    destruct (step tid st0) as [st1|] eqn:Hstep; [|discriminate].
    rewrite DeliveryFacts.delivered_app, stream_after_app.
    destruct tid as [|i]; cbn [step] in Hstep.
    + destruct (worker_turn_feeds_stream st0 st1 Hstep Hopen) as (Hopen1 & Hs1).
      destruct (closes_cases (worker st1)) as [Hd1|[Hd1 Hc1]].
      * destruct (exec_from_done sched st1 st Hd1 Hexec) as (Hd2 & Hs2 & Hdel).
        rewrite Hd2, Hs2, Hdel, Hs1, Hd1. cbn.
        split; [discriminate | reflexivity].
      * rewrite Hc1 in Hs1. rewrite <- Hs1.
        exact (IH st1 st Hopen1 Hd1 Hexec).
    + destruct (client_turn_keeps_stream i st0 st1 Hstep) as (Hs & Hw & Hd).
      rewrite Hd. cbn [stream_after fold_left]. rewrite <- Hs.
      apply IH; [| |exact Hexec];
        destruct Hw as [Hw|[_ Hw]]; rewrite Hw; auto; discriminate.
Qed.

(** From the start of [run] on a stream that opens. *)
Lemma exec_from_start (sched : list Tid) :
  forall st0 st : State S,
    worker st0 = WOpen ->
    fst (open (_stream (logger st0))) = true ->
    exec sched st0 = Some st ->
    worker st = WOpen \/
    _stream (logger st)
    = closes (worker st)
        (stream_after (delivered (trace sched st0))
           (snd (open (_stream (logger st0))))).
Proof.
  induction sched as [|tid sched IH]; intros st0 st Hpc Hok Hexec.
  - cbn in *. injection Hexec as ->. auto.
  - cbn [exec trace] in *.
    destruct (step tid st0) as [st1|] eqn:Hstep; [|discriminate].
    rewrite DeliveryFacts.delivered_app, stream_after_app.
    destruct tid as [|i]; cbn [step] in Hstep.
    + right. unfold step_worker in Hstep. cbn [label]. rewrite Hpc in *.
      unfold stream_open in Hstep.
      destruct (open (_stream (logger st0))) as [ok s1].
      cbn [fst snd] in *. subst ok. cbn [negb] in Hstep.
      injection Hstep as <-.
      cbn [delivered stream_after fold_left].
      refine (proj2 (exec_from_loop sched _ st _ _ Hexec)); discriminate.
    + destruct (client_turn_keeps_stream i st0 st1 Hstep) as (Hs & Hw & Hd).
      rewrite Hd. cbn [stream_after fold_left]. rewrite <- Hs.
      apply IH; [|rewrite Hs; exact Hok|exact Hexec].
      destruct Hw as [Hw|[Hw _]]; congruence.
Qed.

(** The lines delivered by the time [run] has returned, for one client
    that queues [es] and asks to finish. *)
Lemma done_delivered (s : S) (es : list Entry) (schedule : list Tid)
  (st : State S) :
  fst (open s) = true ->
  exec schedule (init s [add_then_finish es]) = Some st ->
  worker st = WDone ->
  delivered (trace schedule (init s [add_then_finish es]))
  = map (line_of (new s)) es /\
  _messages (logger st) = [].
Proof.
  intros Hopen Hexec Hdone.
  assert (Hinit : drain_inv s (add_then_finish es)
                    (init s [add_then_finish es])).
  { unfold drain_inv, init. cbn.
    repeat split; auto; try tauto; try discriminate.
    intros _. apply DeliveryFacts.finish_last_add_then_finish. }
  destruct (DeliveryFacts.exec_keeps_drain_inv s schedule Hopen _ _ _
              Hinit Hexec) as (prog & Hinv & Hp).
  destruct Hinv as (_ & _ & _ & _ & _ & Hquiet & _ & Hpast & Hleave).
  rewrite Hdone in Hpast, Hleave.
  specialize (Hpast I). specialize (Hleave I).
  rewrite (DeliveryFacts.quiet_pending prog (Hquiet Hpast)) in Hp.
  rewrite DeliveryFacts.pending_add_then_finish in Hp. cbn [map] in Hp.
  rewrite app_nil_r in Hp.
  pose proof (DeliveryFacts.exec_keeps_lines schedule _ _ Hexec) as Hl.
  rewrite Hdone, Hleave in Hl. cbn in Hl. rewrite !app_nil_r in Hl.
  split; [|exact Hleave].
  rewrite <- Hl. symmetry. exact Hp.
Qed.

(** C1, as the code has it: a logger is built on a stream that opens and
    one client calls [addMessage] for the entries [es] and then
    [finishWriting].  When [run] starts after the calls it returns, given
    fuel for one pass per entry and the last look at the condition.  And
    however the turns of the client and of the worker fall, whenever
    [run] has returned: the stream was opened, has got the line of each
    entry once, in the order of the calls, and was closed after the last
    of them, and the queue is empty. *)
Theorem run_returned_after_every_line (s : S) (es : list Entry) :
  fst (open s) = true ->
  let lines := map (line_of (new s)) es in
  let sink := close (stream_after lines (snd (open s))) in
  (forall fuel : nat,
     (List.length es < fuel)%nat ->
     let r := run fuel (object ((addMessages es ;; finishWriting) (new s))) in
     result r = Done /\
     stream_calls (events r)
     = CallOpen :: map CallWrite lines ++ [CallClose] /\
     written (events r) = lines /\
     _stream (object r) = sink /\
     _messages (object r) = []) /\
  (forall (schedule : list Tid) (st : State S),
     exec schedule (init s [add_then_finish es]) = Some st ->
     worker st = WDone ->
     delivered (trace schedule (init s [add_then_finish es])) = lines /\
     _stream (logger st) = sink /\
     _messages (logger st) = []) /\
  List.length lines = List.length es.
Proof.
  intros Hopen. cbv zeta. split; [|split; [|apply length_map]].
  - intros fuel Hfuel. rewrite queued_then_finished.
    set (l := {| _stream := s; _messages := map (line_of (new s)) es |}).
    assert (Hfuel' : (List.length (_messages l) < fuel)%nat)
      by (cbn; rewrite length_map; exact Hfuel).
    destruct (run_drains fuel l Hopen eq_refl ltac:(cbn; lia) Hfuel')
      as (Hres & Hw & Hc & Hobj).
    split; [exact Hres|]. split; [exact Hc|]. split; [exact Hw|].
    rewrite Hobj. split; reflexivity.
  - intros schedule st Hexec Hdone.
    destruct (done_delivered s es schedule st Hopen Hexec Hdone)
      as (Hdel & Hq).
    split; [exact Hdel|]. split; [|exact Hq].
    destruct (exec_from_start schedule (init s [add_then_finish es]) st
                eq_refl Hopen Hexec) as [Hpc|Hs].
    + congruence.
    + rewrite Hs, Hdone, Hdel. reflexivity.
Qed.

(** C6, as the code has it: a second [finishWriting] is not without
    effect.  The worker sleeps on the empty queue; the [wakeOne] of the
    first call gets it up before the flag is stored, it sees no request to
    finish and sleeps again: the call has returned, the flag is set, the
    stream is open and no thread can take a turn.  The [wakeOne] of a
    second call wakes the worker once more; now it sees the flag, closes
    the stream and [run] returns.  Both runs end where no thread can take
    a turn, and the members of the logger other than the stream are the
    same after the one call and after the two. *)
Theorem second_finishWriting_ends_run (s : S) :
  fst (open s) = true ->
  let after (stream : S) :=
    {| _stream := stream; _messages := []; _finish := 1;
       _messages_size := 0; _error_string := "";
       _format_string := "[%1] %2 %3";
       _datetime_format := "dd.MM.yyyy hh:mm:ss" |} in
  (exists once,
     exec lost_finish_schedule (init s [finishWriting_steps]) = Some once /\
     worker once = WAsleep /\
     clients once = [[]] /\
     logger once = after (snd (open s)) /\
     stuck once) /\
  (exists twice,
     exec second_finish_schedule
       (init s [(finishWriting_steps ++ finishWriting_steps)%list])
     = Some twice /\
     worker twice = WDone /\
     clients twice = [[]] /\
     logger twice = after (close (snd (open s))) /\
     stuck twice).
Proof.
  intros Hopen. cbv zeta.
  unfold second_finish_schedule, lost_finish_schedule, init, to_sleep,
    back_to_sleep.
  cbn [repeat app exec step step_worker worker logger].
  unfold stream_open. cbn [new _stream].
  destruct (open s) as [ok s1]. cbn [fst snd] in *. subst ok.
  split.
  - cbn. eexists. split; [reflexivity|].
    cbn. repeat split.
    intros [|i]; [reflexivity|].
    cbn. destruct i as [|i]; [reflexivity|]. destruct i; reflexivity.
  - cbn. eexists. split; [reflexivity|].
    cbn. repeat split.
    intros [|i]; [reflexivity|].
    cbn. destruct i as [|i]; [reflexivity|]. destruct i; reflexivity.
Qed.

End Returns.
End ReturnFacts.

Module ReturnWitnesses.
Import Interleaving.

(** The claim as the spec has it fails: on a stream that does not open
    [run] returns with the two queued lines unwritten; and on a stream
    that opens, the worker that has seen the queue empty and the flag not
    set goes to sleep after the client has queued its line and asked to
    finish: the line stays in the queue, nothing is written and no thread
    can take a turn. *)
Lemma queued_lines_stay_unwritten :
  (List.length (_messages failing_logger) = 2%nat /\
   _finish failing_logger = 1 /\
   result (run 3 failing_logger) = Done /\
   written (events (run 3 failing_logger)) = [] /\
   written (events (run 3 failing_logger)) <> _messages failing_logger) /\
  (let s := {| debug_output := [] |} in
   fst (open s) = true /\
   exists st,
     exec race_schedule (init s [add_then_finish [hello]]) = Some st /\
     worker st = WAsleep /\
     clients st = [[]] /\
     _finish (logger st) = 1 /\
     _messages (logger st) = [line_of (new s) hello] /\
     delivered (trace race_schedule (init s [add_then_finish [hello]])) = [] /\
     _stream (logger st) = snd (open s) /\
     stuck st).
Proof.
  split.
  - split; [reflexivity|]. split; [reflexivity|]. split; [reflexivity|].
    split; [reflexivity|]. vm_compute. discriminate.
  - cbv zeta. split; [reflexivity|].
    eexists. split; [vm_compute; reflexivity|].
    split; [reflexivity|]. split; [reflexivity|]. split; [reflexivity|].
    split; [reflexivity|]. split; [vm_compute; reflexivity|].
    split; [reflexivity|].
    intros [|i]; [reflexivity|].
    cbn. destruct i as [|i]; [reflexivity|]. destruct i; reflexivity.
Qed.

Lemma two_line_schedule_runs :
  exists st,
    exec two_line_schedule
      (init {| debug_output := [] |} [add_then_finish [hello; bye]])
    = Some st /\
    worker st = WDone.
Proof. eexists. split; [vm_compute; reflexivity | reflexivity]. Qed.

Lemma run_returned_after_every_line_witness :
  let s := {| debug_output := [] |} in
  let lines := map (line_of (new s)) [hello; bye] in
  fst (open s) = true /\
  (List.length [hello; bye] < 3)%nat /\
  _stream
    (object (run 3 (object ((addMessages [hello; bye] ;; finishWriting)
                              (new s)))))
  = close (stream_after lines (snd (open s))) /\
  exists st,
    exec two_line_schedule (init s [add_then_finish [hello; bye]]) = Some st /\
    worker st = WDone /\
    delivered (trace two_line_schedule (init s [add_then_finish [hello; bye]]))
    = lines /\
    _stream (logger st) = close (stream_after lines (snd (open s))).
Proof.
  cbv zeta.
  assert (Hopen : fst (open {| debug_output := [] |}) = true) by reflexivity.
  assert (Hfuel : (List.length [hello; bye] < 3)%nat) by (cbn; lia).
  split; [exact Hopen|]. split; [exact Hfuel|].
  destruct (ReturnFacts.run_returned_after_every_line {| debug_output := [] |}
              [hello; bye] Hopen) as (Hrun & Hany & _).
  split.
  - pose proof (Hrun 3%nat Hfuel) as Hr. cbv zeta in Hr.
    destruct Hr as (_ & _ & _ & Hs & _). exact Hs.
  - destruct two_line_schedule_runs as (st & Hexec & Hdone).
    exists st. split; [exact Hexec|]. split; [exact Hdone|].
    destruct (Hany two_line_schedule st Hexec Hdone) as (Hdel & Hs & _).
    split; [exact Hdel | exact Hs].
Defined.

Lemma second_finishWriting_ends_run_witness :
  let s := FileStream.new "test.log" : QLoggerFileStream MemFile in
  fst (open s) = true /\
  (exists once,
     exec lost_finish_schedule (init s [finishWriting_steps]) = Some once /\
     worker once = WAsleep /\
     journal (_file (_stream (logger once))) = [FileOpen true] /\
     isOpen (_stream (logger once)) = true) /\
  (exists twice,
     exec second_finish_schedule
       (init s [(finishWriting_steps ++ finishWriting_steps)%list])
     = Some twice /\
     worker twice = WDone /\
     journal (_file (_stream (logger twice))) = [FileOpen true; FileClose] /\
     isOpen (_stream (logger twice)) = false).
Proof.
  cbv zeta.
  assert (Hopen : fst (open (FileStream.new "test.log"
                             : QLoggerFileStream MemFile)) = true)
    by reflexivity.
  split; [exact Hopen|].
  destruct (ReturnFacts.second_finishWriting_ends_run
              (FileStream.new "test.log" : QLoggerFileStream MemFile) Hopen)
    as ((once & Hexec1 & Hpc1 & _ & Hl1 & _)
        & (twice & Hexec2 & Hpc2 & _ & Hl2 & _)).
  split.
  - exists once. split; [exact Hexec1|]. split; [exact Hpc1|].
    rewrite Hl1. split; reflexivity.
  - exists twice. split; [exact Hexec2|]. split; [exact Hpc2|].
    rewrite Hl2. split; reflexivity.
Defined.

End ReturnWitnesses.
